(** * Ansari Interiors: scroll-triggered animation and mobile menu

    A shallow embedding of [js/animation.js] (class [ScrollAnimation]) and of
    the mobile-menu script, together with the part of the browser they talk
    to: a document of elements with class lists and attributes, a selector
    engine, an intersection observer, paint callbacks and timers. *)

From Stdlib Require Import Ascii String.
From stdpp Require Import base list strings gmap.

Local Open Scope string_scope.

(** ** JavaScript string primitives used by the scripts *)

Module JsString.

Definition startsWith (s p : string) : bool := String.prefix p s.

Fixpoint includes (s p : string) : bool :=
  String.prefix p s ||
  match s with
  | EmptyString => false
  | String _ r => includes r p
  end.

Fixpoint drop (n : nat) (s : string) : string :=
  match n, s with
  | S k, String _ r => drop k r
  | _, _ => s
  end.

(** [s.slice(1)] *)
Definition slice1 (s : string) : string := drop 1 s.

(** [s.replace(pat, rep)] with a string pattern: the first occurrence only. *)
Fixpoint replace (s pat rep : string) : string :=
  if String.prefix pat s then rep +:+ drop (String.length pat) s
  else match s with
       | EmptyString => EmptyString
       | String c r => String c (replace r pat rep)
       end.

Definition lowerChar (c : ascii) : ascii :=
  let n := nat_of_ascii c in
  if (65 <=? n)%nat && (n <=? 90)%nat then ascii_of_nat (n + 32) else c.

Fixpoint toLowerCase (s : string) : string :=
  match s with
  | EmptyString => EmptyString
  | String c r => String (lowerChar c) (toLowerCase r)
  end.

End JsString.

(** ** The document *)

(** An element carries what the scripts read and write: its tag name, its
    class list ([DOMTokenList]: ordered, without repetition), its attributes
    other than [class], and its parent.  A document lists its elements in
    tree order; an element is named by its position. *)
Record Element := mkElement {
  tagName : string;
  classList : list string;
  attributes : gmap string string;
  parentNode : option nat;
}.

Abbreviation Document := (list Element).

Module Dom.

Definition contains_class (el : Element) (c : string) : bool :=
  bool_decide (c ∈ classList el).

Definition add_class (c : string) (el : Element) : Element :=
  if contains_class el c then el
  else mkElement (tagName el) (classList el ++ [c]) (attributes el) (parentNode el).

Definition remove_class (c : string) (el : Element) : Element :=
  mkElement (tagName el) (filter (λ x, x ≠ c) (classList el))
            (attributes el) (parentNode el).

Definition toggle_class (c : string) (el : Element) : Element :=
  if contains_class el c then remove_class c el else add_class c el.

Definition set_attribute (k v : string) (el : Element) : Element :=
  mkElement (tagName el) (classList el) (<[k:=v]> (attributes el)) (parentNode el).

Definition remove_attribute (k : string) (el : Element) : Element :=
  mkElement (tagName el) (classList el) (delete k (attributes el)) (parentNode el).

(** Splitting a [class] attribute value into its tokens. *)
Fixpoint tokens (s : string) (cur : string) : list string :=
  let flush r := match cur with EmptyString => r | _ => cur :: r end in
  match s with
  | EmptyString => flush []
  | String c r =>
      if Ascii.eqb c " "%char then flush (tokens r EmptyString)
      else tokens r (cur +:+ String c EmptyString)
  end.

Fixpoint dedup (l : list string) (seen : list string) : list string :=
  match l with
  | [] => []
  | x :: r => if bool_decide (x ∈ seen) then dedup r seen else x :: dedup r (x :: seen)
  end.

(** [el.className = value] *)
Definition set_className (value : string) (el : Element) : Element :=
  mkElement (tagName el) (dedup (tokens value EmptyString) [])
            (attributes el) (parentNode el).

(** *** Operations on an element of the document *)

Definition classList_contains (d : Document) (e : nat) (c : string) : bool :=
  match d !! e with
  | Some el => contains_class el c
  | None => false
  end.

Definition classList_add (d : Document) (e : nat) (c : string) : Document :=
  alter (add_class c) e d.

Definition classList_remove (d : Document) (e : nat) (c : string) : Document :=
  alter (remove_class c) e d.

Definition classList_toggle (d : Document) (e : nat) (c : string) : Document :=
  alter (toggle_class c) e d.

Definition getAttribute (d : Document) (e : nat) (k : string) : option string :=
  d !! e ≫= λ el, attributes el !! k.

Definition setAttribute (d : Document) (e : nat) (k v : string) : Document :=
  alter (set_attribute k v) e d.

Definition removeAttribute (d : Document) (e : nat) (k : string) : Document :=
  alter (remove_attribute k) e d.

Definition setClassName (d : Document) (e : nat) (value : string) : Document :=
  alter (set_className value) e d.

(** *** Tree structure *)

(** The proper ancestors of [e], nearest first.  A parent precedes its
    children in tree order, so [length d] steps reach the root. *)
Fixpoint ancestors_from (d : Document) (fuel : nat) (e : nat) : list nat :=
  match fuel with
  | O => []
  | S f =>
      match d !! e ≫= parentNode with
      | Some p => p :: ancestors_from d f p
      | None => []
      end
  end.

Definition ancestors (d : Document) (e : nat) : list nat :=
  ancestors_from d (length d) e.

(** [a.contains(b)]: [b] is [a] or one of its descendants. *)
Definition contains (d : Document) (a b : nat) : bool :=
  bool_decide (a ∈ b :: ancestors d b).

(** Tree order: every parent is an earlier element. *)
Definition well_formed (d : Document) : bool :=
  forallb (λ e, match d !! e ≫= parentNode with
                | Some p => bool_decide (p < e)
                | None => true
                end) (seq 0 (length d)).

End Dom.

(** ** The selector engine

    The fragment of CSS selectors the scripts write themselves: type,
    universal and class selectors, [:not(...)] of one of these, compounds of
    them, the descendant and child combinators, and comma-separated lists.
    A string this engine reads is read as the browser reads it.  Any other
    string is rejected here, which the callers see as a [SyntaxError]; the
    browser reads more (ids, attributes, sibling combinators, further
    pseudo-classes), so where the selector comes from outside the scripts
    the engine is a parameter ([ScrollAnimation.triggerAnimationWith]). *)

Module Css.

Inductive Atom :=
| AType (name : string)
| AUniversal
| AClass (c : string).

Inductive Simple :=
| Pos (a : Atom)
| Neg (a : Atom).

Definition Compound := list Simple.

Inductive Combinator := Descendant | Child.

(** A complex selector, read from its subject leftwards. *)
Record Complex := mkComplex {
  subject : Compound;
  context : list (Combinator * Compound);
}.

(** *** Reading a selector *)

Inductive Token :=
| TIdent (s : string)
| TDot | TStar | TColon | TOpen | TClose | TGt | TSpace | TComma.

Definition is_ident_char (c : ascii) : bool :=
  let n := nat_of_ascii c in
  ((97 <=? n)%nat && (n <=? 122)%nat) || ((65 <=? n)%nat && (n <=? 90)%nat) ||
  ((48 <=? n)%nat && (n <=? 57)%nat) || (n =? 45)%nat || (n =? 95)%nat.

Definition punctuation (c : ascii) : option Token :=
  if Ascii.eqb c "."%char then Some TDot
  else if Ascii.eqb c "*"%char then Some TStar
  else if Ascii.eqb c ":"%char then Some TColon
  else if Ascii.eqb c "("%char then Some TOpen
  else if Ascii.eqb c ")"%char then Some TClose
  else if Ascii.eqb c ">"%char then Some TGt
  else if Ascii.eqb c " "%char then Some TSpace
  else if Ascii.eqb c ","%char then Some TComma
  else None.

Definition is_ident_start (c : ascii) : bool :=
  let n := nat_of_ascii c in
  ((97 <=? n)%nat && (n <=? 122)%nat) || ((65 <=? n)%nat && (n <=? 90)%nat) ||
  (n =? 95)%nat.

(** A run of name characters is an identifier unless it starts with a digit,
    or with a hyphen followed by a digit or by nothing: [1a] and [-] are not
    identifiers, [a1], [-a] and [--] are. *)
Definition is_identifier (s : string) : bool :=
  match s with
  | EmptyString => false
  | String c r =>
      if Ascii.eqb c "-"%char
      then match r with
           | EmptyString => false
           | String c2 _ => is_ident_start c2 || Ascii.eqb c2 "-"%char
           end
      else is_ident_start c
  end.

(** The run read so far becomes a token; a run that is not an identifier
    makes the selector malformed. *)
Definition flush (cur : string) (ts : list Token) : option (list Token) :=
  match cur with
  | EmptyString => Some ts
  | _ => if is_identifier cur then Some (TIdent cur :: ts) else None
  end.

Fixpoint tokenize (s : string) (cur : string) : option (list Token) :=
  match s with
  | EmptyString => flush cur []
  | String c r =>
      if is_ident_char c then tokenize r (cur +:+ String c EmptyString)
      else match punctuation c with
           | Some t => tokenize r EmptyString ≫= λ ts, flush cur (t :: ts)
           | None => None
           end
  end.

Fixpoint split_commas (ts : list Token) (cur : list Token) : list (list Token) :=
  match ts with
  | [] => [cur]
  | TComma :: r => cur :: split_commas r []
  | t :: r => split_commas r (cur ++ [t])%list
  end.

Inductive Piece :=
| PCompound (c : Compound)
| PCombinator (k : Combinator).

Definition emit (cur : Compound) (ps : list Piece) : list Piece :=
  match cur with
  | [] => ps
  | _ => PCompound cur :: ps
  end.

Definition is_not (name : string) : bool := bool_decide (name = "not").

Fixpoint pieces (ts : list Token) (cur : Compound) : option (list Piece) :=
  match ts with
  | [] => Some (emit cur [])
  | TSpace :: r => (λ ps, emit cur (PCombinator Descendant :: ps)) <$> pieces r []
  | TGt :: r => (λ ps, emit cur (PCombinator Child :: ps)) <$> pieces r []
  | TIdent x :: r =>
      match cur with
      | [] => pieces r [Pos (AType x)]
      | _ => None
      end
  | TStar :: r =>
      match cur with
      | [] => pieces r [Pos AUniversal]
      | _ => None
      end
  | TDot :: TIdent c :: r => pieces r (cur ++ [Pos (AClass c)])%list
  | TColon :: TIdent n :: TOpen :: TIdent x :: TClose :: r =>
      if is_not n then pieces r (cur ++ [Neg (AType x)])%list else None
  | TColon :: TIdent n :: TOpen :: TStar :: TClose :: r =>
      if is_not n then pieces r (cur ++ [Neg AUniversal])%list else None
  | TColon :: TIdent n :: TOpen :: TDot :: TIdent c :: TClose :: r =>
      if is_not n then pieces r (cur ++ [Neg (AClass c)])%list else None
  | _ => None
  end.

Fixpoint assemble (ps : list Piece) (acc : option Complex)
         (pending : option Combinator) : option Complex :=
  match ps with
  | [] =>
      match pending with
      | Some Child => None
      | _ => acc
      end
  | PCombinator Descendant :: r =>
      match acc with
      | None => assemble r None pending
      | Some _ =>
          assemble r acc (match pending with None => Some Descendant | p => p end)
      end
  | PCombinator Child :: r =>
      match acc, pending with
      | Some _, None | Some _, Some Descendant => assemble r acc (Some Child)
      | _, _ => None
      end
  | PCompound c :: r =>
      match acc, pending with
      | None, _ => assemble r (Some (mkComplex c [])) None
      | Some cx, Some k =>
          assemble r (Some (mkComplex c ((k, subject cx) :: context cx))) None
      | Some _, None => None
      end
  end.

Definition parse_complex (ts : list Token) : option Complex :=
  pieces ts [] ≫= λ ps, assemble ps None None.

Definition parse (selector : string) : option (list Complex) :=
  tokenize selector EmptyString ≫= λ ts, mapM parse_complex (split_commas ts []).

(** *** Matching *)

Definition matches_atom (el : Element) (a : Atom) : bool :=
  match a with
  | AType name =>
      bool_decide (JsString.toLowerCase name = JsString.toLowerCase (tagName el))
  | AUniversal => true
  | AClass c => Dom.contains_class el c
  end.

Definition matches_simple (el : Element) (s : Simple) : bool :=
  match s with
  | Pos a => matches_atom el a
  | Neg a => negb (matches_atom el a)
  end.

Definition matches_compound (el : Element) (c : Compound) : bool :=
  forallb (matches_simple el) c.

Definition compound_at (d : Document) (e : nat) (c : Compound) : bool :=
  match d !! e with
  | Some el => matches_compound el c
  | None => false
  end.

(** [anc] lists the proper ancestors of the element matched so far. *)
Fixpoint matches_context (d : Document) (ctx : list (Combinator * Compound))
         (anc : list nat) : bool :=
  match ctx with
  | [] => true
  | (k, c) :: ctx' =>
      (fix scan (anc : list nat) : bool :=
         match anc with
         | [] => false
         | p :: anc' =>
             (compound_at d p c && matches_context d ctx' anc') ||
             match k with
             | Descendant => scan anc'
             | Child => false
             end
         end) anc
  end.

Definition matches_complex (d : Document) (e : nat) (cx : Complex) : bool :=
  compound_at d e (subject cx) && matches_context d (context cx) (Dom.ancestors d e).

Definition matches (d : Document) (sl : list Complex) (e : nat) : bool :=
  existsb (matches_complex d e) sl.

(** [document.querySelectorAll(selector)]: the matching elements in tree
    order; [None] stands for the [SyntaxError]. *)
Definition querySelectorAll (d : Document) (selector : string) : option (list nat) :=
  parse selector ≫= λ sl, Some (List.filter (matches d sl) (seq 0 (length d))).

(** [document.querySelector(selector)] *)
Definition querySelector (d : Document) (selector : string) : option (option nat) :=
  head <$> querySelectorAll d selector.

(** [scope.querySelector(selector)]: the first match among the descendants
    of [scope]. *)
Definition querySelectorIn (d : Document) (scope : nat) (selector : string)
  : option (option nat) :=
  (λ l, head (List.filter (λ e, bool_decide (scope ∈ Dom.ancestors d e)) l))
    <$> querySelectorAll d selector.

(** [e.closest(selector)]: the nearest of [e] and its ancestors that
    matches. *)
Definition closest (d : Document) (e : nat) (selector : string) : option (option nat) :=
  parse selector ≫= λ sl, Some (List.find (matches d sl) (e :: Dom.ancestors d e)).

End Css.

(** ** Exceptions and loops *)

Inductive JsError := SyntaxError | TypeError.

Inductive Completion := Normal | Throw (err : JsError).

Section Loops.
Context {St A : Type}.

(** [l.forEach(body)] over a state [St]; an exception leaves the loop. *)
Fixpoint forEach (l : list A) (body : A → St → St * Completion) (s : St)
  : St * Completion :=
  match l with
  | [] => (s, Normal)
  | a :: r =>
      match body a s with
      | (s', Normal) => forEach r body s'
      | (s', Throw err) => (s', Throw err)
      end
  end.

(** [l.some(test)], where the test may throw ([None]). *)
Fixpoint some (l : list A) (test : A → option bool) : option bool :=
  match l with
  | [] => Some false
  | a :: r =>
      match test a with
      | None => None
      | Some true => Some true
      | Some false => some r test
      end
  end.
End Loops.

(** ** The page state seen by [ScrollAnimation] *)

(** An [IntersectionObserverEntry], as far as the callback reads it. *)
Record Entry := mkEntry {
  target : nat;
  isIntersecting : bool;
}.

(** The closures handed to [setTimeout]. *)
Inductive TimerTask := FallbackReveal.

(** The listeners installed by [handleDynamicContent] and [handleResize]. *)
Inductive Hook := MutationHook | ResizeHook.

Record State := mkState {
  document : Document;
  (** [this.observer] with its observation targets; [None] while undefined *)
  observer : option (list nat);
  (** pending [requestAnimationFrame] callbacks, each closed over its element *)
  frameRequests : list nat;
  (** timers requested through [setTimeout], with their delay in milliseconds *)
  timers : list (nat * TimerTask);
  hooks : list Hook;
  (** lines written by [console.warn] *)
  console : list string;
}.

Definition set_document (d : Document) (s : State) : State :=
  mkState d (observer s) (frameRequests s) (timers s) (hooks s) (console s).

Definition set_observer (o : option (list nat)) (s : State) : State :=
  mkState (document s) o (frameRequests s) (timers s) (hooks s) (console s).

Definition set_frameRequests (q : list nat) (s : State) : State :=
  mkState (document s) (observer s) q (timers s) (hooks s) (console s).

Definition set_timers (t : list (nat * TimerTask)) (s : State) : State :=
  mkState (document s) (observer s) (frameRequests s) t (hooks s) (console s).

Definition set_hooks (h : list Hook) (s : State) : State :=
  mkState (document s) (observer s) (frameRequests s) (timers s) h (console s).

Definition set_console (c : list string) (s : State) : State :=
  mkState (document s) (observer s) (frameRequests s) (timers s) (hooks s) c.

(** A freshly loaded page. *)
Definition page (d : Document) : State := mkState d None [] [] [] [].

(** The element is among the observer's targets. *)
Definition observed (s : State) (e : nat) : bool :=
  match observer s with
  | Some targets => bool_decide (e ∈ targets)
  | None => false
  end.

(** ** [class ScrollAnimation] *)

Module ScrollAnimation.

Definition animationClasses : list string :=
  ["fade-in-up"; "fade-in-down"; "fade-in-left"; "fade-in-right"; "scale-in"].

Definition targetElements : list string :=
  ["h1"; "h2"; "h3"; "h4"; "h5"; "h6";
   "p"; "span"; "div";
   "form"; "input"; "textarea"; "button";
   ".card"; ".service-card"; ".stat-card";
   ".contact__item"; ".about__text"; ".hero__text";
   ".footer__section:not(.footer__bottom)"; ".social-link";
   ".services-overview__title"; ".why-choose-services__title";
   ".service-process__title";
   ".cta__title"; ".services-hero__title"].

Definition excludedElements : list string :=
  [".footer__bottom";
   ".footer__bottom *";
   ".footer__copyright";
   ".footer__bottom-links";
   ".footer__bottom-content"].

Definition getRootMargin : string := "0px 0px -5% 0px".

Definition tagNameOf (d : Document) (element : nat) : string :=
  match d !! element with
  | Some el => tagName el
  | None => EmptyString
  end.

(** The test of one selector of a list against an element, shared by
    [shouldAnimateElement] (no wildcard branch) and [isElementExcluded]. *)
Definition namedBy (d : Document) (element : nat) (selector : string) : bool :=
  if JsString.startsWith selector "."
  then Dom.classList_contains d element (JsString.slice1 selector)
  else bool_decide (JsString.toLowerCase (tagNameOf d element)
                    = JsString.toLowerCase selector).

Definition shouldAnimateElement (d : Document) (element : nat) : bool :=
  existsb (namedBy d element) targetElements.

Definition excludedBy (d : Document) (element : nat) (selector : string)
  : option bool :=
  if JsString.includes selector "*" then
    let baseSelector := JsString.replace selector " *" "" in
    (λ found : option nat, bool_decide (found ≠ None))
      <$> Css.closest d element baseSelector
  else Some (namedBy d element selector).

Definition isElementExcluded (d : Document) (element : nat) : option bool :=
  some excludedElements (excludedBy d element).

(** *** [observeElements] *)

Definition hasAnimationClass (d : Document) (element : nat) : bool :=
  existsb (Dom.classList_contains d element) animationClasses.

(** The body of the inner [forEach]; the state is the document and the
    local array [elementsToAnimate]. *)
Definition scanElement (element : nat) (st : Document * list nat)
  : (Document * list nat) * Completion :=
  let '(d, elementsToAnimate) := st in
  if bool_decide (Dom.getAttribute d element "data-animated" = Some "true")
  then (st, Normal)
  else match isElementExcluded d element with
       | None => (st, Throw SyntaxError)
       | Some true => (st, Normal)
       | Some false =>
           let d' := if hasAnimationClass d element then d
                     else Dom.classList_add d element "fade-in-up" in
           ((d', (elementsToAnimate ++ [element])%list), Normal)
       end.

Definition scanSelector (selector : string) (st : Document * list nat)
  : (Document * list nat) * Completion :=
  match Css.querySelectorAll (fst st) selector with
  | None => (st, Throw SyntaxError)
  | Some elements => forEach elements scanElement st
  end.

(** [this.observer.observe(element)]: a target already observed is not
    added again. *)
Definition observe (element : nat) (s : State) : State * Completion :=
  match observer s with
  | None => (s, Throw TypeError)
  | Some targets =>
      (set_observer (Some (if bool_decide (element ∈ targets) then targets
                           else (targets ++ [element])%list)) s, Normal)
  end.

Definition observeElements (s : State) : State * Completion :=
  match forEach targetElements scanSelector (document s, []) with
  | ((d, elementsToAnimate), Normal) =>
      forEach elementsToAnimate observe (set_document d s)
  | ((d, _), Throw err) => (set_document d s, Throw err)
  end.

(** *** [handleIntersection] and its paint callback *)

Definition handleEntry (entry : Entry) (s : State) : State * Completion :=
  if isIntersecting entry
  then (set_frameRequests (frameRequests s ++ [target entry])%list s, Normal)
  else (s, Normal).

Definition handleIntersection (entries : list Entry) (s : State)
  : State * Completion :=
  forEach entries handleEntry s.

(** The callback passed to [requestAnimationFrame] for [element]. *)
Definition animate (element : nat) (s : State) : State * Completion :=
  let s1 := set_document (Dom.classList_add (document s) element "active") s in
  match observer s1 with
  | None => (s1, Throw TypeError)
  | Some targets =>
      let s2 := set_observer (Some (filter (λ t, t ≠ element) targets)) s1 in
      (set_document (Dom.setAttribute (document s2) element "data-animated" "true") s2,
       Normal)
  end.

(** The browser runs the pending paint callbacks in the order they were
    requested; an exception ends one callback, not the others. *)
Definition runAnimationFrame (s : State) : State :=
  fold_left (λ s element, fst (animate element s)) (frameRequests s)
            (set_frameRequests [] s).

(** *** Fallback *)

Definition warning : string :=
  "Intersection Observer not supported. Using fallback animation.".

Definition fallbackAnimation (s : State) : State :=
  set_timers (timers s ++ [(100, FallbackReveal)])%list
             (set_console (console s ++ [warning])%list s).

Definition revealElement (element : nat) (d : Document) : Document * Completion :=
  if negb (Dom.classList_contains d element "active")
  then (Dom.classList_add (Dom.classList_add d element "fade-in-up") element "active",
        Normal)
  else (d, Normal).

Definition revealSelector (selector : string) (d : Document) : Document * Completion :=
  match Css.querySelectorAll d selector with
  | None => (d, Throw SyntaxError)
  | Some elements => forEach elements revealElement d
  end.

(** The timer callback of [fallbackAnimation]. *)
Definition fallbackReveal (s : State) : State * Completion :=
  let '(d, c) := forEach targetElements revealSelector (document s) in
  (set_document d s, c).

Definition runTimer (task : TimerTask) (s : State) : State * Completion :=
  match task with
  | FallbackReveal => fallbackReveal s
  end.

(** *** [init] *)

Definition init (hasIntersectionObserver : bool) (s : State) : State * Completion :=
  if negb hasIntersectionObserver then (fallbackAnimation s, Normal)
  else
    match observeElements (set_observer (Some []) s) with
    | (s', Normal) => (set_hooks (hooks s' ++ [MutationHook; ResizeHook])%list s', Normal)
    | (s', Throw err) => (s', Throw err)
    end.

(** *** Public operations *)

Definition forceElement (element : nat) (d : Document) : Document * Completion :=
  if negb (Dom.classList_contains d element "active")
  then (Dom.setAttribute (Dom.classList_add d element "active")
                         element "data-animated" "true", Normal)
  else (d, Normal).

(** [triggerAnimation] is the one operation whose selector comes from the
    caller, who may write any selector the browser reads.  The call
    [document.querySelectorAll(selector)] is therefore a parameter:
    [engine d str] is the list it returns on the document [d], and [None]
    when it throws the [SyntaxError]. *)
Definition Engine : Type := Document → string → option (list nat).

(** The argument is a selector string or an element:
    [typeof selector === 'string' ? document.querySelectorAll(selector) : [selector]] *)
Definition selectedElementsWith (engine : Engine) (d : Document)
    (selector : string + nat) : option (list nat) :=
  match selector with
  | inl str => engine d str
  | inr element => Some [element]
  end.

Definition triggerAnimationWith (engine : Engine) (selector : string + nat) (s : State)
  : State * Completion :=
  match selectedElementsWith engine (document s) selector with
  | None => (s, Throw SyntaxError)
  | Some elements =>
      let '(d, c) := forEach elements forceElement (document s) in
      (set_document d s, c)
  end.

(** The same on the selectors [Css] reads. *)
Definition selectedElements (d : Document) (selector : string + nat) : option (list nat) :=
  selectedElementsWith Css.querySelectorAll d selector.

Definition triggerAnimation (selector : string + nat) (s : State) : State * Completion :=
  triggerAnimationWith Css.querySelectorAll selector s.

Definition clearElement (element : nat) (d : Document) : Document * Completion :=
  (Dom.removeAttribute (Dom.classList_remove d element "active")
                       element "data-animated", Normal).

Definition clearSelector (selector : string) (d : Document) : Document * Completion :=
  match Css.querySelectorAll d selector with
  | None => (d, Throw SyntaxError)
  | Some elements => forEach elements clearElement d
  end.

Definition resetAnimations (s : State) : State * Completion :=
  match forEach targetElements clearSelector (document s) with
  | (d, Normal) => observeElements (set_document d s)
  | (d, Throw err) => (set_document d s, Throw err)
  end.

End ScrollAnimation.

(** ** The mobile menu script *)

Module MobileMenu.

(** What the [DOMContentLoaded] handler captures when both elements exist. *)
Record Wiring := mkWiring {
  mobileMenuToggle : nat;
  navbar : nat;
  navLinks : list nat;
}.

Definition wire (d : Document) : option Wiring :=
  match Css.querySelector d ".mobile-menu-toggle", Css.querySelector d ".navbar" with
  | Some (Some toggle), Some (Some bar) =>
      match Css.querySelectorAll d ".navbar .nav-list a" with
      | Some links => Some (mkWiring toggle bar links)
      | None => None
      end
  | _, _ => None
  end.

(** [icon.className = glyph] for [icon = mobileMenuToggle.querySelector('i')];
    a missing icon makes the assignment throw. *)
Definition setIcon (w : Wiring) (glyph : string) (d : Document) : Document * Completion :=
  match Css.querySelectorIn d (mobileMenuToggle w) "i" with
  | Some (Some icon) => (Dom.setClassName d icon glyph, Normal)
  | Some None => (d, Throw TypeError)
  | None => (d, Throw SyntaxError)
  end.

(** The click listener of the toggle. *)
Definition onToggleClick (w : Wiring) (d : Document) : Document * Completion :=
  let d1 := Dom.classList_toggle d (navbar w) "active" in
  if Dom.classList_contains d1 (navbar w) "active"
  then setIcon w "ri-close-line" d1
  else setIcon w "ri-menu-line" d1.

(** The click listener of each navigation link. *)
Definition onLinkClick (w : Wiring) (d : Document) : Document * Completion :=
  setIcon w "ri-menu-line" (Dom.classList_remove d (navbar w) "active").

(** The click listener of the document. *)
Definition onDocumentClick (w : Wiring) (target : nat) (d : Document)
  : Document * Completion :=
  if negb (Dom.contains d (navbar w) target) &&
     negb (Dom.contains d (mobileMenuToggle w) target)
  then setIcon w "ri-menu-line" (Dom.classList_remove d (navbar w) "active")
  else (d, Normal).

(** The listeners of one element, in the order they were added. *)
Definition listenersAt (w : Wiring) (node : nat) (d : Document) : Document :=
  let d1 := if bool_decide (node = mobileMenuToggle w) then fst (onToggleClick w d) else d in
  if bool_decide (node ∈ navLinks w) then fst (onLinkClick w d1) else d1.

(** A click on [target] runs the listeners of the target and of its
    ancestors, innermost first, then the listener of the document; an
    exception ends one listener, not the dispatch. *)
Definition click (w : Wiring) (target : nat) (d : Document) : Document :=
  let path := target :: Dom.ancestors d target in
  fst (onDocumentClick w target (foldl (λ d node, listenersAt w node d) d path)).

Definition isOpen (w : Wiring) (d : Document) : bool :=
  Dom.classList_contains d (navbar w) "active".

End MobileMenu.

(** ** The scan-and-watch path as a transition system *)

(** What can happen to an initialised activator without the public
    operations: the observer reports entries, the browser paints, or one of
    the re-scan triggers (resize timer, mutation callback, visibility timer)
    calls [observeElements]. *)
Inductive Event :=
| Notify (entries : list Entry)
| Paint
| Rescan.

Definition step (s : State) (ev : Event) : State :=
  match ev with
  | Notify entries => fst (ScrollAnimation.handleIntersection entries s)
  | Paint => ScrollAnimation.runAnimationFrame s
  | Rescan => fst (ScrollAnimation.observeElements s)
  end.

(** The observer only reports on elements it is observing. *)
Definition deliverable (s : State) (ev : Event) : bool :=
  match ev with
  | Notify entries => forallb (λ en, observed s (target en)) entries
  | _ => true
  end.

Fixpoint run (s : State) (evs : list Event) : State :=
  match evs with
  | [] => s
  | ev :: r => run (step s ev) r
  end.

Fixpoint admissible (s : State) (evs : list Event) : bool :=
  match evs with
  | [] => true
  | ev :: r => deliverable s ev && admissible (step s ev) r
  end.

(** The states visited by a run, the starting state first. *)
Fixpoint visited (s : State) (evs : list Event) : list State :=
  s :: match evs with
       | [] => []
       | ev :: r => visited (step s ev) r
       end.

(** * Properties *)

(** ** Loops that do not throw *)

Section LoopFacts.
Context {St A : Type}.

(** A loop whose body completes normally on every state satisfying an
    invariant is a left fold. *)
Lemma forEach_fold (Inv : St → Prop) (body : A → St → St * Completion)
      (next : A → St → St) (l : list A) (s : St) :
  (∀ a s, a ∈ l → Inv s → body a s = (next a s, Normal) ∧ Inv (next a s)) →
  Inv s →
  forEach l body s = (foldl (λ s a, next a s) s l, Normal) ∧
  Inv (foldl (λ s a, next a s) s l).
Proof.
  revert s. induction l as [|a l IH]; intros s Hbody Hs; simpl.
  - done.
  - destruct (Hbody a s) as [-> Hn]; [left | done |].
    apply IH; [|done]. intros b s' Hb. apply Hbody. by right.
Qed.

Lemma forEach_fold_plain (body : A → St → St * Completion)
      (next : A → St → St) (l : list A) (s : St) :
  (∀ a s, body a s = (next a s, Normal)) →
  forEach l body s = (foldl (λ s a, next a s) s l, Normal).
Proof.
  intros Hbody.
  apply (forEach_fold (λ _, True) body next l s); [|done].
  intros a s' _ _. by rewrite Hbody.
Qed.

Lemma foldl_invariant {B : Type} (Inv : St → Prop) (f : St → B → St) (l : list B) (s : St) :
  (∀ s b, b ∈ l → Inv s → Inv (f s b)) → Inv s → Inv (foldl f s l).
Proof.
  revert s. induction l as [|b l IH]; intros s Hf Hs; simpl; [done|].
  apply IH.
  - intros s' b' Hb'. apply Hf. by right.
  - apply Hf; [left | done].
Qed.
End LoopFacts.

(** ** Elements and documents *)

Section DomFacts.
Implicit Types (d : Document) (el : Element) (e : nat) (c : string).

Lemma contains_class_spec el c : Dom.contains_class el c = true ↔ c ∈ classList el.
Proof. unfold Dom.contains_class. by rewrite bool_decide_eq_true. Qed.

Lemma contains_class_false el c : Dom.contains_class el c = false ↔ c ∉ classList el.
Proof. unfold Dom.contains_class. by rewrite bool_decide_eq_false. Qed.

Lemma add_class_elem c c' el :
  c' ∈ classList (Dom.add_class c el) ↔ c' = c ∨ c' ∈ classList el.
Proof.
  unfold Dom.add_class. destruct (Dom.contains_class el c) eqn:Hc; simpl.
  - apply contains_class_spec in Hc. split; [by right | by intros [->|]].
  - rewrite elem_of_app, list_elem_of_singleton. tauto.
Qed.

Lemma add_class_idem c el : Dom.add_class c (Dom.add_class c el) = Dom.add_class c el.
Proof.
  unfold Dom.add_class at 1.
  assert (Dom.contains_class (Dom.add_class c el) c = true) as ->; [|done].
  apply contains_class_spec, add_class_elem. by left.
Qed.

Lemma add_class_present c el : c ∈ classList el → Dom.add_class c el = el.
Proof. intros H. unfold Dom.add_class. by apply contains_class_spec in H as ->. Qed.

Lemma add_class_attributes c el : attributes (Dom.add_class c el) = attributes el.
Proof. unfold Dom.add_class. by destruct (Dom.contains_class el c). Qed.

Lemma add_class_tagName c el : tagName (Dom.add_class c el) = tagName el.
Proof. unfold Dom.add_class. by destruct (Dom.contains_class el c). Qed.

Lemma add_class_parentNode c el : parentNode (Dom.add_class c el) = parentNode el.
Proof. unfold Dom.add_class. by destruct (Dom.contains_class el c). Qed.

Lemma remove_class_elem c c' el :
  c' ∈ classList (Dom.remove_class c el) ↔ c' ≠ c ∧ c' ∈ classList el.
Proof. unfold Dom.remove_class; simpl. by rewrite list_elem_of_filter. Qed.

Lemma classList_contains_spec d e c :
  Dom.classList_contains d e c = true ↔ ∃ el, d !! e = Some el ∧ c ∈ classList el.
Proof.
  unfold Dom.classList_contains. destruct (d !! e) as [el|].
  - rewrite contains_class_spec. split; [by exists el | by intros (?&[= ->]&?)].
  - split; [done | by intros (?&?&?)].
Qed.

(** Repeating an idempotent change of single elements over a list of
    elements changes exactly the listed ones, once. *)
Lemma foldl_alter_lookup (f : Element → Element) (l : list nat) d e :
  (∀ el, f (f el) = f el) →
  foldl (λ d e, alter f e d) d l !! e
  = if bool_decide (e ∈ l) then f <$> d !! e else d !! e.
Proof.
  intros Hf. revert d. induction l as [|a l IH]; intros d; [done|].
  cbn [foldl fold_left]. rewrite IH. rewrite list_lookup_alter.
  destruct (decide (a = e)) as [->|Hne].
  - rewrite (bool_decide_eq_true_2 (e ∈ e :: l)); [|left].
    case_bool_decide; [|done].
    destruct (d !! e); simpl; [|done]. by rewrite Hf.
  - case_bool_decide as H1; case_bool_decide as H2; try done.
    + exfalso. apply H2. by right.
    + exfalso. apply elem_of_cons in H2 as [->|]; done.
Qed.

Lemma foldl_alter_length (f : Element → Element) (l : list nat) d :
  length (foldl (λ d e, alter f e d) d l) = length d.
Proof.
  revert d. induction l as [|a l IH]; intros d; [done|].
  cbn [foldl fold_left]. by rewrite IH, length_alter.
Qed.
End DomFacts.

(** ** Documents that differ only in the classes the activator writes *)

(** The activator adds and removes the classes [fade-in-up] and [active] and
    the marker attribute, nothing else.  Two documents are [similar] when
    they have the same elements with the same tags, parents and classes
    other than those two. *)
Definition volatile : list string := ["fade-in-up"; "active"].

Definition el_sim (a b : Element) : Prop :=
  tagName a = tagName b ∧ parentNode a = parentNode b ∧
  ∀ c, c ∉ volatile → (c ∈ classList a ↔ c ∈ classList b).

Definition similar (d d' : Document) : Prop := Forall2 el_sim d d'.

Module CssFacts.
Import Css.

Definition atom_classes (a : Atom) : list string :=
  match a with
  | AClass c => [c]
  | _ => []
  end.

Definition simple_classes (s : Simple) : list string :=
  match s with
  | Pos a | Neg a => atom_classes a
  end.

Definition compound_classes (c : Compound) : list string :=
  concat (map simple_classes c).

Definition complex_classes (cx : Complex) : list string :=
  (compound_classes (subject cx) ++
   concat (map (λ kc, compound_classes (snd kc)) (context cx)))%list.

Definition selector_classes (sl : list Complex) : list string :=
  concat (map complex_classes sl).

(** The selector reads none of the volatile classes. *)
Definition quiet (selector : string) : bool :=
  match parse selector with
  | Some sl => forallb (λ c, negb (bool_decide (c ∈ volatile))) (selector_classes sl)
  | None => false
  end.

End CssFacts.

Section Similar.
Import Css CssFacts.
Implicit Types (d : Document) (e : nat).

Lemma el_sim_refl a : el_sim a a.
Proof. by repeat split. Qed.

Lemma el_sim_sym a b : el_sim a b → el_sim b a.
Proof. intros (?&?&H). repeat split; try done; by apply H. Qed.

Lemma el_sim_trans a b c : el_sim a b → el_sim b c → el_sim a c.
Proof.
  intros (?&?&H1) (?&?&H2). repeat split; try congruence.
  - intros ?. by apply H2, H1.
  - intros ?. by apply H1, H2.
Qed.

Lemma similar_refl d : similar d d.
Proof. apply Forall2_same_length_lookup. split; [done|]. intros i x y ? ?. simplify_eq. apply el_sim_refl. Qed.

Lemma similar_sym d d' : similar d d' → similar d' d.
Proof.
  intros H. apply Forall2_flip. eapply Forall2_impl; [exact H|].
  intros. by apply el_sim_sym.
Qed.

Lemma similar_trans d1 d2 d3 : similar d1 d2 → similar d2 d3 → similar d1 d3.
Proof.
  intros [L1 H1]%Forall2_same_length_lookup [L2 H2]%Forall2_same_length_lookup.
  apply Forall2_same_length_lookup. split; [congruence|].
  intros i x z Hx Hz.
  destruct (lookup_lt_is_Some_2 d2 i) as [y Hy].
  { rewrite <- L1. by eapply lookup_lt_Some. }
  eapply el_sim_trans; eauto.
Qed.

Lemma similar_length d d' : similar d d' → length d = length d'.
Proof. apply Forall2_length. Qed.

Lemma similar_alter (f : Element → Element) d e :
  (∀ el, el_sim el (f el)) → similar d (alter f e d).
Proof.
  intros Hf. apply Forall2_same_length_lookup. split.
  - by rewrite length_alter.
  - intros i x y Hx Hy. rewrite list_lookup_alter in Hy.
    destruct (decide (e = i)) as [->|].
    + rewrite Hx in Hy. simpl in Hy. simplify_eq. apply Hf.
    + simplify_eq. apply el_sim_refl.
Qed.

Lemma el_sim_add_class c el : c ∈ volatile → el_sim el (Dom.add_class c el).
Proof.
  intros Hc. repeat split.
  - by rewrite add_class_tagName.
  - by rewrite add_class_parentNode.
  - intros ?. apply add_class_elem. by right.
  - intros [->|]%add_class_elem; done.
Qed.

Lemma el_sim_remove_class c el : c ∈ volatile → el_sim el (Dom.remove_class c el).
Proof.
  intros Hc. repeat split.
  - intros ?. apply remove_class_elem. split; [|done]. by intros ->.
  - by intros [_ ?]%remove_class_elem.
Qed.

Lemma el_sim_set_attribute k v el : el_sim el (Dom.set_attribute k v el).
Proof. by repeat split. Qed.

Lemma el_sim_remove_attribute k el : el_sim el (Dom.remove_attribute k el).
Proof. by repeat split. Qed.

Lemma similar_lookup d d' e el :
  similar d d' → d !! e = Some el → ∃ el', d' !! e = Some el' ∧ el_sim el el'.
Proof. intros H. by apply Forall2_lookup_l. Qed.

Lemma similar_lookup_None d d' e : similar d d' → d !! e = None → d' !! e = None.
Proof.
  intros H. rewrite !lookup_ge_None. by rewrite (similar_length _ _ H).
Qed.

Lemma similar_parent d d' e :
  similar d d' → d !! e ≫= parentNode = d' !! e ≫= parentNode.
Proof.
  intros H. destruct (d !! e) as [el|] eqn:He.
  - destruct (similar_lookup _ _ _ _ H He) as (el'&->&_&Hp&_). done.
  - by rewrite (similar_lookup_None _ _ _ H He).
Qed.

Lemma similar_ancestors d d' e : similar d d' → Dom.ancestors d e = Dom.ancestors d' e.
Proof.
  intros H. unfold Dom.ancestors. rewrite <- (similar_length _ _ H).
  generalize (length d) as fuel. intros fuel. revert e.
  induction fuel as [|f IH]; intros e; simpl; [done|].
  rewrite <- (similar_parent _ _ _ H).
  destruct (d !! e ≫= parentNode); [|done]. by rewrite IH.
Qed.

Lemma similar_tagNameOf d d' e :
  similar d d' → ScrollAnimation.tagNameOf d e = ScrollAnimation.tagNameOf d' e.
Proof.
  intros H. unfold ScrollAnimation.tagNameOf. destruct (d !! e) as [el|] eqn:He.
  - by destruct (similar_lookup _ _ _ _ H He) as (el'&->&?&_).
  - by rewrite (similar_lookup_None _ _ _ H He).
Qed.

Lemma similar_classList_contains d d' e c :
  similar d d' → c ∉ volatile →
  Dom.classList_contains d e c = Dom.classList_contains d' e c.
Proof.
  intros H Hc. unfold Dom.classList_contains. destruct (d !! e) as [el|] eqn:He.
  - destruct (similar_lookup _ _ _ _ H He) as (el'&->&_&_&Hcl).
    unfold Dom.contains_class. apply bool_decide_ext. by apply Hcl.
  - by rewrite (similar_lookup_None _ _ _ H He).
Qed.

Lemma el_sim_atom a el el' :
  el_sim el el' → Forall (λ c, c ∉ volatile) (atom_classes a) →
  matches_atom el a = matches_atom el' a.
Proof.
  intros (Ht&_&Hc) Hq. destruct a as [name| |c]; simpl; [by rewrite Ht|done|].
  apply Forall_cons in Hq as [Hq _].
  unfold Dom.contains_class. apply bool_decide_ext. by apply Hc.
Qed.

Lemma el_sim_compound c el el' :
  el_sim el el' → Forall (λ c, c ∉ volatile) (compound_classes c) →
  matches_compound el c = matches_compound el' c.
Proof.
  intros Hs. unfold matches_compound, compound_classes.
  induction c as [|s c IH]; simpl; [done|].
  rewrite Forall_app. intros [H1 H2]. rewrite IH by done. f_equal.
  destruct s as [a|a]; simpl in *; by rewrite (el_sim_atom a el el').
Qed.

Lemma similar_compound_at d d' e c :
  similar d d' → Forall (λ c, c ∉ volatile) (compound_classes c) →
  compound_at d e c = compound_at d' e c.
Proof.
  intros H Hq. unfold compound_at. destruct (d !! e) as [el|] eqn:He.
  - destruct (similar_lookup _ _ _ _ H He) as (el'&->&Hs).
    by apply el_sim_compound.
  - by rewrite (similar_lookup_None _ _ _ H He).
Qed.

Lemma similar_context d d' ctx anc :
  similar d d' →
  Forall (λ c, c ∉ volatile) (concat (map (λ kc, compound_classes (snd kc)) ctx)) →
  matches_context d ctx anc = matches_context d' ctx anc.
Proof.
  intros H. revert anc. induction ctx as [|[k c] ctx IH]; intros anc Hq; simpl; [done|].
  simpl in Hq. apply Forall_app in Hq as [Hc Hq].
  induction anc as [|p anc IHanc]; [done|].
  rewrite (similar_compound_at d d' p c) by done.
  rewrite (IH anc) by done. by rewrite IHanc.
Qed.

Lemma similar_complex d d' e cx :
  similar d d' → Forall (λ c, c ∉ volatile) (complex_classes cx) →
  matches_complex d e cx = matches_complex d' e cx.
Proof.
  intros H Hq. unfold matches_complex, complex_classes in *.
  apply Forall_app in Hq as [H1 H2].
  rewrite (similar_compound_at d d') by done.
  rewrite (similar_context d d') by done.
  by rewrite (similar_ancestors d d').
Qed.

Lemma similar_matches d d' sl e :
  similar d d' → Forall (λ c, c ∉ volatile) (selector_classes sl) →
  matches d sl e = matches d' sl e.
Proof.
  intros H. unfold matches, selector_classes.
  induction sl as [|cx sl IH]; simpl; [done|].
  rewrite Forall_app. intros [H1 H2].
  by rewrite (similar_complex d d'), IH.
Qed.

Lemma quiet_spec selector :
  quiet selector = true →
  ∃ sl, parse selector = Some sl ∧ Forall (λ c, c ∉ volatile) (selector_classes sl).
Proof.
  unfold quiet. destruct (parse selector) as [sl|]; [|done].
  intros Hq. exists sl. split; [done|].
  apply Forall_forall. intros c Hc.
  rewrite forallb_forall in Hq. specialize (Hq c).
  rewrite <- list_elem_of_In in Hq. specialize (Hq Hc).
  by apply negb_true_iff, bool_decide_eq_false in Hq.
Qed.

Lemma similar_querySelectorAll d d' selector :
  similar d d' → quiet selector = true →
  querySelectorAll d selector = querySelectorAll d' selector.
Proof.
  intros H (sl&Hp&Hq)%quiet_spec. unfold querySelectorAll. rewrite Hp. simpl.
  rewrite <- (similar_length _ _ H). f_equal.
  apply List.filter_ext. intros e. by apply similar_matches.
Qed.

Lemma similar_closest d d' e selector :
  similar d d' → quiet selector = true →
  closest d e selector = closest d' e selector.
Proof.
  intros H (sl&Hp&Hq)%quiet_spec. unfold closest. rewrite Hp. simpl.
  rewrite <- (similar_ancestors _ _ _ H).
  assert (∀ l, List.find (matches d sl) l = List.find (matches d' sl) l) as Hfind.
  { intros l. induction l as [|a l IH]; simpl; [done|].
    by rewrite (similar_matches d d'), IH. }
  by rewrite Hfind, (similar_matches d d').
Qed.
End Similar.

(** ** The selector tables *)

Section Tables.
Import ScrollAnimation CssFacts.
Implicit Types (d : Document) (e : nat).

(** What an exclusion selector reads, following the branches of
    [excludedBy]. *)
Definition exclusion_quiet (selector : string) : bool :=
  if JsString.includes selector "*" then quiet (JsString.replace selector " *" "")
  else if JsString.startsWith selector "."
       then negb (bool_decide (JsString.slice1 selector ∈ volatile))
       else true.

Lemma targetElements_quiet : forallb quiet targetElements = true.
Proof. vm_compute. reflexivity. Qed.

Lemma excludedElements_quiet : forallb exclusion_quiet excludedElements = true.
Proof. vm_compute. reflexivity. Qed.

Lemma similar_namedBy d d' e selector :
  similar d d' →
  (if JsString.startsWith selector "."
   then negb (bool_decide (JsString.slice1 selector ∈ volatile)) else true) = true →
  namedBy d e selector = namedBy d' e selector.
Proof.
  intros H Hq. unfold namedBy. destruct (JsString.startsWith selector ".").
  - apply similar_classList_contains; [done|].
    by apply negb_true_iff, bool_decide_eq_false in Hq.
  - by rewrite (similar_tagNameOf d d').
Qed.

Lemma similar_excludedBy d d' e selector :
  similar d d' → exclusion_quiet selector = true →
  excludedBy d e selector = excludedBy d' e selector.
Proof.
  intros H Hq. unfold excludedBy, exclusion_quiet in *.
  destruct (JsString.includes selector "*").
  - by rewrite (similar_closest d d').
  - f_equal. by apply similar_namedBy.
Qed.

Lemma excludedBy_total d e selector :
  exclusion_quiet selector = true → is_Some (excludedBy d e selector).
Proof.
  unfold excludedBy, exclusion_quiet. destruct (JsString.includes selector "*"); [|by eexists].
  intros (sl&Hp&_)%quiet_spec. unfold Css.closest. rewrite Hp. simpl. by eexists.
Qed.

Lemma some_excludedBy_similar d d' e (selectors : list string) :
  similar d d' → forallb exclusion_quiet selectors = true →
  some selectors (excludedBy d e) = some selectors (excludedBy d' e).
Proof.
  intros H. induction selectors as [|sel r IH]; simpl; [done|].
  intros [Hq Hr]%andb_true_iff.
  rewrite (similar_excludedBy d d') by done.
  destruct (excludedBy d' e sel) as [[|]|]; auto.
Qed.

Lemma some_excludedBy_total d e (selectors : list string) :
  forallb exclusion_quiet selectors = true → is_Some (some selectors (excludedBy d e)).
Proof.
  induction selectors as [|sel r IH]; simpl; [by eexists|].
  intros [Hq Hr]%andb_true_iff.
  destruct (excludedBy_total d e sel Hq) as [[|] ->]; [by eexists | auto].
Qed.

Lemma similar_isElementExcluded d d' e :
  similar d d' → isElementExcluded d e = isElementExcluded d' e.
Proof. intros H. apply some_excludedBy_similar; [done | apply excludedElements_quiet]. Qed.

(** On the shipped exclusion list the test never throws. *)
Definition excluded d e : bool := bool_decide (isElementExcluded d e = Some true).

Lemma isElementExcluded_excluded d e : isElementExcluded d e = Some (excluded d e).
Proof.
  unfold excluded.
  destruct (some_excludedBy_total d e excludedElements excludedElements_quiet) as [b Hb].
  unfold isElementExcluded. rewrite Hb. by destruct b.
Qed.

Lemma similar_excluded d d' e : similar d d' → excluded d e = excluded d' e.
Proof. intros H. unfold excluded. by rewrite (similar_isElementExcluded d d'). Qed.

(** The elements met by a scan over a selector list, in the order met,
    with repetition. *)
Definition matchedBy (selectors : list string) d : list nat :=
  concat (map (λ sel, default [] (Css.querySelectorAll d sel)) selectors).

Definition matched d : list nat := matchedBy targetElements d.

Lemma similar_matchedBy selectors d d' :
  similar d d' → forallb quiet selectors = true →
  matchedBy selectors d = matchedBy selectors d'.
Proof.
  intros H. unfold matchedBy. induction selectors as [|sel r IH]; simpl; [done|].
  intros [Hq Hr]%andb_true_iff.
  by rewrite (similar_querySelectorAll d d'), IH.
Qed.

Lemma similar_matched d d' : similar d d' → matched d = matched d'.
Proof. intros H. apply similar_matchedBy; [done | apply targetElements_quiet]. Qed.

Lemma querySelectorAll_bound d selector els e :
  Css.querySelectorAll d selector = Some els → e ∈ els → e < length d.
Proof.
  unfold Css.querySelectorAll. destruct (Css.parse selector); [|done].
  simpl. intros [= <-]. rewrite list_elem_of_In, filter_In, in_seq. lia.
Qed.

(** An element is matched when some selector of the list selects it. *)
Lemma elem_of_matchedBy selectors d e :
  e ∈ matchedBy selectors d ↔
  ∃ sel els, sel ∈ selectors ∧ Css.querySelectorAll d sel = Some els ∧ e ∈ els.
Proof.
  unfold matchedBy. induction selectors as [|sel r IH]; simpl.
  - split; [by intros ?%elem_of_nil | by intros (?&?&?%elem_of_nil&_)].
  - rewrite elem_of_app, IH. split.
    + intros [He|(sel'&els&?&?&?)].
      * destruct (Css.querySelectorAll d sel) as [els|] eqn:Hq; simpl in He.
        -- exists sel, els. split; [left | done].
        -- by apply elem_of_nil in He.
      * exists sel', els. split; [by right | done].
    + intros (sel'&els&[->|Hin]%elem_of_cons&Hq&He).
      * left. by rewrite Hq.
      * right. by exists sel', els.
Qed.

Lemma matchedBy_bound selectors d e : e ∈ matchedBy selectors d → e < length d.
Proof.
  intros (sel&els&_&Hq&He)%elem_of_matchedBy. by eapply querySelectorAll_bound.
Qed.
End Tables.

(** ** What one scan does *)

Section Scan.
Import ScrollAnimation.
Implicit Types (d : Document) (e : nat) (s : State).

(** The marker attribute is set. *)
Definition marked d e : bool :=
  bool_decide (Dom.getAttribute d e "data-animated" = Some "true").

(** The activation class is present. *)
Definition active d e : bool := Dom.classList_contains d e "active".

(** The element passes both guards of the scan. *)
Definition watchable d e : bool := negb (marked d e) && negb (excluded d e).

Definition ensureAnimation (el : Element) : Element :=
  if existsb (Dom.contains_class el) animationClasses then el
  else Dom.add_class "fade-in-up" el.

(** The effect of the inner loop body on the document. *)
Definition touch d e : Document :=
  if watchable d e then alter ensureAnimation e d else d.

Definition addTarget (targets : list nat) (e : nat) : list nat :=
  if bool_decide (e ∈ targets) then targets else (targets ++ [e])%list.

(** Similar documents with the same attributes. *)
Definition akin d d' : Prop := similar d d' ∧ attributes <$> d = attributes <$> d'.

Lemma akin_refl d : akin d d.
Proof. split; [apply similar_refl | done]. Qed.

Lemma akin_trans d1 d2 d3 : akin d1 d2 → akin d2 d3 → akin d1 d3.
Proof. intros [? ?] [? ?]. split; [by eapply similar_trans | congruence]. Qed.

Lemma akin_sym d d' : akin d d' → akin d' d.
Proof. intros [? ?]. split; [by apply similar_sym | done]. Qed.

Lemma akin_getAttribute d d' e k :
  akin d d' → Dom.getAttribute d e k = Dom.getAttribute d' e k.
Proof.
  intros [_ H]. unfold Dom.getAttribute.
  assert ((attributes <$> d) !! e = (attributes <$> d') !! e) as He by by rewrite H.
  rewrite !list_lookup_fmap in He.
  destruct (d !! e), (d' !! e); simpl in *; congruence.
Qed.

Lemma akin_marked d d' e : akin d d' → marked d e = marked d' e.
Proof. intros H. unfold marked. by rewrite (akin_getAttribute d d'). Qed.

Lemma akin_watchable d d' e : akin d d' → watchable d e = watchable d' e.
Proof.
  intros H. unfold watchable.
  by rewrite (akin_marked d d'), (similar_excluded d d') by (done || apply H).
Qed.

Lemma akin_alter (f : Element → Element) d e :
  (∀ el, el_sim el (f el)) → (∀ el, attributes (f el) = attributes el) →
  akin d (alter f e d).
Proof.
  intros Hs Ha. split; [by apply similar_alter|].
  apply list_eq. intros i. rewrite !list_lookup_fmap, list_lookup_alter.
  destruct (decide (e = i)) as [->|]; [|done].
  destruct (d !! i); simpl; [|done]. by rewrite Ha.
Qed.

Lemma el_sim_ensureAnimation el : el_sim el (ensureAnimation el).
Proof.
  unfold ensureAnimation. destruct (existsb _ _); [apply el_sim_refl|].
  apply el_sim_add_class. left.
Qed.

Lemma ensureAnimation_attributes el : attributes (ensureAnimation el) = attributes el.
Proof.
  unfold ensureAnimation. destruct (existsb _ _); [done|]. apply add_class_attributes.
Qed.

Lemma ensureAnimation_has el :
  existsb (Dom.contains_class (ensureAnimation el)) animationClasses = true.
Proof.
  unfold ensureAnimation.
  destruct (existsb (Dom.contains_class el) animationClasses) eqn:H; [done|].
  apply existsb_exists. exists "fade-in-up". split; [by left|].
  apply contains_class_spec, add_class_elem. by left.
Qed.

Lemma ensureAnimation_idem el : ensureAnimation (ensureAnimation el) = ensureAnimation el.
Proof. unfold ensureAnimation at 1. by rewrite ensureAnimation_has. Qed.

Lemma akin_touch d e : akin d (touch d e).
Proof.
  unfold touch. destruct (watchable d e); [|apply akin_refl].
  apply akin_alter; [apply el_sim_ensureAnimation | apply ensureAnimation_attributes].
Qed.

Lemma akin_foldl_touch d l : akin d (foldl touch d l).
Proof.
  apply (foldl_invariant (akin d)); [|apply akin_refl].
  intros d' e _ H. eapply akin_trans; [exact H | apply akin_touch].
Qed.

Lemma alter_fixed (f : Element → Element) d e :
  (∀ el, d !! e = Some el → f el = el) → alter f e d = d.
Proof.
  intros H. apply list_eq. intros i. rewrite list_lookup_alter.
  destruct (decide (e = i)) as [->|]; [|done].
  destruct (d !! i) eqn:Hi; simpl; [|done]. by rewrite H.
Qed.

Lemma hasAnimationClass_lookup d e el :
  d !! e = Some el →
  hasAnimationClass d e = existsb (Dom.contains_class el) animationClasses.
Proof. intros H. unfold hasAnimationClass, Dom.classList_contains. by rewrite H. Qed.

Lemma scanElement_eq e d acc :
  scanElement e (d, acc)
  = ((touch d e, if watchable d e then (acc ++ [e])%list else acc), Normal).
Proof.
  unfold scanElement, touch, watchable. fold (marked d e).
  rewrite isElementExcluded_excluded.
  destruct (marked d e); simpl; [done|].
  destruct (excluded d e); simpl; [done|].
  do 2 f_equal. f_equal.
  destruct (d !! e) as [el|] eqn:He.
  - rewrite (hasAnimationClass_lookup d e el He).
    destruct (existsb _ _) eqn:Hh.
    + symmetry. apply alter_fixed. intros el' ?. simplify_eq.
      unfold ensureAnimation. by rewrite Hh.
    + unfold Dom.classList_add. apply list_alter_ext; [|done].
      intros el' ?. simplify_eq. unfold ensureAnimation. by rewrite Hh.
  - rewrite alter_fixed by (intros; congruence).
    destruct (hasAnimationClass d e); [done|].
    unfold Dom.classList_add. apply alter_fixed. intros; congruence.
Qed.

Lemma scanElements_eq els d acc :
  forEach els scanElement (d, acc)
  = ((foldl touch d els, (acc ++ List.filter (watchable d) els)%list), Normal).
Proof.
  revert d acc. induction els as [|e els IH]; intros d acc; cbn [forEach].
  - simpl. by rewrite app_nil_r.
  - rewrite scanElement_eq, IH. cbn [foldl fold_left List.filter].
    assert (Heq : ∀ x, watchable (touch d e) x = watchable d x).
    { intros x. symmetry. apply akin_watchable, akin_touch. }
    rewrite (List.filter_ext _ _ Heq).
    destruct (watchable d e); [|done]. by rewrite <- app_assoc.
Qed.

Lemma scanSelectors_eq (selectors : list string) d acc :
  forallb CssFacts.quiet selectors = true →
  forEach selectors scanSelector (d, acc)
  = ((foldl touch d (matchedBy selectors d),
      (acc ++ List.filter (watchable d) (matchedBy selectors d))%list), Normal).
Proof.
  revert d acc. induction selectors as [|sel r IH]; intros d acc; cbn [forEach forallb].
  - intros _. simpl. by rewrite app_nil_r.
  - intros [Hq Hr]%andb_true_iff. unfold scanSelector at 1. cbn [fst].
    destruct (quiet_spec sel Hq) as (sl&Hp&_).
    assert (∃ els, Css.querySelectorAll d sel = Some els) as [els Hels].
    { unfold Css.querySelectorAll. rewrite Hp. by eexists. }
    rewrite Hels, scanElements_eq, IH by done.
    pose proof (akin_foldl_touch d els) as Hk.
    unfold matchedBy at 3 4. simpl. rewrite Hels. simpl.
    fold (matchedBy r d).
    rewrite <- (similar_matchedBy r d (foldl touch d els)) by (done || apply Hk).
    rewrite foldl_app, List.filter_app, app_assoc.
    do 3 f_equal. apply List.filter_ext. intros x. symmetry. by apply akin_watchable.
Qed.

Lemma set_observer_set_observer o o' s :
  set_observer o (set_observer o' s) = set_observer o s.
Proof. done. Qed.

Lemma set_observer_id s : set_observer (observer s) s = s.
Proof. by destruct s. Qed.

Lemma set_document_id s : set_document (document s) s = s.
Proof. by destruct s. Qed.

Lemma observeAll_eq els s targets :
  observer s = Some targets →
  forEach els observe s = (set_observer (Some (foldl addTarget targets els)) s, Normal).
Proof.
  revert s targets. induction els as [|e els IH]; intros s targets Ho; simpl.
  - by rewrite <- Ho, set_observer_id.
  - unfold observe at 1. rewrite Ho.
    erewrite IH by done. by rewrite set_observer_set_observer.
Qed.

Lemma observeAll_undefined els s :
  observer s = None →
  forEach els observe s = (s, match els with [] => Normal | _ => Throw TypeError end).
Proof. intros Ho. destruct els as [|e els]; simpl; [done|]. unfold observe. by rewrite Ho. Qed.

(** [observeElements] in closed form. *)
Definition scanned d : Document := foldl touch d (matched d).

Definition wanted d : list nat := List.filter (watchable d) (matched d).

Lemma observeElements_eq s :
  observeElements s =
  match observer s with
  | Some targets =>
      (set_observer (Some (foldl addTarget targets (wanted (document s))))
                    (set_document (scanned (document s)) s), Normal)
  | None =>
      (set_document (scanned (document s)) s,
       match wanted (document s) with [] => Normal | _ => Throw TypeError end)
  end.
Proof.
  unfold observeElements. rewrite scanSelectors_eq by apply targetElements_quiet.
  simpl. fold (matched (document s)). fold (scanned (document s)) (wanted (document s)).
  destruct (observer s) as [targets|] eqn:Ho.
  - by apply observeAll_eq.
  - by apply observeAll_undefined.
Qed.
End Scan.

Section ScanFacts.
Import ScrollAnimation.
Implicit Types (d : Document) (e : nat) (s : State).

Lemma foldl_touch_alter d0 l d :
  akin d0 d →
  foldl touch d l
  = foldl (λ d e, alter ensureAnimation e d) d (List.filter (watchable d0) l).
Proof.
  revert d. induction l as [|e l IH]; intros d Hk; [done|].
  cbn [foldl fold_left List.filter].
  rewrite IH by (eapply akin_trans; [exact Hk | apply akin_touch]).
  unfold touch. rewrite <- (akin_watchable d0 d) by done.
  by destruct (watchable d0 e).
Qed.

Lemma scanned_lookup d e :
  scanned d !! e
  = if bool_decide (e ∈ wanted d) then ensureAnimation <$> d !! e else d !! e.
Proof.
  unfold scanned. rewrite (foldl_touch_alter d) by apply akin_refl.
  apply foldl_alter_lookup, ensureAnimation_idem.
Qed.

Lemma scanned_length d : length (scanned d) = length d.
Proof.
  unfold scanned. rewrite (foldl_touch_alter d) by apply akin_refl.
  apply foldl_alter_length.
Qed.

Lemma akin_scanned d : akin d (scanned d).
Proof. apply akin_foldl_touch. Qed.

Lemma elem_of_wanted d e : e ∈ wanted d ↔ e ∈ matched d ∧ watchable d e = true.
Proof. unfold wanted. by rewrite list_elem_of_In, filter_In, <- list_elem_of_In. Qed.

Lemma wanted_scanned d : wanted (scanned d) = wanted d.
Proof.
  unfold wanted. rewrite <- (similar_matched d (scanned d)) by apply akin_scanned.
  apply List.filter_ext. intros e. symmetry. apply akin_watchable, akin_scanned.
Qed.

(** A second scan finds every element already carrying an animation
    class. *)
Lemma scanned_scanned d : scanned (scanned d) = scanned d.
Proof.
  apply list_eq. intros e. rewrite scanned_lookup, wanted_scanned.
  case_bool_decide as He; [|done].
  rewrite scanned_lookup. rewrite bool_decide_eq_true_2 by done.
  destruct (d !! e); simpl; [|done]. by rewrite ensureAnimation_idem.
Qed.

Lemma scanned_classes d e el :
  d !! e = Some el →
  ∃ el', scanned d !! e = Some el' ∧ attributes el' = attributes el ∧
         ∀ c, c ∈ classList el' ↔ c ∈ classList el ∨
                                  (c = "fade-in-up" ∧ el' ≠ el).
Proof.
  intros He. rewrite scanned_lookup, He. case_bool_decide; simpl.
  - eexists. split; [done|]. split; [apply ensureAnimation_attributes|].
    intros c. unfold ensureAnimation.
    destruct (existsb (Dom.contains_class el) animationClasses) eqn:Hh.
    + split; [by left | by intros [?|[_ ?]]].
    + rewrite add_class_elem. split; [|intros [?|[? _]]; [by right | by left]].
      intros [->|]; [|by left]. right. split; [done|].
      intros Heq.
      assert (existsb (Dom.contains_class el) animationClasses = true); [|congruence].
      apply existsb_exists. exists "fade-in-up". split; [by left|].
      apply contains_class_spec. rewrite <- Heq. apply add_class_elem. by left.
  - exists el. split; [done|]. split; [done|].
    intros c. split; [by left | by intros [?|[_ ?]]].
Qed.

(** *** The observer's target list *)

Lemma elem_of_addTarget targets e x : x ∈ addTarget targets e ↔ x = e ∨ x ∈ targets.
Proof.
  unfold addTarget. case_bool_decide.
  - split; [by right | by intros [->|?]].
  - rewrite elem_of_app, list_elem_of_singleton. tauto.
Qed.

Lemma elem_of_addTargets targets l x :
  x ∈ foldl addTarget targets l ↔ x ∈ targets ∨ x ∈ l.
Proof.
  revert targets. induction l as [|e l IH]; intros targets; cbn [foldl fold_left].
  - rewrite elem_of_nil. tauto.
  - rewrite IH, elem_of_addTarget, elem_of_cons. tauto.
Qed.

Lemma NoDup_addTarget targets e : NoDup targets → NoDup (addTarget targets e).
Proof.
  intros H. unfold addTarget. case_bool_decide; [done|].
  apply NoDup_app. split; [done|]. split; [|apply NoDup_singleton].
  intros x Hx ->%list_elem_of_singleton. done.
Qed.

Lemma NoDup_addTargets targets l : NoDup targets → NoDup (foldl addTarget targets l).
Proof.
  intros H. apply (foldl_invariant (λ t, NoDup t)); [|done].
  intros t e _. apply NoDup_addTarget.
Qed.

Lemma addTargets_present targets l :
  (∀ x, x ∈ l → x ∈ targets) → foldl addTarget targets l = targets.
Proof.
  intros H. apply (foldl_invariant (λ t, t = targets)); [|done].
  intros t e He ->. unfold addTarget. by rewrite bool_decide_eq_true_2 by auto.
Qed.

Lemma addTargets_idem targets l :
  foldl addTarget (foldl addTarget targets l) l = foldl addTarget targets l.
Proof. apply addTargets_present. intros x Hx. apply elem_of_addTargets. by right. Qed.

(** *** Effect of a scan on the state *)

Lemma observeElements_document s :
  document (fst (observeElements s)) = scanned (document s).
Proof. rewrite observeElements_eq. by destruct (observer s). Qed.

Lemma observeElements_frameRequests s :
  frameRequests (fst (observeElements s)) = frameRequests s.
Proof. rewrite observeElements_eq. by destruct (observer s). Qed.

Lemma observeElements_observer s :
  observer (fst (observeElements s))
  = (λ targets, foldl addTarget targets (wanted (document s))) <$> observer s.
Proof. rewrite observeElements_eq. by destruct (observer s) eqn:Ho; simpl; rewrite ?Ho. Qed.

Lemma observeElements_observed s e :
  observed (fst (observeElements s)) e
  = match observer s with
    | Some _ => observed s e || bool_decide (e ∈ wanted (document s))
    | None => false
    end.
Proof.
  unfold observed. rewrite observeElements_observer.
  destruct (observer s) as [targets|]; simpl; [|done].
  apply eq_true_iff_eq.
  rewrite orb_true_iff, !bool_decide_eq_true. apply elem_of_addTargets.
Qed.
End ScanFacts.

(** ** What a notification and a paint do *)

Section PaintFacts.
Import ScrollAnimation.
Implicit Types (d : Document) (e : nat) (s : State).

Definition intersecting (entries : list Entry) : list nat :=
  target <$> List.filter isIntersecting entries.

Lemma handleIntersection_eq entries s :
  handleIntersection entries s
  = (set_frameRequests (frameRequests s ++ intersecting entries) s, Normal).
Proof.
  unfold handleIntersection, intersecting.
  revert s. induction entries as [|en r IH]; intros s; cbn [forEach List.filter].
  - simpl. rewrite app_nil_r. by destruct s.
  - unfold handleEntry at 1. destruct (isIntersecting en).
    + rewrite IH. simpl. by rewrite <- app_assoc.
    + by rewrite IH.
Qed.

Lemma elem_of_intersecting entries e :
  e ∈ intersecting entries ↔ ∃ en, en ∈ entries ∧ isIntersecting en = true ∧ target en = e.
Proof.
  unfold intersecting. rewrite list_elem_of_fmap. split.
  - intros (en&->&Hen). exists en.
    apply list_elem_of_In, filter_In in Hen as [Hin ?]. by rewrite list_elem_of_In.
  - intros (en&Hin&?&<-). exists en. split; [done|].
    apply list_elem_of_In, filter_In. by rewrite <- list_elem_of_In.
Qed.

(** The change the paint callback makes to its element. *)
Definition activate (el : Element) : Element :=
  Dom.set_attribute "data-animated" "true" (Dom.add_class "active" el).

Definition unobserveAll (targets : list nat) (l : list nat) : list nat :=
  foldl (λ t e, filter (λ x, x ≠ e) t) targets l.

Lemma activate_idem el : activate (activate el) = activate el.
Proof.
  unfold activate.
  rewrite (add_class_present "active" (Dom.set_attribute _ _ _)).
  - unfold Dom.set_attribute; simpl. by rewrite insert_insert_eq.
  - simpl. apply add_class_elem. by left.
Qed.

Lemma el_sim_activate el : el_sim el (activate el).
Proof.
  eapply el_sim_trans; [apply (el_sim_add_class "active")|apply el_sim_set_attribute].
  right. left.
Qed.

Lemma elem_of_unobserveAll targets l x :
  x ∈ unobserveAll targets l ↔ x ∈ targets ∧ x ∉ l.
Proof.
  unfold unobserveAll. revert targets.
  induction l as [|e l IH]; intros targets; cbn [foldl fold_left].
  - rewrite elem_of_nil. tauto.
  - rewrite IH, list_elem_of_filter, not_elem_of_cons. tauto.
Qed.

Lemma NoDup_unobserveAll targets l : NoDup targets → NoDup (unobserveAll targets l).
Proof.
  intros H. apply (foldl_invariant (λ t, NoDup t)); [|done].
  intros t e _. apply NoDup_filter.
Qed.

Lemma animate_eq e s :
  animate e s =
  match observer s with
  | Some targets =>
      (mkState (alter activate e (document s)) (Some (filter (λ x, x ≠ e) targets))
               (frameRequests s) (timers s) (hooks s) (console s), Normal)
  | None =>
      (set_document (alter (Dom.add_class "active") e (document s)) s, Throw TypeError)
  end.
Proof.
  unfold animate. simpl. destruct (observer s) as [targets|]; [|done].
  unfold set_document, set_observer; simpl. f_equal. f_equal.
  unfold Dom.setAttribute, Dom.classList_add, activate.
  by rewrite list_alter_alter_eq.
Qed.

Lemma paint_fold_defined l s targets :
  observer s = Some targets →
  fold_left (λ s e, fst (animate e s)) l s
  = mkState (foldl (λ d e, alter activate e d) (document s) l)
            (Some (unobserveAll targets l))
            (frameRequests s) (timers s) (hooks s) (console s).
Proof.
  revert s targets. induction l as [|e l IH]; intros s targets Ho; cbn [fold_left foldl].
  - unfold unobserveAll. cbn [foldl fold_left]. rewrite <- Ho. by destruct s.
  - rewrite animate_eq, Ho. cbn [fst]. by erewrite IH.
Qed.

Lemma paint_fold_undefined l s :
  observer s = None →
  fold_left (λ s e, fst (animate e s)) l s
  = set_document (foldl (λ d e, alter (Dom.add_class "active") e d) (document s) l) s.
Proof.
  revert s. induction l as [|e l IH]; intros s Ho; cbn [fold_left foldl].
  - by destruct s.
  - rewrite animate_eq, Ho. cbn [fst]. by rewrite IH.
Qed.

(** [runAnimationFrame] in closed form. *)
Lemma runAnimationFrame_eq s :
  runAnimationFrame s =
  match observer s with
  | Some targets =>
      mkState (foldl (λ d e, alter activate e d) (document s) (frameRequests s))
              (Some (unobserveAll targets (frameRequests s)))
              [] (timers s) (hooks s) (console s)
  | None =>
      mkState (foldl (λ d e, alter (Dom.add_class "active") e d) (document s)
                     (frameRequests s))
              None [] (timers s) (hooks s) (console s)
  end.
Proof.
  unfold runAnimationFrame. destruct (observer s) as [targets|] eqn:Ho.
  - by rewrite (paint_fold_defined _ _ targets).
  - rewrite paint_fold_undefined by done. unfold set_document; simpl. by rewrite Ho.
Qed.

(** The change a paint makes to an element with a pending callback. *)
Definition painted s (el : Element) : Element :=
  match observer s with
  | Some _ => activate el
  | None => Dom.add_class "active" el
  end.

Lemma runAnimationFrame_lookup s e :
  document (runAnimationFrame s) !! e
  = if bool_decide (e ∈ frameRequests s) then painted s <$> document s !! e
    else document s !! e.
Proof.
  rewrite runAnimationFrame_eq. unfold painted.
  destruct (observer s); simpl; apply foldl_alter_lookup;
    [apply activate_idem | apply add_class_idem].
Qed.

Lemma runAnimationFrame_frameRequests s : frameRequests (runAnimationFrame s) = [].
Proof. rewrite runAnimationFrame_eq. by destruct (observer s). Qed.

Lemma runAnimationFrame_observer s :
  observer (runAnimationFrame s)
  = (λ targets, unobserveAll targets (frameRequests s)) <$> observer s.
Proof. rewrite runAnimationFrame_eq. by destruct (observer s). Qed.

Lemma runAnimationFrame_observed s e :
  observed (runAnimationFrame s) e
  = observed s e && negb (bool_decide (e ∈ frameRequests s)).
Proof.
  unfold observed. rewrite runAnimationFrame_observer.
  destruct (observer s) as [targets|]; simpl; [|done].
  apply eq_true_iff_eq.
  rewrite andb_true_iff, negb_true_iff, bool_decide_eq_false, !bool_decide_eq_true.
  apply elem_of_unobserveAll.
Qed.

Lemma similar_runAnimationFrame s : similar (document s) (document (runAnimationFrame s)).
Proof.
  rewrite runAnimationFrame_eq.
  destruct (observer s); simpl;
    apply (foldl_invariant (similar (document s))); try apply similar_refl;
    intros d e _ H; (eapply similar_trans; [exact H|]); apply similar_alter; intros el.
  - apply el_sim_activate.
  - apply el_sim_add_class. right. left.
Qed.

Lemma painted_classes s el c :
  c ∈ classList (painted s el) ↔ c = "active" ∨ c ∈ classList el.
Proof.
  unfold painted, activate. destruct (observer s); simpl; apply add_class_elem.
Qed.

Lemma painted_marker s el :
  attributes el !! "data-animated" = Some "true" →
  attributes (painted s el) !! "data-animated" = Some "true".
Proof.
  unfold painted, activate. destruct (observer s); simpl.
  - intros _. apply lookup_insert_eq.
  - by rewrite add_class_attributes.
Qed.
End PaintFacts.

(** ** Runs of the scan-and-watch path *)

Section Runs.
Import ScrollAnimation.
Implicit Types (d : Document) (e : nat) (s : State) (ev : Event) (evs : list Event).

Definition activeIn e s : bool := active (document s) e.
Definition markedIn e s : bool := marked (document s) e.

(** How often a flag goes from unset to set along a list of states. *)
Fixpoint rises (flag : State → bool) (states : list State) : nat :=
  match states with
  | a :: (b :: _) as rest =>
      (if negb (flag a) && flag b then 1 else 0) + rises flag rest
  | _ => 0
  end.

(** The element is activated and released: class and marker are set, the
    observer does not watch it and no paint callback is pending for it. *)
Definition settledAt e s : Prop :=
  activeIn e s = true ∧ markedIn e s = true ∧
  observed s e = false ∧ e ∉ frameRequests s.

(** A paint callback for the element is pending. *)
Definition pendingAt e s : Prop :=
  e ∈ frameRequests s ∧ is_Some (observer s) ∧ e < length (document s).

Lemma run_app s evs evs' : run s (evs ++ evs') = run (run s evs) evs'.
Proof. revert s. induction evs as [|ev r IH]; intros s; simpl; [done|]. apply IH. Qed.

Lemma admissible_app s evs evs' :
  admissible s (evs ++ evs') = admissible s evs && admissible (run s evs) evs'.
Proof.
  revert s. induction evs as [|ev r IH]; intros s; simpl; [done|].
  by rewrite IH, andb_assoc.
Qed.

Lemma active_spec d e :
  active d e = true ↔ ∃ el, d !! e = Some el ∧ "active" ∈ classList el.
Proof. apply classList_contains_spec. Qed.

Lemma marked_spec d e :
  marked d e = true ↔
  ∃ el, d !! e = Some el ∧ attributes el !! "data-animated" = Some "true".
Proof.
  unfold marked, Dom.getAttribute. rewrite bool_decide_eq_true.
  destruct (d !! e) as [el|]; simpl.
  - split; [by exists el | by intros (?&[= ->]&?)].
  - split; [done | by intros (?&?&?)].
Qed.

Lemma step_length s ev : length (document (step s ev)) = length (document s).
Proof.
  destruct ev as [entries| |]; simpl.
  - by rewrite handleIntersection_eq.
  - rewrite runAnimationFrame_eq. destruct (observer s); simpl; apply foldl_alter_length.
  - rewrite observeElements_document. apply scanned_length.
Qed.

(** No step of the path takes the activation class or the marker away. *)
Lemma step_lookup s ev e el :
  document s !! e = Some el →
  ∃ el', document (step s ev) !! e = Some el' ∧
         ("active" ∈ classList el → "active" ∈ classList el') ∧
         (attributes el !! "data-animated" = Some "true" →
          attributes el' !! "data-animated" = Some "true").
Proof.
  intros He. destruct ev as [entries| |]; simpl.
  - rewrite handleIntersection_eq. simpl. by exists el.
  - rewrite runAnimationFrame_lookup, He. case_bool_decide; simpl.
    + eexists. split; [done|]. split.
      * intros ?. apply painted_classes. by right.
      * apply painted_marker.
    + by exists el.
  - rewrite observeElements_document.
    destruct (scanned_classes _ _ _ He) as (el'&->&Ha&Hc).
    exists el'. split; [done|]. split.
    + intros ?. apply Hc. by left.
    + by rewrite Ha.
Qed.

Lemma step_active s ev e : activeIn e s = true → activeIn e (step s ev) = true.
Proof.
  unfold activeIn. rewrite !active_spec. intros (el&He&Ha).
  destruct (step_lookup s ev e el He) as (el'&?&?&_). exists el'. auto.
Qed.

Lemma step_marked s ev e : markedIn e s = true → markedIn e (step s ev) = true.
Proof.
  unfold markedIn. rewrite !marked_spec. intros (el&He&Ha).
  destruct (step_lookup s ev e el He) as (el'&?&_&?). exists el'. auto.
Qed.

Lemma rises_set (flag : State → bool) s evs :
  (∀ s ev, flag s = true → flag (step s ev) = true) →
  flag s = true → rises flag (visited s evs) = 0.
Proof.
  intros Hmono. revert s. induction evs as [|ev r IH]; intros s Hs; [done|].
  cbn [visited]. destruct r as [|ev' r']; cbn [visited rises] in *.
  - by rewrite Hs.
  - rewrite Hs. simpl. apply (IH (step s ev)). by apply Hmono.
Qed.

(** A flag that is never unset is set at most once, and exactly once when
    it starts unset and ends set. *)
Lemma rises_once (flag : State → bool) s evs :
  (∀ s ev, flag s = true → flag (step s ev) = true) →
  (rises flag (visited s evs) ≤ 1)%nat ∧
  (flag s = false → flag (run s evs) = true → rises flag (visited s evs) = 1).
Proof.
  intros Hmono. revert s. induction evs as [|ev r IH]; intros s.
  - simpl. split; [lia | congruence].
  - destruct (flag s) eqn:Hs.
    { rewrite rises_set by done. split; [lia | done]. }
    assert (rises flag (visited s (ev :: r))
            = (if flag (step s ev) then 1 else 0) + rises flag (visited (step s ev) r)) as ->.
    { cbn [visited]. destruct r; cbn [visited rises]; by rewrite Hs. }
    destruct (flag (step s ev)) eqn:Hs'.
    + rewrite rises_set by done. split; [lia | done].
    + destruct (IH (step s ev)) as [IH1 IH2]. simpl. split; [done|].
      intros _ Hend. by apply IH2.
Qed.

Lemma deliverable_observed s entries e :
  deliverable s (Notify entries) = true → e ∈ intersecting entries → observed s e = true.
Proof.
  simpl. rewrite forallb_forall.
  intros Hd (en&Hin&_&<-)%elem_of_intersecting.
  apply Hd. by apply list_elem_of_In.
Qed.

Lemma observed_is_Some s e : observed s e = true → is_Some (observer s).
Proof. unfold observed. destruct (observer s); [by eexists | done]. Qed.

Lemma step_observer_Some s ev : is_Some (observer s) → is_Some (observer (step s ev)).
Proof.
  intros [targets Ho]. destruct ev as [entries| |]; simpl.
  - rewrite handleIntersection_eq. simpl. by rewrite Ho.
  - rewrite runAnimationFrame_observer, Ho. by eexists.
  - rewrite observeElements_observer, Ho. by eexists.
Qed.

Lemma step_settled s ev e :
  deliverable s ev = true → settledAt e s → settledAt e (step s ev).
Proof.
  intros Hd (Ha&Hm&Ho&Hq). split; [by apply step_active|]. split; [by apply step_marked|].
  destruct ev as [entries| |]; simpl.
  - rewrite handleIntersection_eq. simpl. split; [done|].
    rewrite elem_of_app. intros [?|Hin]; [done|].
    by rewrite (deliverable_observed s entries e Hd Hin) in Ho.
  - rewrite runAnimationFrame_observed, runAnimationFrame_frameRequests, Ho.
    split; [done | apply not_elem_of_nil].
  - rewrite observeElements_observed, observeElements_frameRequests, Ho.
    split; [|done]. destruct (observer s); [|done]. simpl.
    apply bool_decide_eq_false. intros [_ Hw]%elem_of_wanted.
    unfold watchable in Hw. unfold markedIn in Hm. by rewrite Hm in Hw.
Qed.

Lemma step_pending s ev e :
  ev ≠ Paint → pendingAt e s → pendingAt e (step s ev).
Proof.
  intros Hev (Hq&Ho&Hl). split; [|split].
  - destruct ev as [entries| |]; simpl; [| done |].
    + rewrite handleIntersection_eq. simpl. apply elem_of_app. by left.
    + by rewrite observeElements_frameRequests.
  - by apply step_observer_Some.
  - by rewrite step_length.
Qed.

Lemma paint_pending s e : pendingAt e s → settledAt e (step s Paint).
Proof.
  intros (Hq&[targets Ho]&Hl). simpl.
  destruct (lookup_lt_is_Some_2 _ _ Hl) as [el He].
  assert (document (runAnimationFrame s) !! e = Some (activate el)) as He'.
  { rewrite runAnimationFrame_lookup, bool_decide_eq_true_2, He by done.
    unfold painted. by rewrite Ho. }
  repeat split.
  - apply active_spec. exists (activate el). split; [done|].
    simpl. apply add_class_elem. by left.
  - apply marked_spec. exists (activate el). split; [done|].
    simpl. apply lookup_insert_eq.
  - rewrite runAnimationFrame_observed, (bool_decide_eq_true_2 _ Hq). apply andb_false_r.
  - rewrite runAnimationFrame_frameRequests. apply not_elem_of_nil.
Qed.

Lemma notify_pending s entries e :
  deliverable s (Notify entries) = true → e < length (document s) →
  e ∈ intersecting entries → pendingAt e (step s (Notify entries)).
Proof.
  intros Hd Hl Hin. simpl. rewrite handleIntersection_eq. simpl. split; [|split].
  - apply elem_of_app. by right.
  - eapply observed_is_Some, deliverable_observed; eauto.
  - done.
Qed.

Lemma step_progress s ev e :
  deliverable s ev = true →
  pendingAt e s ∨ settledAt e s → pendingAt e (step s ev) ∨ settledAt e (step s ev).
Proof.
  intros Hd [Hp|Hs].
  - destruct ev as [entries| |].
    + left. by apply step_pending.
    + right. by apply paint_pending.
    + left. by apply step_pending.
  - right. by apply step_settled.
Qed.

Lemma run_progress s evs e :
  admissible s evs = true →
  pendingAt e s ∨ settledAt e s → pendingAt e (run s evs) ∨ settledAt e (run s evs).
Proof.
  revert s. induction evs as [|ev r IH]; intros s; simpl; [done|].
  intros [Hd Hr]%andb_true_iff H. apply IH; [done|]. by apply step_progress.
Qed.

Lemma run_settled s evs e :
  admissible s evs = true → settledAt e s → settledAt e (run s evs).
Proof.
  revert s. induction evs as [|ev r IH]; intros s; simpl; [done|].
  intros [Hd Hr]%andb_true_iff H. apply IH; [done|]. by apply step_settled.
Qed.

Lemma run_length s evs : length (document (run s evs)) = length (document s).
Proof.
  revert s. induction evs as [|ev r IH]; intros s; simpl; [done|].
  by rewrite IH, step_length.
Qed.
End Runs.

(** ** A sample page *)

Module Sample.

Definition element (tag : string) (classes : list string) (parent : option nat)
  : Element :=
  mkElement tag classes ∅ parent.

(** [<body> <div class="card"/> <div class="footer__bottom"><p/></div>
    <span class="footer__copyright"/> <section class="footer__section"/>
    <footer class="footer__bottom-links"/> </body>] *)
Definition document : Document :=
  [ element "BODY" [] None;
    element "DIV" ["card"] (Some 0);
    element "DIV" ["footer__bottom"] (Some 0);
    element "P" [] (Some 2);
    element "SPAN" ["footer__copyright"] (Some 0);
    element "SECTION" ["footer__section"] (Some 0);
    element "FOOTER" ["footer__bottom-links"] (Some 0) ].

(** [<body> <div class="active"> <div> <div/> </div> </div> </body>] *)
Definition nested : Document :=
  [ element "BODY" [] None;
    element "DIV" ["active"] (Some 0);
    element "DIV" [] (Some 1);
    element "DIV" [] (Some 2) ].

(** [<body> <header class="navbar"> <ul class="nav-list"><a/></ul>
      <button class="mobile-menu-toggle"><i class="ri-menu-line"/></button>
    </header> <main/> </body>] *)
Definition menu : Document :=
  [ element "BODY" [] None;
    element "HEADER" ["navbar"] (Some 0);
    element "UL" ["nav-list"] (Some 1);
    element "A" [] (Some 2);
    element "BUTTON" ["mobile-menu-toggle"] (Some 1);
    element "I" ["ri-menu-line"] (Some 4);
    element "MAIN" [] (Some 0) ].

(** The page after [init] in a browser with [IntersectionObserver]. *)
Definition watching : State := fst (ScrollAnimation.init true (page document)).

(** The page after [init] in a browser without it. *)
Definition degraded : State := fst (ScrollAnimation.init false (page document)).

End Sample.

(** ** Activation happens once *)

Section ActivationOnce.
Import ScrollAnimation.

(** C1. An element of the page that the observer reports as intersecting
    is activated by the next paint and settled from then on: along the
    whole run its activation class is set at most once and its marker is
    set at most once (exactly once if it started without them), after that
    paint it carries both, is no longer observed and has no pending paint
    callback, and no later notification of the observer concerns it. *)
Theorem activation_exactly_once (s : State) (pre mid post : list Event)
        (entries : list Entry) (e : nat) :
  e < length (document s) →
  admissible s (pre ++ Notify entries :: mid ++ Paint :: post) = true →
  mkEntry e true ∈ entries →
  let evs := (pre ++ Notify entries :: mid ++ Paint :: post)%list in
  (rises (activeIn e) (visited s evs) ≤ 1)%nat ∧
  (rises (markedIn e) (visited s evs) ≤ 1)%nat ∧
  (activeIn e s = false → rises (activeIn e) (visited s evs) = 1) ∧
  (markedIn e s = false → rises (markedIn e) (visited s evs) = 1) ∧
  (∀ post1 post2, post = (post1 ++ post2)%list →
     settledAt e (run s (pre ++ Notify entries :: mid ++ Paint :: post1))) ∧
  (∀ post1 entries' post2 entry,
     post = (post1 ++ Notify entries' :: post2)%list →
     entry ∈ entries' → target entry ≠ e).
Proof.
  intros Hl Hadm Hin evs.
  assert (Hsplit : ∀ tail, run s (pre ++ Notify entries :: mid ++ Paint :: tail)
                   = run (step (run (step (run s pre) (Notify entries)) mid) Paint) tail).
  { intros tail. rewrite run_app. cbn [run]. by rewrite run_app. }
  rewrite admissible_app in Hadm. apply andb_true_iff in Hadm as [_ Hadm].
  cbn [admissible] in Hadm. apply andb_true_iff in Hadm as [Hnotify Hadm].
  rewrite admissible_app in Hadm. apply andb_true_iff in Hadm as [Hmid Hadm].
  cbn [admissible] in Hadm. apply andb_true_iff in Hadm as [Hpaint Hpost].
  set (s1 := run s pre) in *. set (s2 := step s1 (Notify entries)) in *.
  set (s3 := run s2 mid) in *. set (s4 := step s3 Paint) in *.
  assert (pendingAt e s2) as Hpend.
  { apply notify_pending; [done | unfold s1; by rewrite run_length |].
    apply elem_of_intersecting. by exists (mkEntry e true). }
  assert (settledAt e s4) as Hset.
  { destruct (run_progress s2 mid e Hmid (or_introl Hpend)) as [Hp|Hs].
    - by apply paint_pending.
    - by apply step_settled. }
  assert (Hlater : ∀ post1 post2, post = (post1 ++ post2)%list →
                   admissible s4 post1 = true ∧ settledAt e (run s4 post1)).
  { intros post1 post2 ->. rewrite admissible_app in Hpost.
    apply andb_true_iff in Hpost as [Hp1 _]. split; [done|]. by apply run_settled. }
  assert (settledAt e (run s evs)) as (Hact&Hmark&_).
  { unfold evs. rewrite Hsplit. apply (Hlater post []). by rewrite app_nil_r. }
  destruct (rises_once (activeIn e) s evs (λ s ev, step_active s ev e)) as [Ha1 Ha2].
  destruct (rises_once (markedIn e) s evs (λ s ev, step_marked s ev e)) as [Hm1 Hm2].
  split; [done|]. split; [done|]. split; [auto|]. split; [auto|]. split.
  - intros post1 post2 Hpost1. rewrite Hsplit. by apply (Hlater post1 post2).
  - intros post1 entries' post2 entry -> Hentry Heq.
    destruct (Hlater post1 (Notify entries' :: post2) eq_refl) as [_ (_&_&Hobs&_)].
    rewrite admissible_app in Hpost. apply andb_true_iff in Hpost as [_ Hpost].
    cbn [admissible] in Hpost. apply andb_true_iff in Hpost as [Hd _].
    simpl in Hd. rewrite forallb_forall in Hd.
    specialize (Hd entry). rewrite <- list_elem_of_In in Hd.
    rewrite Heq in Hd. by rewrite (Hd Hentry) in Hobs.
Qed.

(** On the sample page the card is reported while it is being watched,
    painted, reported absent from later notifications and re-scanned. *)
Lemma activation_exactly_once_witness :
  let evs := [Rescan; Notify [mkEntry 1 true; mkEntry 5 false]; Rescan; Paint;
              Rescan; Notify [mkEntry 5 true]; Paint] in
  (rises (activeIn 1) (visited Sample.watching evs) = 1) ∧
  (rises (markedIn 1) (visited Sample.watching evs) = 1) ∧
  settledAt 1 (run Sample.watching evs).
Proof.
  intros evs.
  destruct (activation_exactly_once Sample.watching [Rescan] [Rescan]
              [Rescan; Notify [mkEntry 5 true]; Paint]
              [mkEntry 1 true; mkEntry 5 false] 1) as (_&_&Ha&Hm&Hs&_).
  - vm_compute. lia.
  - vm_compute. reflexivity.
  - left.
  - split; [apply Ha; vm_compute; reflexivity|].
    split; [apply Hm; vm_compute; reflexivity|].
    apply (Hs [Rescan; Notify [mkEntry 5 true]; Paint] []). reflexivity.
Defined.
End ActivationOnce.


(** ** When the observer lets go of an element *)

Section Unwatch.
Import ScrollAnimation.

(** C2 as stated: when [handleIntersection] returns, the elements it decided
    to activate are no longer observed. *)
Definition unwatch_is_synchronous : Prop :=
  ∀ (s : State) (entries : list Entry) (e : nat),
    e ∈ intersecting entries →
    observed (fst (handleIntersection entries s)) e = false.

(** C2, counterexample.  On the sample page the card is observed; after the
    callback has handled its entry and returned, the card is still observed,
    and only a paint callback has been requested. *)
Lemma unwatch_is_synchronous_fails :
  let s' := fst (handleIntersection [mkEntry 1 true] Sample.watching) in
  1 ∈ intersecting [mkEntry 1 true] ∧
  observed Sample.watching 1 = true ∧
  observed s' 1 = true ∧ frameRequests s' = [1] ∧
  ¬ unwatch_is_synchronous.
Proof.
  assert (H1 : 1 ∈ intersecting [mkEntry 1 true]) by (vm_compute; left).
  repeat split; try done.
  intros H. specialize (H Sample.watching [mkEntry 1 true] 1 H1).
  vm_compute in H. discriminate.
Qed.

(** C2, amended.  The viewport-entry callback changes neither the document
    nor the observed set: it only requests one paint callback per
    intersecting entry.  The paint callback then adds the activation class,
    removes the element from the observed set and sets the marker, in that
    order, so the unwatch is deferred together with the mutation. *)
Theorem unwatch_deferred_to_paint (s : State) (entries : list Entry) (e : nat) :
  let s' := fst (handleIntersection entries s) in
  let s'' := fst (animate e s) in
  document s' = document s ∧ observer s' = observer s ∧
  frameRequests s' = (frameRequests s ++ intersecting entries)%list ∧
  snd (handleIntersection entries s) = Normal ∧
  observer s'' = filter (λ x, x ≠ e) <$> observer s ∧
  observed s'' e = false ∧
  frameRequests s'' = frameRequests s ∧
  document s'' =
    match observer s with
    | Some _ => Dom.setAttribute (Dom.classList_add (document s) e "active")
                                 e "data-animated" "true"
    | None => Dom.classList_add (document s) e "active"
    end.
Proof.
  simpl. rewrite handleIntersection_eq. simpl.
  repeat (split; [done|]).
  unfold animate, observed. simpl.
  destruct (observer s) as [targets|] eqn:Ho; simpl; rewrite ?Ho; repeat split; try done.
  apply bool_decide_eq_false. rewrite list_elem_of_filter. tauto.
Qed.
End Unwatch.

(** ** Exclusion *)

Section Exclusion.
Import ScrollAnimation.
Implicit Types (d : Document) (e : nat) (s : State).

(** The reading of an exclusion selector given in the specification. *)
Definition hasClass d e (c : string) : Prop :=
  ∃ el, d !! e = Some el ∧ c ∈ classList el.

Definition isType d e (name : string) : Prop :=
  ∃ el, d !! e = Some el ∧ JsString.toLowerCase (tagName el) = JsString.toLowerCase name.

(** A class selector means "has this class", a bare name "is this element
    type". *)
Definition selects d (selector : string) e : Prop :=
  match selector with
  | String "."%char c => hasClass d e c
  | _ => isType d e selector
  end.

(** The base selector of a selector with the wildcard suffix. *)
Fixpoint wildcardBase (selector : string) : option string :=
  match selector with
  | EmptyString => None
  | String " "%char (String "*"%char EmptyString) => Some EmptyString
  | String c r => String c <$> wildcardBase r
  end.

(** With a wildcard suffix: the element is the base-selector element or one
    of its descendants. *)
Definition matchesExclusion d e (selector : string) : Prop :=
  match wildcardBase selector with
  | Some base => ∃ a, (a = e ∨ a ∈ Dom.ancestors d e) ∧ selects d base a
  | None => selects d selector e
  end.

Definition specExcluded d e : Prop :=
  ∃ selector, selector ∈ excludedElements ∧ matchesExclusion d e selector.

Lemma some_true {A : Type} (l : list A) (test : A → option bool) :
  (∀ x, x ∈ l → is_Some (test x)) →
  some l test = Some true ↔ ∃ x, x ∈ l ∧ test x = Some true.
Proof.
  induction l as [|a l IH]; intros Htot; simpl.
  - split; [done | by intros (?&?%elem_of_nil&_)].
  - destruct (Htot a) as [b Hb]; [left|]. rewrite Hb. destruct b.
    + split; [|done]. intros _. exists a. split; [left | done].
    + rewrite IH by (intros; apply Htot; by right). split.
      * intros (x&?&?). exists x. split; [by right | done].
      * intros (x&[->|?]%elem_of_cons&Hx); [congruence|]. by exists x.
Qed.

Lemma closest_class d e (c : string) (selector : string) :
  Css.parse selector = Some [Css.mkComplex [Css.Pos (Css.AClass c)] []] →
  Css.closest d e selector
  = Some (List.find (λ a, Dom.classList_contains d a c) (e :: Dom.ancestors d e)).
Proof.
  intros Hp. unfold Css.closest. rewrite Hp. cbn [mbind option_bind]. f_equal.
  generalize (e :: Dom.ancestors d e). intros l.
  induction l as [|a l IH]; [done|]. cbn [List.find]. rewrite IH.
  assert (Css.matches d [Css.mkComplex [Css.Pos (Css.AClass c)] []] a
          = Dom.classList_contains d a c) as ->; [|done].
  unfold Css.matches, Css.matches_complex, Css.compound_at, Dom.classList_contains.
  simpl. destruct (d !! a); simpl; [|done].
  by rewrite !andb_true_r, orb_false_r.
Qed.

Lemma find_is_Some {A : Type} (test : A → bool) (l : list A) :
  List.find test l ≠ None ↔ ∃ x, x ∈ l ∧ test x = true.
Proof.
  induction l as [|a l IH]; simpl.
  - split; [done | by intros (?&?%elem_of_nil&_)].
  - destruct (test a) eqn:Ha.
    + split; [|done]. intros _. exists a. split; [left | done].
    + rewrite IH. split.
      * intros (x&?&?). exists x. split; [by right | done].
      * intros (x&[->|?]%elem_of_cons&Hx); [congruence|]. by exists x.
Qed.

(** On the shipped exclusion list, [isElementExcluded] computes the reading
    of the specification. *)
Lemma excludedBy_refines d e selector :
  selector ∈ excludedElements →
  excludedBy d e selector = Some true ↔ matchesExclusion d e selector.
Proof.
  unfold excludedElements. rewrite !elem_of_cons, elem_of_nil.
  intros [->|[->|[->|[->|[->|[]]]]]].
  2:{ change (excludedBy d e ".footer__bottom *")
        with ((λ found : option nat, bool_decide (found ≠ None))
                <$> Css.closest d e ".footer__bottom").
      rewrite (closest_class d e "footer__bottom") by (vm_compute; reflexivity).
      change (matchesExclusion d e ".footer__bottom *")
        with (∃ a, (a = e ∨ a ∈ Dom.ancestors d e) ∧ hasClass d a "footer__bottom").
      cbn [fmap option_fmap option_map]. split.
      - intros [= H]. apply bool_decide_eq_true in H.
        apply (find_is_Some (λ a, Dom.classList_contains d a "footer__bottom")
                            (e :: Dom.ancestors d e)) in H as (a&Ha&Hc).
        exists a. split; [by apply elem_of_cons in Ha|].
        by apply classList_contains_spec.
      - intros (a&Ha&Hc). f_equal. apply bool_decide_eq_true.
        apply (find_is_Some (λ a, Dom.classList_contains d a "footer__bottom")
                            (e :: Dom.ancestors d e)).
        exists a. split; [by apply elem_of_cons|]. by apply classList_contains_spec. }
  all: match goal with
       | |- excludedBy ?d' ?e' (String _ ?c) = _ ↔ _ =>
           change (Some (Dom.classList_contains d' e' c) = Some true ↔ hasClass d' e' c)
       end;
    unfold hasClass; rewrite <- classList_contains_spec; split;
      [by intros [= ->] | by intros ->].
Qed.

Lemma excluded_refines d e : excluded d e = true ↔ specExcluded d e.
Proof.
  unfold excluded, specExcluded, isElementExcluded. rewrite bool_decide_eq_true.
  rewrite some_true.
  - split; intros (sel&Hin&H); exists sel; (split; [done|]); by apply excludedBy_refines.
  - intros sel Hin. apply excludedBy_total.
    pose proof excludedElements_quiet as Hq. rewrite forallb_forall in Hq.
    by apply Hq, list_elem_of_In.
Qed.

(** The page once [init] has run in a browser with the observer. *)
Definition started d : State := fst (init true (page d)).

(** The element has been kept out of the path: it is as in the loaded page,
    not observed and without a pending paint callback. *)
Definition untouched d e s : Prop :=
  observed s e = false ∧ (e ∉ frameRequests s) ∧ (document s !! e = d !! e).

Definition guarded d e s : Prop := similar d (document s) ∧ untouched d e s.

Lemma init_eq d :
  init true (page d)
  = (mkState (scanned d) (Some (foldl addTarget [] (wanted d))) [] []
             [MutationHook; ResizeHook] [], Normal).
Proof. unfold init. simpl. by rewrite observeElements_eq. Qed.

Lemma not_wanted d d' e : similar d d' → excluded d e = true → e ∉ wanted d'.
Proof.
  intros Hs He [_ Hw]%elem_of_wanted. unfold watchable in Hw.
  rewrite <- (similar_excluded d d'), He in Hw by done.
  by rewrite andb_false_r in Hw.
Qed.

Lemma started_guarded d e : excluded d e = true → guarded d e (started d).
Proof.
  intros He. unfold started. rewrite init_eq. simpl.
  pose proof (not_wanted d d e (similar_refl d) He) as Hw.
  split; [apply akin_scanned|]. split; [|split].
  - unfold observed. simpl. apply bool_decide_eq_false.
    rewrite elem_of_addTargets, elem_of_nil. tauto.
  - apply not_elem_of_nil.
  - simpl. rewrite scanned_lookup. by rewrite bool_decide_eq_false_2.
Qed.

Lemma step_guarded d e s ev :
  excluded d e = true → deliverable s ev = true →
  guarded d e s → guarded d e (step s ev).
Proof.
  intros He Hd (Hsim&Ho&Hq&Hl). unfold guarded, untouched.
  destruct ev as [entries| |]; simpl.
  - rewrite handleIntersection_eq. simpl. split; [done|]. split; [done|]. split; [|done].
    rewrite elem_of_app. intros [?|Hin]; [done|].
    by rewrite (deliverable_observed s entries e Hd Hin) in Ho.
  - split; [eapply similar_trans; [exact Hsim | apply similar_runAnimationFrame]|].
    split; [|split].
    + by rewrite runAnimationFrame_observed, Ho.
    + rewrite runAnimationFrame_frameRequests. apply not_elem_of_nil.
    + by rewrite runAnimationFrame_lookup, bool_decide_eq_false_2.
  - pose proof (not_wanted d (document s) e Hsim He) as Hw.
    split; [eapply similar_trans; [exact Hsim | rewrite observeElements_document; apply akin_scanned]|].
    split; [|split].
    + rewrite observeElements_observed, Ho, bool_decide_eq_false_2 by done.
      by destruct (observer s).
    + by rewrite observeElements_frameRequests.
    + by rewrite observeElements_document, scanned_lookup, bool_decide_eq_false_2.
Qed.

Lemma visited_guarded d e s evs s' :
  excluded d e = true → admissible s evs = true → guarded d e s →
  s' ∈ visited s evs → guarded d e s'.
Proof.
  intros He. revert s. induction evs as [|ev r IH]; intros s Hadm Hg; cbn [visited].
  - by intros ->%list_elem_of_singleton.
  - cbn [admissible] in Hadm. apply andb_true_iff in Hadm as [Hd Hr].
    intros [->|Hin]%elem_of_cons; [done|].
    apply (IH (step s ev)); [done | by apply step_guarded | done].
Qed.

(** C3. An element that matches an exclusion selector, directly or through
    the wildcard selector, is never watched and never activated by the
    scan-and-watch path, whatever inclusion selectors it matches: in every
    state visited after [init] it is not observed, has no pending paint
    callback, and its classes and attributes are those of the loaded page. *)
Theorem excluded_never_watched (d : Document) (evs : list Event) (e : nat) (s' : State) :
  specExcluded d e →
  admissible (started d) evs = true →
  s' ∈ visited (started d) evs →
  observed s' e = false ∧ (e ∉ frameRequests s') ∧ (document s' !! e = d !! e).
Proof.
  intros He%excluded_refines Hadm Hin.
  eapply visited_guarded; eauto using started_guarded.
Qed.

(** The paragraph inside the footer block of the sample page matches the
    inclusion selector [p] and the wildcard exclusion. *)
Lemma excluded_never_watched_witness :
  let evs := [Rescan; Notify [mkEntry 1 true]; Paint; Rescan] in
  let s' := run (started Sample.document) evs in
  Css.querySelectorAll Sample.document "p" = Some [3] ∧
  observed s' 3 = false ∧ (3 ∉ frameRequests s') ∧
  (document s' !! 3 = Sample.document !! 3).
Proof.
  intros evs s'. split; [vm_compute; reflexivity|].
  apply (excluded_never_watched Sample.document evs 3 s').
  - exists ".footer__bottom *". split; [right; left|].
    exists 2. split; [right; vm_compute; left|].
    eexists. split; [reflexivity|]. left.
  - vm_compute. reflexivity.
  - vm_compute. do 4 right. left.
Defined.
End Exclusion.


(** ** Scanning twice *)

Section Idempotence.
Import ScrollAnimation.
Implicit Types (d : Document) (e : nat) (s : State).

Lemma observeElements_twice s :
  observeElements (fst (observeElements s)) = observeElements s.
Proof.
  rewrite (observeElements_eq (fst (observeElements s))).
  rewrite observeElements_document, observeElements_observer, wanted_scanned, scanned_scanned.
  rewrite observeElements_eq.
  destruct (observer s) as [targets|] eqn:Ho; simpl.
  - by rewrite addTargets_idem.
  - done.
Qed.

(** C7. Running [observeElements] twice in succession gives the state (and
    the completion) of running it once: the same observed set and the same
    classes on every element.  An observed set without repetition stays
    without repetition, and an element carrying the marker is left as it is:
    same classes and attributes, observed exactly if it was observed before,
    and no paint callback is requested. *)
Theorem observeElements_idempotent (s : State) :
  let once := observeElements s in
  let twice := observeElements (fst once) in
  twice = once ∧
  (∀ targets, observer s = Some targets → NoDup targets →
     ∃ targets', observer (fst twice) = Some targets' ∧ NoDup targets') ∧
  (∀ e, marked (document s) e = true →
     document (fst twice) !! e = document s !! e ∧
     observed (fst twice) e = observed s e) ∧
  frameRequests (fst twice) = frameRequests s.
Proof.
  cbv zeta. rewrite observeElements_twice. split; [done|]. split; [|split].
  - intros targets Ho Hnd. rewrite observeElements_observer, Ho. simpl.
    eexists. split; [done|]. by apply NoDup_addTargets.
  - intros e Hm.
    assert (e ∉ wanted (document s)) as Hw.
    { intros [_ Hw]%elem_of_wanted. unfold watchable in Hw. by rewrite Hm in Hw. }
    rewrite observeElements_document, scanned_lookup, observeElements_observed.
    rewrite bool_decide_eq_false_2 by done. split; [done|].
    unfold observed. destruct (observer s); [apply orb_false_r | done].
  - apply observeElements_frameRequests.
Qed.

(** On the sample page with the card already activated and the section
    still watched. *)
Lemma observeElements_idempotent_witness :
  let s := run Sample.watching [Notify [mkEntry 1 true]; Paint] in
  observeElements (fst (observeElements s)) = observeElements s ∧
  (∃ targets', observer (fst (observeElements (fst (observeElements s)))) = Some targets'
               ∧ NoDup targets') ∧
  document (fst (observeElements (fst (observeElements s)))) !! 1 = document s !! 1.
Proof.
  intros s.
  destruct (observeElements_idempotent s) as (Heq&Hnd&Hm&_).
  split; [exact Heq|]. split.
  - apply (Hnd [5]); [vm_compute; reflexivity|]. apply NoDup_singleton.
  - apply (Hm 1). vm_compute. reflexivity.
Defined.
End Idempotence.


(** ** Loops over the selector table that change single elements *)

Section SelectorLoops.
Import ScrollAnimation.
Implicit Types (d : Document) (e : nat) (s : State).

Lemma similar_foldl_alter (f : Element → Element) d l :
  (∀ el, el_sim el (f el)) → similar d (foldl (λ d e, alter f e d) d l).
Proof.
  intros Hf. apply (foldl_invariant (similar d)); [|apply similar_refl].
  intros d' e _ H. eapply similar_trans; [exact H|]. by apply similar_alter.
Qed.

Lemma quiet_querySelectorAll d selector :
  CssFacts.quiet selector = true → is_Some (Css.querySelectorAll d selector).
Proof.
  intros (sl&Hp&_)%quiet_spec. unfold Css.querySelectorAll. rewrite Hp. by eexists.
Qed.

Lemma selectorLoop_eq (f : Element → Element)
      (body : nat → Document → Document * Completion)
      (loop : string → Document → Document * Completion)
      (selectors : list string) d :
  (∀ sel d, loop sel d = match Css.querySelectorAll d sel with
                         | None => (d, Throw SyntaxError)
                         | Some els => forEach els body d
                         end) →
  (∀ e d, body e d = (alter f e d, Normal)) →
  (∀ el, el_sim el (f el)) →
  forallb CssFacts.quiet selectors = true →
  forEach selectors loop d
  = (foldl (λ d e, alter f e d) d (matchedBy selectors d), Normal).
Proof.
  intros Hloop Hbody Hf. revert d.
  induction selectors as [|sel r IH]; intros d; cbn [forEach forallb]; [done|].
  intros [Hq Hr]%andb_true_iff. rewrite Hloop.
  destruct (quiet_querySelectorAll d sel Hq) as [els Hels]. rewrite Hels.
  rewrite (forEach_fold_plain body (λ e d, alter f e d)) by done.
  rewrite IH by done.
  unfold matchedBy at 2. cbn [map concat]. rewrite Hels. cbn [default].
  fold (matchedBy r d). rewrite foldl_app.
  by rewrite <- (similar_matchedBy r d) by (done || by apply similar_foldl_alter).
Qed.

(** *** The fallback timer *)

Definition reveal (el : Element) : Element :=
  if Dom.contains_class el "active" then el
  else Dom.add_class "active" (Dom.add_class "fade-in-up" el).

Lemma revealElement_eq e d : revealElement e d = (alter reveal e d, Normal).
Proof.
  unfold revealElement, Dom.classList_contains, Dom.classList_add.
  destruct (d !! e) as [el|] eqn:He.
  - destruct (Dom.contains_class el "active") eqn:Ha; simpl.
    + f_equal. symmetry. apply alter_fixed. intros el' ?. simplify_eq.
      unfold reveal. by rewrite Ha.
    + f_equal. rewrite list_alter_alter_eq. apply list_alter_ext; [|done].
      intros el' ?. simplify_eq. unfold reveal. by rewrite Ha.
  - simpl. f_equal. rewrite !alter_fixed; [done | | |]; intros; try congruence.
    rewrite alter_fixed in *; congruence.
Qed.

Lemma reveal_idem el : reveal (reveal el) = reveal el.
Proof.
  unfold reveal at 1.
  assert (Dom.contains_class (reveal el) "active" = true) as ->; [|done].
  apply contains_class_spec. unfold reveal.
  destruct (Dom.contains_class el "active") eqn:Ha.
  - by apply contains_class_spec.
  - apply add_class_elem. by left.
Qed.

Lemma el_sim_reveal el : el_sim el (reveal el).
Proof.
  unfold reveal. destruct (Dom.contains_class el "active"); [apply el_sim_refl|].
  eapply el_sim_trans; apply el_sim_add_class; [left | right; left].
Qed.

Lemma reveal_attributes el : attributes (reveal el) = attributes el.
Proof.
  unfold reveal. destruct (Dom.contains_class el "active"); [done|].
  by rewrite !add_class_attributes.
Qed.

Lemma reveal_classes el c :
  c ∈ classList (reveal el) ↔
  c ∈ classList el ∨ (("active" ∉ classList el) ∧ (c = "fade-in-up" ∨ c = "active")).
Proof.
  unfold reveal. destruct (Dom.contains_class el "active") eqn:Ha.
  - apply contains_class_spec in Ha. tauto.
  - apply contains_class_false in Ha. rewrite !add_class_elem. tauto.
Qed.

Lemma fallbackReveal_eq s :
  fallbackReveal s
  = (set_document (foldl (λ d e, alter reveal e d) (document s) (matched (document s))) s,
     Normal).
Proof.
  unfold fallbackReveal.
  rewrite (selectorLoop_eq reveal revealElement revealSelector);
    [done | done | apply revealElement_eq | apply el_sim_reveal | apply targetElements_quiet].
Qed.

End SelectorLoops.

(** ** The fallback path *)

Section Fallback.
Import ScrollAnimation.
Implicit Types (d : Document) (e : nat) (s : State).

(** C4. Without the observer facility, [init] on a loaded page creates no
    observer and installs no listener: it logs the warning and arms a timer
    of 100 ms, leaving the document as it is.  When the timer fires, every
    element selected by an inclusion selector that lacks the class [active]
    receives [fade-in-up] and [active]; elements already active and elements
    selected by no inclusion selector are left alone.  Exclusion is not
    consulted: the elements concerned are exactly those selected by some
    inclusion selector. *)
Theorem fallback_reveals_all (d : Document) :
  let s1 := fst (init false (page d)) in
  let s2 := fst (runTimer FallbackReveal s1) in
  init false (page d)
    = (mkState d None [] [(100, FallbackReveal)] [] [warning], Normal) ∧
  snd (runTimer FallbackReveal s1) = Normal ∧
  observer s2 = None ∧ hooks s2 = [] ∧ frameRequests s2 = [] ∧
  (∀ e, observed s2 e = false) ∧
  (∀ e, document s2 !! e
        = if bool_decide (e ∈ matched d) then reveal <$> d !! e else d !! e) ∧
  (∀ e, e ∈ matched d ↔
        ∃ selector els, selector ∈ targetElements ∧
                        Css.querySelectorAll d selector = Some els ∧ e ∈ els) ∧
  (∀ e, e ∈ matched d → active (document s2) e = true).
Proof.
  simpl. rewrite fallbackReveal_eq. simpl.
  repeat (split; [done|]). split; [|split].
  - intros e. apply foldl_alter_lookup, reveal_idem.
  - intros e. apply elem_of_matchedBy.
  - intros e He. apply active_spec.
    destruct (lookup_lt_is_Some_2 d e) as [el Hel]; [by eapply matchedBy_bound|].
    exists (reveal el). split.
    + rewrite (foldl_alter_lookup reveal) by apply reveal_idem.
      by rewrite bool_decide_eq_true_2, Hel.
    + apply reveal_classes. destruct (decide ("active" ∈ classList el)); [by left|].
      right. auto.
Qed.

(** The excluded footer block of the sample page is revealed as well. *)
Lemma fallback_reveals_all_witness :
  let s2 := fst (runTimer FallbackReveal (fst (init false (page Sample.document)))) in
  isElementExcluded Sample.document 2 = Some true ∧ active (document s2) 2 = true.
Proof.
  intros s2. split; [vm_compute; reflexivity|].
  destruct (fallback_reveals_all Sample.document) as (_&_&_&_&_&_&_&_&H).
  apply H. vm_compute. do 3 right. left.
Defined.

(** C10. The fallback path writes class lists only.  After [init] without
    the observer facility and the firing of its timer, every element has
    the attributes, the tag and the parent it had; in particular the marker
    attribute is where it was and nowhere else.  Classes are only added, and
    only [fade-in-up] and [active]. *)
Theorem fallback_keeps_attributes (s : State) :
  let s2 := fst (runTimer FallbackReveal (fst (init false s))) in
  attributes <$> document s2 = attributes <$> document s ∧
  tagName <$> document s2 = tagName <$> document s ∧
  parentNode <$> document s2 = parentNode <$> document s ∧
  (∀ e k, Dom.getAttribute (document s2) e k = Dom.getAttribute (document s) e k) ∧
  (∀ e, marked (document s2) e = marked (document s) e) ∧
  (∀ e el', document s2 !! e = Some el' →
     ∃ el, document s !! e = Some el ∧
           ∀ c, c ∈ classList el' ↔
                c ∈ classList el ∨
                (("active" ∉ classList el) ∧ e ∈ matched (document s) ∧
                 (c = "fade-in-up" ∨ c = "active"))).
Proof.
  simpl. rewrite fallbackReveal_eq. simpl.
  set (d := document s).
  set (d' := foldl (λ d e, alter reveal e d) d (matched d)).
  assert (Hlk : ∀ e, d' !! e = if bool_decide (e ∈ matched d) then reveal <$> d !! e
                               else d !! e).
  { intros e. apply foldl_alter_lookup, reveal_idem. }
  assert (Hfield : ∀ {B} (proj : Element → B),
             (∀ el, proj (reveal el) = proj el) → proj <$> d' = proj <$> d).
  { intros B proj Hp. apply list_eq. intros e. rewrite !list_lookup_fmap, Hlk.
    case_bool_decide; [|done]. destruct (d !! e); simpl; [|done]. by rewrite Hp. }
  assert (Hattr : attributes <$> d' = attributes <$> d) by apply Hfield, reveal_attributes.
  assert (Hk : akin d d').
  { split; [|done]. apply similar_foldl_alter, el_sim_reveal. }
  split; [done|]. split.
  { apply Hfield. intros el. by destruct (el_sim_reveal el) as (?&_). }
  split.
  { apply Hfield. intros el. by destruct (el_sim_reveal el) as (_&?&_). }
  split; [intros e k; symmetry; by apply akin_getAttribute|].
  split; [intros e; symmetry; by apply akin_marked|].
  intros e el'. rewrite Hlk. case_bool_decide as Hin.
  - destruct (d !! e) as [el|]; simpl; [|done]. intros [= <-].
    exists el. split; [done|]. intros c. rewrite reveal_classes. tauto.
  - intros He. exists el'. split; [done|]. tauto.
Qed.

(** On the sample page the card is revealed and stays without the marker. *)
Lemma fallback_keeps_attributes_witness :
  let s2 := fst (runTimer FallbackReveal Sample.degraded) in
  active (document s2) 1 = true ∧
  Dom.getAttribute (document s2) 1 "data-animated" = None ∧
  (∃ el, Sample.document !! 1 = Some el ∧ "active" ∉ classList el).
Proof.
  intros s2.
  destruct (fallback_keeps_attributes (page Sample.document)) as (_&_&_&Hget&_&Hcl).
  split; [vm_compute; reflexivity|]. split.
  - unfold s2, Sample.degraded. rewrite Hget. vm_compute. reflexivity.
  - destruct (Hcl 1 (Sample.element "DIV" ["card"; "fade-in-up"; "active"] (Some 0)))
      as (el&Hel&_); [vm_compute; reflexivity|].
    exists el. split; [exact Hel|].
    vm_compute in Hel. injection Hel as <-. cbn [classList].
    intros [?|[]%elem_of_nil]%elem_of_cons. discriminate.
Defined.
End Fallback.


(** ** The public operations *)

Section Identifiers.

Lemma punctuation_not_ident (c : ascii) (t : Css.Token) (x : string) :
  Css.punctuation c = Some t → t ≠ Css.TIdent x.
Proof.
  unfold Css.punctuation. intros H ->.
  repeat (destruct (Ascii.eqb c _); [discriminate|]). discriminate.
Qed.

Lemma flush_identifiers (cur : string) (ts ts' : list Css.Token) :
  Css.flush cur ts = Some ts' →
  (∀ x, Css.TIdent x ∈ ts → Css.is_identifier x = true) →
  ∀ x, Css.TIdent x ∈ ts' → Css.is_identifier x = true.
Proof.
  unfold Css.flush. intros H Hts x Hx. destruct cur as [|c cur].
  - simplify_eq. by apply Hts.
  - destruct (Css.is_identifier (String c cur)) eqn:Hid; [|done]. simplify_eq.
    apply elem_of_cons in Hx as [[= ->]|Hx]; [done | by apply Hts].
Qed.

(** Every name the engine reads is an identifier: a selector with a name
    that starts with a digit, or with a hyphen and a digit, is malformed. *)
Lemma tokenize_identifiers (s cur : string) (ts : list Css.Token) :
  Css.tokenize s cur = Some ts →
  ∀ x, Css.TIdent x ∈ ts → Css.is_identifier x = true.
Proof.
  revert cur ts. induction s as [|c r IH]; intros cur ts; cbn [Css.tokenize].
  - intros H. eapply flush_identifiers; [exact H|]. by intros x ?%elem_of_nil.
  - destruct (Css.is_ident_char c); [apply IH|].
    destruct (Css.punctuation c) as [t|] eqn:Hp; [|done].
    destruct (Css.tokenize r EmptyString) as [ts0|] eqn:Ht; [|done].
    cbn [mbind option_bind]. intros H. eapply flush_identifiers; [exact H|].
    intros x [Heq|Hx]%elem_of_cons.
    + symmetry in Heq. by destruct (punctuation_not_ident c t x Hp).
    + by eapply IH.
Qed.
End Identifiers.

Section Trigger.
Import ScrollAnimation.
Implicit Types (d : Document) (e : nat) (s : State).

(** The change [triggerAnimation] makes to one element. *)
Definition forced (el : Element) : Element :=
  if Dom.contains_class el "active" then el
  else Dom.set_attribute "data-animated" "true" (Dom.add_class "active" el).

Lemma forceElement_eq e d : forceElement e d = (alter forced e d, Normal).
Proof.
  unfold forceElement, Dom.classList_contains, Dom.classList_add, Dom.setAttribute.
  destruct (d !! e) as [el|] eqn:He.
  - destruct (Dom.contains_class el "active") eqn:Ha; simpl.
    + f_equal. symmetry. apply alter_fixed. intros el' ?. simplify_eq.
      unfold forced. by rewrite Ha.
    + f_equal. rewrite list_alter_alter_eq. apply list_alter_ext; [|done].
      intros el' ?. simplify_eq. unfold forced. by rewrite Ha.
  - simpl. f_equal. rewrite !alter_fixed; [done | | |]; intros; try congruence.
    rewrite alter_fixed in *; congruence.
Qed.

Lemma forced_active el : "active" ∈ classList (forced el).
Proof.
  unfold forced. destruct (Dom.contains_class el "active") eqn:Ha.
  - by apply contains_class_spec.
  - simpl. apply add_class_elem. by left.
Qed.

Lemma forced_idem el : forced (forced el) = forced el.
Proof.
  unfold forced at 1.
  by rewrite (proj2 (contains_class_spec (forced el) "active") (forced_active el)).
Qed.

Lemma forced_present el : "active" ∈ classList el → forced el = el.
Proof. intros H. unfold forced. by apply contains_class_spec in H as ->. Qed.

(** [triggerAnimation] in closed form, whatever the engine. *)
Lemma triggerAnimationWith_eq (engine : Engine) selector s :
  triggerAnimationWith engine selector s =
  match selectedElementsWith engine (document s) selector with
  | None => (s, Throw SyntaxError)
  | Some els => (set_document (foldl (λ d e, alter forced e d) (document s) els) s, Normal)
  end.
Proof.
  unfold triggerAnimationWith.
  destruct (selectedElementsWith _ _ _) as [els|]; [|done].
  by rewrite (forEach_fold_plain forceElement (λ e d, alter forced e d))
    by apply forceElement_eq.
Qed.

Lemma triggerAnimationWith_lookup (engine : Engine) selector s els e :
  selectedElementsWith engine (document s) selector = Some els →
  document (fst (triggerAnimationWith engine selector s)) !! e
  = if bool_decide (e ∈ els) then forced <$> document s !! e else document s !! e.
Proof.
  intros Hsel. rewrite triggerAnimationWith_eq, Hsel. cbn [fst document set_document].
  apply foldl_alter_lookup, forced_idem.
Qed.


Lemma triggerAnimation_lookup selector s els e :
  selectedElements (document s) selector = Some els →
  document (fst (triggerAnimation selector s)) !! e
  = if bool_decide (e ∈ els) then forced <$> document s !! e else document s !! e.
Proof. apply triggerAnimationWith_lookup. Qed.

Lemma foldl_alter_fixed (f : Element → Element) d l :
  (∀ e el, e ∈ l → d !! e = Some el → f el = el) →
  foldl (λ d e, alter f e d) d l = d.
Proof.
  intros H. apply (foldl_invariant (λ d', d' = d)); [|done].
  intros d' e He ->. apply alter_fixed. intros el. by apply H.
Qed.

(** A second call that selects the same elements changes nothing. *)
Lemma triggerAnimationWith_again (engine : Engine) selector s els :
  selectedElementsWith engine (document s) selector = Some els →
  selectedElementsWith engine (document (fst (triggerAnimationWith engine selector s)))
                       selector = Some els →
  triggerAnimationWith engine selector (fst (triggerAnimationWith engine selector s))
  = triggerAnimationWith engine selector s.
Proof.
  intros Hsel Hsel'. rewrite (triggerAnimationWith_eq engine selector (fst _)), Hsel'.
  rewrite foldl_alter_fixed.
  - rewrite triggerAnimationWith_eq, Hsel. done.
  - intros e el He. rewrite (triggerAnimationWith_lookup engine selector s els e Hsel).
    rewrite bool_decide_eq_true_2 by done.
    destruct (document s !! e); simpl; [|done]. intros [= <-]. apply forced_idem.
Qed.

(** C9. [triggerAnimation] consults neither the inclusion list nor the
    exclusion list.  Whatever the selector string and whatever
    [document.querySelectorAll] answers for it: if the call throws, so does
    [triggerAnimation], and nothing changes; if it returns a list, the
    operation completes normally and every element of the document in that
    list that lacks the activation class receives that class and the
    marker. *)
Theorem triggerAnimation_unfiltered (engine : Engine) (s : State) (str : string) :
  let r := triggerAnimationWith engine (inl str) s in
  (engine (document s) str = None → r = (s, Throw SyntaxError)) ∧
  (∀ els, engine (document s) str = Some els →
     snd r = Normal ∧
     ∀ e, e ∈ els → e < length (document s) → active (document s) e = false →
          active (document (fst r)) e = true ∧
          Dom.getAttribute (document (fst r)) e "data-animated" = Some "true").
Proof.
  intros r. subst r. split.
  { intros Hq. rewrite triggerAnimationWith_eq. cbn [selectedElementsWith].
    by rewrite Hq. }
  intros els Hq. split.
  { rewrite triggerAnimationWith_eq. cbn [selectedElementsWith]. by rewrite Hq. }
  intros e He Hlt Ha.
  destruct (lookup_lt_is_Some_2 (document s) e Hlt) as [el Hel].
  assert ("active" ∉ classList el) as Hn.
  { intros Hin. apply not_true_iff_false in Ha. apply Ha, active_spec. by exists el. }
  assert (document (fst (triggerAnimationWith engine (inl str) s)) !! e
          = Some (Dom.set_attribute "data-animated" "true" (Dom.add_class "active" el)))
    as Hlk.
  { rewrite (triggerAnimationWith_lookup engine (inl str) s els e Hq).
    rewrite bool_decide_eq_true_2, Hel by done. cbn [fmap option_fmap option_map].
    unfold forced. by apply contains_class_false in Hn as ->. }
  split.
  - apply active_spec. eexists. split; [exact Hlk|].
    cbn [classList Dom.set_attribute]. apply add_class_elem. by left.
  - unfold Dom.getAttribute. rewrite Hlk. cbn [mbind option_bind].
    cbn [attributes Dom.set_attribute]. apply lookup_insert_eq.
Qed.

(** The footer links of the sample page match an exclusion selector and no
    inclusion selector. *)
Lemma triggerAnimation_unfiltered_witness :
  let s' := fst (triggerAnimation (inl ".footer__bottom-links") Sample.watching) in
  isElementExcluded Sample.document 6 = Some true ∧
  shouldAnimateElement Sample.document 6 = false ∧
  (6 ∉ matched Sample.document) ∧
  active (document s') 6 = true ∧
  Dom.getAttribute (document s') 6 "data-animated" = Some "true".
Proof.
  intros s'.
  split; [vm_compute; reflexivity|]. split; [vm_compute; reflexivity|]. split.
  { replace (matched Sample.document) with [3; 4; 1; 2; 1; 5] by (vm_compute; reflexivity).
    rewrite !elem_of_cons, elem_of_nil. lia. }
  destruct (triggerAnimation_unfiltered Css.querySelectorAll Sample.watching
              ".footer__bottom-links") as (_&Hsel).
  destruct (Hsel [6]) as (_&Hact); [vm_compute; reflexivity|].
  destruct (Hact 6) as (Ha&Hm).
  - left.
  - vm_compute. lia.
  - vm_compute. reflexivity.
  - split; [exact Ha | exact Hm].
Defined.
End Trigger.


Section TriggerTwice.
Import ScrollAnimation.
Implicit Types (d : Document) (e : nat) (s : State).

(** C5 as stated: calling [triggerAnimation] twice equals calling it once,
    for any selector or element. *)
Definition triggerAnimation_idempotent : Prop :=
  ∀ (selector : string + nat) (s : State),
    fst (triggerAnimation selector (fst (triggerAnimation selector s)))
    = fst (triggerAnimation selector s).

(** C5, counterexample.  In [Sample.nested] the selector [.active > div]
    selects the middle [div] only; once that one is active the same selector
    selects the inner [div] too, so a second call activates one more
    element. *)
Lemma triggerAnimation_idempotent_fails :
  let s := page Sample.nested in
  let once := fst (triggerAnimation (inl ".active > div") s) in
  let twice := fst (triggerAnimation (inl ".active > div") once) in
  Css.querySelectorAll (document s) ".active > div" = Some [2] ∧
  Css.querySelectorAll (document once) ".active > div" = Some [2; 3] ∧
  active (document once) 3 = false ∧
  active (document twice) 3 = true ∧
  ¬ triggerAnimation_idempotent.
Proof.
  intros s once twice.
  split; [vm_compute; reflexivity|]. split; [vm_compute; reflexivity|].
  split; [vm_compute; reflexivity|]. split; [vm_compute; reflexivity|].
  intros H. specialize (H (inl ".active > div") (page Sample.nested)).
  apply (f_equal (λ s, active (document s) 3)) in H.
  vm_compute in H. discriminate.
Qed.

(** C5, amended.  [triggerAnimation] acts at once and on the document only
    (no observer, paint callback or timer is involved, so visibility plays no
    part), whatever the selector or element and whatever
    [document.querySelectorAll] answers for a selector string.  If that call
    throws, so does [triggerAnimation], and nothing changes.  Otherwise every
    selected element ends with the activation class, and with the marker if
    it lacked the class before; an element that already has the class is left
    exactly as it is, and so is every element not selected.  Calling it twice
    with the same element equals calling it once, and so does calling it
    twice with a selector string that selects the same elements after the
    first call as before it. *)
Theorem triggerAnimation_forces (engine : Engine) (s : State) (selector : string + nat) :
  let r := triggerAnimationWith engine selector s in
  let s1 := fst r in
  (selectedElementsWith engine (document s) selector = None →
   r = (s, Throw SyntaxError)) ∧
  (∀ els, selectedElementsWith engine (document s) selector = Some els →
     r = (set_document (document s1) s, Normal) ∧
     (∀ e, e ∈ els → e < length (document s) → active (document s1) e = true) ∧
     (∀ e, e ∈ els → e < length (document s) → active (document s) e = false →
           marked (document s1) e = true) ∧
     (∀ e, e ∉ els → document s1 !! e = document s !! e) ∧
     (selectedElementsWith engine (document s1) selector = Some els →
      triggerAnimationWith engine selector s1 = r)) ∧
  (∀ e, active (document s) e = true → document s1 !! e = document s !! e) ∧
  (∀ element,
     triggerAnimationWith engine (inr element)
                          (fst (triggerAnimationWith engine (inr element) s))
     = triggerAnimationWith engine (inr element) s).
Proof.
  intros r s1. split; [|split; [|split]].
  - intros Hsel. unfold r. by rewrite triggerAnimationWith_eq, Hsel.
  - intros els Hsel.
    assert (Hlk : ∀ e, document s1 !! e
                       = if bool_decide (e ∈ els) then forced <$> document s !! e
                         else document s !! e).
    { intros e. by apply triggerAnimationWith_lookup. }
    split; [unfold s1, r; rewrite triggerAnimationWith_eq, Hsel; done|].
    split; [|split; [|split]].
    + intros e He Hl. destruct (lookup_lt_is_Some_2 _ _ Hl) as [el Hel].
      apply active_spec. exists (forced el). split; [|apply forced_active].
      by rewrite Hlk, bool_decide_eq_true_2, Hel.
    + intros e He Hl Ha. destruct (lookup_lt_is_Some_2 _ _ Hl) as [el Hel].
      apply marked_spec. exists (forced el). split.
      * by rewrite Hlk, bool_decide_eq_true_2, Hel.
      * unfold forced.
        assert (Dom.contains_class el "active" = false) as ->.
        { unfold active, Dom.classList_contains in Ha. by rewrite Hel in Ha. }
        cbn [attributes Dom.set_attribute]. apply lookup_insert_eq.
    + intros e He. by rewrite Hlk, bool_decide_eq_false_2.
    + intros Hsel'. by apply (triggerAnimationWith_again engine selector s els).
  - intros e [el [Hel Ha]]%active_spec. unfold s1, r.
    rewrite triggerAnimationWith_eq.
    destruct (selectedElementsWith engine (document s) selector) as [els|];
      cbn [fst document set_document]; [|done].
    rewrite (foldl_alter_lookup forced) by apply forced_idem.
    rewrite Hel. case_bool_decide; [|done].
    cbn [fmap option_fmap option_map]. by rewrite forced_present.
  - intros element. by apply (triggerAnimationWith_again engine (inr element) s [element]).
Qed.

(** On [Sample.nested], the selector [div] selects the three [div]s before
    and after the call. *)
Lemma triggerAnimation_forces_witness :
  let s := page Sample.nested in
  let s1 := fst (triggerAnimation (inl "div") s) in
  active (document s1) 3 = true ∧ marked (document s1) 3 = true ∧
  document s1 !! 1 = document s !! 1 ∧
  document s1 !! 0 = document s !! 0 ∧
  triggerAnimation (inl "div") s1 = triggerAnimation (inl "div") s.
Proof.
  intros s s1.
  destruct (triggerAnimation_forces Css.querySelectorAll s (inl "div")) as (_&Hsel&Hk&_).
  destruct (Hsel [1; 2; 3]) as (_&Ha&Hm&Ho&Ht); [vm_compute; reflexivity|].
  split; [apply Ha; [do 2 right; left | vm_compute; lia]|].
  split; [apply Hm; [do 2 right; left | vm_compute; lia | vm_compute; reflexivity]|].
  split; [apply Hk; vm_compute; reflexivity|].
  split; [apply Ho; rewrite !elem_of_cons, elem_of_nil; lia|].
  apply Ht. vm_compute. reflexivity.
Defined.
End TriggerTwice.

Section Reset.
Import ScrollAnimation.
Implicit Types (d : Document) (e : nat) (s : State).

(** The change [resetAnimations] makes to one element. *)
Definition cleared (el : Element) : Element :=
  Dom.remove_attribute "data-animated" (Dom.remove_class "active" el).

Lemma clearElement_eq e d : clearElement e d = (alter cleared e d, Normal).
Proof.
  unfold clearElement, Dom.removeAttribute, Dom.classList_remove, cleared.
  by rewrite list_alter_alter_eq.
Qed.

Lemma el_sim_cleared el : el_sim el (cleared el).
Proof.
  eapply el_sim_trans; [apply (el_sim_remove_class "active")|apply el_sim_remove_attribute].
  right. left.
Qed.

Lemma cleared_idem el : cleared (cleared el) = cleared el.
Proof.
  unfold cleared, Dom.remove_attribute, Dom.remove_class; simpl. f_equal.
  - induction (classList el) as [|c l IH]; [done|].
    rewrite filter_cons. case_decide; [|done]. rewrite !filter_cons_True by done.
    by rewrite IH.
  - by rewrite delete_delete_eq.
Qed.

(** The document after the clearing loop. *)
Definition wiped d : Document := foldl (λ d e, alter cleared e d) d (matched d).

Lemma resetAnimations_eq s :
  resetAnimations s = observeElements (set_document (wiped (document s)) s).
Proof.
  unfold resetAnimations.
  rewrite (selectorLoop_eq cleared clearElement clearSelector);
    [done | done | apply clearElement_eq | apply el_sim_cleared | apply targetElements_quiet].
Qed.

Lemma wiped_lookup d e :
  wiped d !! e = if bool_decide (e ∈ matched d) then cleared <$> d !! e else d !! e.
Proof. apply foldl_alter_lookup, cleared_idem. Qed.

Lemma similar_wiped d : similar d (wiped d).
Proof. apply similar_foldl_alter, el_sim_cleared. Qed.

Lemma wiped_unmarked d e : e ∈ matched d → marked (wiped d) e = false.
Proof.
  intros He. apply not_true_iff_false. rewrite marked_spec. intros (el&Hel&Hm).
  rewrite wiped_lookup, bool_decide_eq_true_2 in Hel by done.
  destruct (d !! e) as [el0|]; simpl in Hel; [|done]. injection Hel as <-.
  unfold cleared in Hm. simpl in Hm. by rewrite lookup_delete_eq in Hm.
Qed.

Lemma wiped_inactive d e : e ∈ matched d → active (wiped d) e = false.
Proof.
  intros He. apply not_true_iff_false. rewrite active_spec. intros (el&Hel&Ha).
  rewrite wiped_lookup, bool_decide_eq_true_2 in Hel by done.
  destruct (d !! e) as [el0|]; simpl in Hel; [|done]. injection Hel as <-.
  unfold cleared in Ha. simpl in Ha. by apply list_elem_of_filter in Ha as [? _].
Qed.

Lemma scanned_inactive d e : active d e = false → active (scanned d) e = false.
Proof.
  intros Ha. apply not_true_iff_false. rewrite active_spec. intros (el'&Hel'&Hin).
  destruct (d !! e) as [el|] eqn:Hel.
  - destruct (scanned_classes d e el Hel) as (el2&Hel2&_&Hc).
    assert (el' = el2) as -> by congruence.
    apply Hc in Hin as [Hin|[? _]]; [|done].
    apply not_true_iff_false in Ha. apply Ha, active_spec. by exists el.
  - rewrite scanned_lookup, Hel in Hel'. by case_bool_decide.
Qed.

Lemma wanted_wiped d e :
  e ∈ wanted (wiped d) ↔ e ∈ matched d ∧ excluded d e = false.
Proof.
  rewrite elem_of_wanted, <- (similar_matched d (wiped d)) by apply similar_wiped.
  unfold watchable. rewrite <- (similar_excluded d (wiped d)) by apply similar_wiped.
  split.
  - intros [He Hw]. split; [done|]. apply andb_true_iff in Hw as [_ Hw].
    by apply negb_true_iff.
  - intros [He Hx]. split; [done|]. by rewrite wiped_unmarked, Hx.
Qed.

(** C6 as stated: after [resetAnimations] every element selected by an
    inclusion selector is without class and marker, and watched again. *)
Definition reset_rewatches_all : Prop :=
  ∀ (s : State) (e : nat),
    is_Some (observer s) → e ∈ matched (document s) →
    let s' := fst (resetAnimations s) in
    active (document s') e = false ∧ marked (document s') e = false ∧
    observed s' e = true.

(** C6, counterexample.  The footer block of the sample page is a [div],
    hence selected by an inclusion selector, and it carries the class
    [footer__bottom]: after a reset with a working observer it is cleared
    and not watched. *)
Lemma reset_rewatches_all_fails :
  let s' := fst (resetAnimations Sample.watching) in
  is_Some (observer Sample.watching) ∧
  Css.querySelectorAll Sample.document "div" = Some [1; 2] ∧
  2 ∈ matched (document Sample.watching) ∧
  isElementExcluded (document Sample.watching) 2 = Some true ∧
  observed s' 2 = false ∧
  ¬ reset_rewatches_all.
Proof.
  assert (H1 : is_Some (observer Sample.watching)) by (vm_compute; by eexists).
  assert (H2 : 2 ∈ matched (document Sample.watching)).
  { replace (matched (document Sample.watching)) with [3; 4; 1; 2; 1; 5]
      by (vm_compute; reflexivity). do 3 right. left. }
  intros s'.
  split; [exact H1|]. split; [vm_compute; reflexivity|]. split; [exact H2|].
  split; [vm_compute; reflexivity|]. split; [vm_compute; reflexivity|].
  intros H. destruct (H Sample.watching 2 H1 H2) as (_&_&Ho).
  vm_compute in Ho. discriminate.
Qed.

(** C6, amended.  After [resetAnimations] every element selected by an
    inclusion selector is without the activation class and without the
    marker.  If the observer exists and the element matches no exclusion
    selector, the element is watched again, and an intersecting entry for it
    followed by a paint activates it again.  An element that matches an
    exclusion selector is watched exactly if it was before. *)
Theorem reset_clears_and_rewatches (s : State) (e : nat) :
  e ∈ matched (document s) →
  let s' := fst (resetAnimations s) in
  active (document s') e = false ∧ marked (document s') e = false ∧
  (is_Some (observer s) → isElementExcluded (document s) e = Some false →
     snd (resetAnimations s) = Normal ∧
     observed s' e = true ∧
     deliverable s' (Notify [mkEntry e true]) = true ∧
     settledAt e (run s' [Notify [mkEntry e true]; Paint])) ∧
  (isElementExcluded (document s) e = Some true → observed s' e = observed s e).
Proof.
  intros He. simpl. rewrite resetAnimations_eq.
  set (s0 := set_document (wiped (document s)) s).
  assert (Hobs : observed s0 e = observed s e) by done.
  split; [|split; [|split]].
  - rewrite observeElements_document. simpl. by apply scanned_inactive, wiped_inactive.
  - rewrite observeElements_document. simpl.
    rewrite <- (akin_marked (wiped (document s))) by apply akin_scanned.
    by apply wiped_unmarked.
  - intros [targets Ho] Hx.
    assert (excluded (document s) e = false) as Hx'.
    { rewrite isElementExcluded_excluded in Hx. by injection Hx. }
    assert (observed (fst (observeElements s0)) e = true) as Hw.
    { rewrite observeElements_observed. change (observer s0) with (observer s).
      rewrite Ho. change (document s0) with (wiped (document s)).
      apply orb_true_iff. right. apply bool_decide_eq_true, wanted_wiped. done. }
    assert (deliverable (fst (observeElements s0)) (Notify [mkEntry e true]) = true) as Hd.
    { cbn [deliverable forallb target]. by rewrite Hw. }
    split; [|split; [done|split; [done|]]].
    + rewrite observeElements_eq. change (observer s0) with (observer s).
      by rewrite Ho.
    + change (settledAt e (step (step (fst (observeElements s0))
                                      (Notify [mkEntry e true])) Paint)).
      apply paint_pending, notify_pending; [done | |].
      * rewrite observeElements_document, scanned_length. simpl.
        rewrite <- (similar_length _ _ (similar_wiped (document s))).
        by eapply matchedBy_bound.
      * apply elem_of_intersecting. exists (mkEntry e true). split; [left | done].
  - intros Hx.
    assert (excluded (document s) e = true) as Hx'.
    { rewrite isElementExcluded_excluded in Hx. by injection Hx. }
    rewrite observeElements_observed, Hobs.
    change (observer s0) with (observer s). change (document s0) with (wiped (document s)).
    rewrite (bool_decide_eq_false_2 (e ∈ wanted _)).
    + unfold observed. destruct (observer s); [apply orb_false_r | done].
    + rewrite wanted_wiped. intros [_ ?]. congruence.
Qed.

(** On the sample page with the card activated: the card is cleared, watched
    again and reactivated by its next entry. *)
Lemma reset_clears_and_rewatches_witness :
  let s := run Sample.watching [Notify [mkEntry 1 true]; Paint] in
  let s' := fst (resetAnimations s) in
  active (document s) 1 = true ∧ marked (document s) 1 = true ∧
  observed s 1 = false ∧
  active (document s') 1 = false ∧ marked (document s') 1 = false ∧
  observed s' 1 = true ∧
  settledAt 1 (run s' [Notify [mkEntry 1 true]; Paint]).
Proof.
  intros s s'.
  destruct (reset_clears_and_rewatches s 1) as (Ha&Hm&Hw&_).
  - replace (matched (document s)) with [3; 4; 1; 2; 1; 5] by (vm_compute; reflexivity).
    do 2 right. left.
  - destruct Hw as (_&Ho&_&Hs); [vm_compute; by eexists | vm_compute; reflexivity |].
    split; [vm_compute; reflexivity|]. split; [vm_compute; reflexivity|].
    split; [vm_compute; reflexivity|].
    split; [exact Ha|]. split; [exact Hm|]. split; [exact Ho|]. exact Hs.
Defined.
End Reset.


(** ** The mobile menu *)

Section Skeleton.
Implicit Types (d : Document) (e : nat).

(** Tags and parents: what class changes leave alone. *)
Definition skeleton d : list (string * option nat) :=
  (λ el, (tagName el, parentNode el)) <$> d.

Lemma skeleton_length d d' : skeleton d = skeleton d' → length d = length d'.
Proof. intros H. apply (f_equal length) in H. unfold skeleton in H. by rewrite !length_fmap in H. Qed.

Lemma skeleton_lookup d d' e :
  skeleton d = skeleton d' →
  (λ el, (tagName el, parentNode el)) <$> d !! e
  = (λ el, (tagName el, parentNode el)) <$> d' !! e.
Proof. intros H. rewrite <- !list_lookup_fmap. by unfold skeleton in H; rewrite H. Qed.

Lemma skeleton_alter (f : Element → Element) d e :
  (∀ el, tagName (f el) = tagName el ∧ parentNode (f el) = parentNode el) →
  skeleton (alter f e d) = skeleton d.
Proof.
  intros Hf. unfold skeleton. apply list_eq. intros i.
  rewrite !list_lookup_fmap, list_lookup_alter.
  destruct (decide (e = i)) as [->|]; [|done].
  destruct (d !! i) as [el|]; simpl; [|done].
  by destruct (Hf el) as [-> ->].
Qed.

Lemma skeleton_parent d d' e :
  skeleton d = skeleton d' → d !! e ≫= parentNode = d' !! e ≫= parentNode.
Proof.
  intros H. pose proof (skeleton_lookup d d' e H) as He.
  destruct (d !! e), (d' !! e); simpl in *; congruence.
Qed.

Lemma skeleton_ancestors d d' e :
  skeleton d = skeleton d' → Dom.ancestors d e = Dom.ancestors d' e.
Proof.
  intros H. unfold Dom.ancestors. rewrite <- (skeleton_length _ _ H).
  generalize (length d) as fuel. intros fuel. revert e.
  induction fuel as [|f IH]; intros e; simpl; [done|].
  rewrite <- (skeleton_parent _ _ _ H).
  destruct (d !! e ≫= parentNode); [|done]. by rewrite IH.
Qed.

Lemma skeleton_contains d d' a b :
  skeleton d = skeleton d' → Dom.contains d a b = Dom.contains d' a b.
Proof. intros H. unfold Dom.contains. by rewrite (skeleton_ancestors d d'). Qed.

Lemma matches_type d (name : string) e :
  Css.matches d [Css.mkComplex [Css.Pos (Css.AType name)] []] e
  = match d !! e with
    | Some el => bool_decide (JsString.toLowerCase name = JsString.toLowerCase (tagName el))
    | None => false
    end.
Proof.
  unfold Css.matches, Css.matches_complex, Css.compound_at. simpl.
  destruct (d !! e); simpl; [|done]. by rewrite !andb_true_r, orb_false_r.
Qed.

Lemma skeleton_querySelectorIn_type d d' scope (name selector : string) :
  Css.parse selector = Some [Css.mkComplex [Css.Pos (Css.AType name)] []] →
  skeleton d = skeleton d' →
  Css.querySelectorIn d scope selector = Css.querySelectorIn d' scope selector.
Proof.
  intros Hp H. unfold Css.querySelectorIn, Css.querySelectorAll. rewrite Hp. simpl.
  rewrite <- (skeleton_length _ _ H).
  assert (List.filter (Css.matches d [Css.mkComplex [Css.Pos (Css.AType name)] []])
                      (seq 0 (length d))
          = List.filter (Css.matches d' [Css.mkComplex [Css.Pos (Css.AType name)] []])
                        (seq 0 (length d))) as ->.
  { apply List.filter_ext. intros e. rewrite !matches_type.
    pose proof (skeleton_lookup d d' e H) as He.
    destruct (d !! e), (d' !! e); simpl in He; try done.
    injection He as Ht _. by rewrite Ht. }
  assert (∀ l, List.filter (λ e, bool_decide (scope ∈ Dom.ancestors d e)) l
               = List.filter (λ e, bool_decide (scope ∈ Dom.ancestors d' e)) l) as ->;
    [|done].
  intros l. apply List.filter_ext. intros e. by rewrite (skeleton_ancestors d d').
Qed.

(** In a well-formed document the ancestors of an element come strictly
    before it, so the propagation path of a click has no repetition. *)
Lemma well_formed_parent d e p :
  Dom.well_formed d = true → d !! e ≫= parentNode = Some p → p < e.
Proof.
  unfold Dom.well_formed. rewrite forallb_forall. intros Hwf Hp.
  destruct (d !! e) as [el|] eqn:He; [|done].
  specialize (Hwf e). rewrite He in Hwf. simpl in Hwf, Hp. rewrite Hp in Hwf.
  apply lookup_lt_Some in He.
  assert (bool_decide (p < e) = true) as Hlt by (apply Hwf, in_seq; lia).
  by apply bool_decide_eq_true in Hlt.
Qed.

Lemma ancestors_from_lt d fuel e a :
  Dom.well_formed d = true → a ∈ Dom.ancestors_from d fuel e → a < e.
Proof.
  intros Hwf. revert e. induction fuel as [|f IH]; intros e; simpl.
  - by intros ?%elem_of_nil.
  - destruct (d !! e ≫= parentNode) as [p|] eqn:Hp; [|by intros ?%elem_of_nil].
    pose proof (well_formed_parent d e p Hwf Hp).
    intros [->|Ha]%elem_of_cons; [done|]. specialize (IH p Ha). lia.
Qed.

Lemma ancestors_from_NoDup d fuel e :
  Dom.well_formed d = true → NoDup (e :: Dom.ancestors_from d fuel e).
Proof.
  intros Hwf. revert e. induction fuel as [|f IH]; intros e.
  - simpl. apply NoDup_singleton.
  - apply NoDup_cons. split.
    + intros H%(ancestors_from_lt d (S f) e e Hwf). lia.
    + simpl. destruct (d !! e ≫= parentNode) as [p|]; [apply IH | apply NoDup_nil_2].
Qed.

Lemma path_NoDup d e : Dom.well_formed d = true → NoDup (e :: Dom.ancestors d e).
Proof. apply ancestors_from_NoDup. Qed.
End Skeleton.

Section Menu.
Import MobileMenu.
Implicit Types (d : Document) (e : nat).

(** The page as loaded, the wiring captured then, and the icon inside the
    toggle. *)
Variables (d0 : Document) (w : Wiring) (icon : nat).
Hypothesis Hwire : wire d0 = Some w.
Hypothesis Hicon : Css.querySelectorIn d0 (mobileMenuToggle w) "i" = Some (Some icon).
Hypothesis Hne : icon ≠ navbar w.

(** The current document differs from the loaded one in classes only. *)
Definition sameTree d : Prop := skeleton d = skeleton d0.

(** The panel is closed and the icon shows the menu glyph. *)
Definition closedMenu d : Prop :=
  sameTree d ∧ isOpen w d = false ∧ classList <$> d !! icon = Some ["ri-menu-line"].

Lemma head_elem_of {A : Type} (l : list A) (x : A) : head l = Some x → x ∈ l.
Proof. destruct l; [done|]. intros [= ->]. left. Qed.

Lemma icon_bound : icon < length d0.
Proof.
  unfold Css.querySelectorIn in Hicon.
  destruct (Css.querySelectorAll d0 "i") as [l|] eqn:Hq; [|done].
  simpl in Hicon. injection Hicon as Hh. apply head_elem_of in Hh.
  apply list_elem_of_In, filter_In in Hh as [Hin _].
  eapply querySelectorAll_bound; [exact Hq|]. by apply list_elem_of_In.
Qed.

Lemma navbar_bound : navbar w < length d0.
Proof.
  unfold wire in Hwire.
  destruct (Css.querySelector d0 ".mobile-menu-toggle") as [[t|]|]; try done.
  destruct (Css.querySelector d0 ".navbar") as [[b|]|] eqn:Hb; try done.
  destruct (Css.querySelectorAll d0 ".navbar .nav-list a"); [|done].
  injection Hwire as <-. simpl.
  unfold Css.querySelector in Hb.
  destruct (Css.querySelectorAll d0 ".navbar") as [bars|] eqn:Hq; [|done].
  simpl in Hb. injection Hb as Hh. apply head_elem_of in Hh.
  by eapply querySelectorAll_bound.
Qed.

Lemma setIcon_eq d (glyph : string) :
  sameTree d → setIcon w glyph d = (Dom.setClassName d icon glyph, Normal).
Proof.
  intros Hs. unfold setIcon.
  rewrite (skeleton_querySelectorIn_type d d0 _ "i" "i") by (done || (vm_compute; reflexivity)).
  by rewrite Hicon.
Qed.

Lemma sameTree_alter (f : Element → Element) d e :
  (∀ el, tagName (f el) = tagName el ∧ parentNode (f el) = parentNode el) →
  sameTree d → sameTree (alter f e d).
Proof. intros Hf Hs. unfold sameTree. by rewrite skeleton_alter. Qed.

Lemma sameTree_setClassName d e (glyph : string) :
  sameTree d → sameTree (Dom.setClassName d e glyph).
Proof. apply sameTree_alter. by intros el. Qed.

Lemma sameTree_remove d e (c : string) : sameTree d → sameTree (Dom.classList_remove d e c).
Proof. apply sameTree_alter. by intros el. Qed.

Lemma sameTree_toggle d e (c : string) : sameTree d → sameTree (Dom.classList_toggle d e c).
Proof.
  apply sameTree_alter. intros el. unfold Dom.toggle_class.
  destruct (Dom.contains_class el c); [done|].
  by rewrite add_class_tagName, add_class_parentNode.
Qed.

Lemma sameTree_length d : sameTree d → length d = length d0.
Proof. apply skeleton_length. Qed.

Lemma isOpen_setClassName d (glyph : string) :
  isOpen w (Dom.setClassName d icon glyph) = isOpen w d.
Proof.
  unfold isOpen, Dom.classList_contains, Dom.setClassName.
  by rewrite list_lookup_alter_ne.
Qed.

Lemma glyph_setClassName d (glyph : string) :
  sameTree d →
  classList <$> Dom.setClassName d icon glyph !! icon
  = Some (Dom.dedup (Dom.tokens glyph EmptyString) []).
Proof.
  intros Hs. unfold Dom.setClassName. rewrite list_lookup_alter.
  destruct (decide (icon = icon)); [|done].
  destruct (lookup_lt_is_Some_2 d icon) as [el ->]; [|done].
  rewrite (sameTree_length d Hs). apply icon_bound.
Qed.

Lemma toggle_class_contains (c : string) el :
  Dom.contains_class (Dom.toggle_class c el) c = negb (Dom.contains_class el c).
Proof.
  unfold Dom.toggle_class. destruct (Dom.contains_class el c) eqn:Hc; simpl.
  - apply contains_class_false. rewrite remove_class_elem. tauto.
  - apply contains_class_spec, add_class_elem. by left.
Qed.

Lemma isOpen_toggle d :
  sameTree d → isOpen w (Dom.classList_toggle d (navbar w) "active") = negb (isOpen w d).
Proof.
  intros Hs. unfold isOpen, Dom.classList_contains, Dom.classList_toggle.
  rewrite list_lookup_alter. destruct (decide (navbar w = navbar w)); [|done].
  destruct (lookup_lt_is_Some_2 d (navbar w)) as [el ->].
  { rewrite (sameTree_length d Hs). apply navbar_bound. }
  simpl. apply toggle_class_contains.
Qed.

Lemma isOpen_remove d : isOpen w (Dom.classList_remove d (navbar w) "active") = false.
Proof.
  unfold isOpen, Dom.classList_contains, Dom.classList_remove.
  rewrite list_lookup_alter. destruct (decide (navbar w = navbar w)); [|done].
  destruct (d !! navbar w) as [el|]; simpl; [|done].
  apply contains_class_false. rewrite remove_class_elem. tauto.
Qed.

Lemma onToggleClick_spec d :
  sameTree d →
  let d' := fst (onToggleClick w d) in
  sameTree d' ∧ isOpen w d' = negb (isOpen w d) ∧
  classList <$> d' !! icon
  = Some [if isOpen w d' then "ri-close-line" else "ri-menu-line"].
Proof.
  intros Hs. simpl. unfold onToggleClick.
  pose proof (sameTree_toggle d (navbar w) "active" Hs) as Hs1.
  pose proof (isOpen_toggle d Hs) as Ho. unfold isOpen in Ho at 1. rewrite Ho.
  destruct (isOpen w d) eqn:Hopen; simpl; rewrite setIcon_eq by done; simpl;
    rewrite isOpen_setClassName, isOpen_toggle, Hopen by done; simpl;
    (split; [by apply sameTree_setClassName|]); (split; [done|]);
    by rewrite glyph_setClassName.
Qed.

Lemma closing_spec d :
  sameTree d →
  closedMenu (fst (setIcon w "ri-menu-line" (Dom.classList_remove d (navbar w) "active"))).
Proof.
  intros Hs. pose proof (sameTree_remove d (navbar w) "active" Hs) as Hs1.
  rewrite setIcon_eq by done. simpl. split; [by apply sameTree_setClassName|]. split.
  - by rewrite isOpen_setClassName, isOpen_remove.
  - by rewrite glyph_setClassName.
Qed.

Lemma onLinkClick_spec d : sameTree d → closedMenu (fst (onLinkClick w d)).
Proof. apply closing_spec. Qed.

Lemma onDocumentClick_outside d target :
  sameTree d →
  Dom.contains d0 (navbar w) target = false →
  Dom.contains d0 (mobileMenuToggle w) target = false →
  closedMenu (fst (onDocumentClick w target d)).
Proof.
  intros Hs Hb Ht. unfold onDocumentClick.
  rewrite !(skeleton_contains d d0), Hb, Ht by done. simpl. by apply closing_spec.
Qed.

Lemma onDocumentClick_inside d target :
  sameTree d →
  Dom.contains d0 (navbar w) target = true ∨
  Dom.contains d0 (mobileMenuToggle w) target = true →
  fst (onDocumentClick w target d) = d.
Proof.
  intros Hs H. unfold onDocumentClick. rewrite !(skeleton_contains d d0) by done.
  destruct H as [-> | ->]; simpl; [done|]. by rewrite andb_false_r.
Qed.

Lemma listenersAt_idle node d :
  node ≠ mobileMenuToggle w → node ∉ navLinks w → listenersAt w node d = d.
Proof.
  intros H1 H2. unfold listenersAt.
  by rewrite bool_decide_eq_false_2, bool_decide_eq_false_2.
Qed.

Lemma listenersAt_sameTree node d : sameTree d → sameTree (listenersAt w node d).
Proof.
  intros Hs. unfold listenersAt.
  set (d1 := if bool_decide (node = mobileMenuToggle w)
             then fst (onToggleClick w d) else d).
  assert (sameTree d1) as Hs1.
  { unfold d1. case_bool_decide; [|done]. by apply onToggleClick_spec. }
  clearbody d1. case_bool_decide; [|done]. by apply onLinkClick_spec.
Qed.

Lemma listenersAt_closed node d :
  node ≠ mobileMenuToggle w → closedMenu d → closedMenu (listenersAt w node d).
Proof.
  intros Hn Hc. unfold listenersAt.
  rewrite (bool_decide_eq_false_2 (node = mobileMenuToggle w)) by done.
  case_bool_decide; [|done]. apply onLinkClick_spec, Hc.
Qed.

Lemma path_idle (path : list nat) d :
  mobileMenuToggle w ∉ path → (∀ n, n ∈ path → n ∉ navLinks w) →
  foldl (λ d node, listenersAt w node d) d path = d.
Proof.
  intros Ht Hl. apply (foldl_invariant (λ d', d' = d)); [|done].
  intros d' n Hn ->. apply listenersAt_idle; [|by apply Hl].
  intros ->. done.
Qed.

Lemma path_toggle (path : list nat) d :
  NoDup path → mobileMenuToggle w ∈ path → (∀ n, n ∈ path → n ∉ navLinks w) →
  foldl (λ d node, listenersAt w node d) d path = fst (onToggleClick w d).
Proof.
  revert d. induction path as [|n path IH]; intros d Hnd Hin Hl.
  - by apply elem_of_nil in Hin.
  - apply NoDup_cons in Hnd as [Hn Hnd]. cbn [foldl fold_left].
    assert (n ∉ navLinks w) as Hnl by (apply Hl; left).
    destruct (decide (n = mobileMenuToggle w)) as [->|Hne'].
    + rewrite path_idle; [|done|intros; apply Hl; by right].
      unfold listenersAt.
      rewrite (bool_decide_eq_true_2 (mobileMenuToggle w = mobileMenuToggle w)) by done.
      by rewrite (bool_decide_eq_false_2 (mobileMenuToggle w ∈ navLinks w)).
    + rewrite listenersAt_idle by done. apply IH; [done| |intros; apply Hl; by right].
      apply elem_of_cons in Hin as [?|?]; [congruence | done].
Qed.

Lemma path_sameTree (path : list nat) d :
  sameTree d → sameTree (foldl (λ d node, listenersAt w node d) d path).
Proof.
  intros Hs. apply (foldl_invariant sameTree); [|done].
  intros d' n _. apply listenersAt_sameTree.
Qed.

Lemma path_closed (path : list nat) d :
  mobileMenuToggle w ∉ path → closedMenu d →
  closedMenu (foldl (λ d node, listenersAt w node d) d path).
Proof.
  intros Ht Hc. apply (foldl_invariant closedMenu); [|done].
  intros d' n Hn. apply listenersAt_closed. by intros ->.
Qed.

Lemma path_link (path : list nat) d l :
  mobileMenuToggle w ∉ path → sameTree d → l ∈ path → l ∈ navLinks w →
  closedMenu (foldl (λ d node, listenersAt w node d) d path).
Proof.
  revert d. induction path as [|n path IH]; intros d Ht Hs Hin Hl.
  - by apply elem_of_nil in Hin.
  - apply not_elem_of_cons in Ht as [Hn Ht]. cbn [foldl fold_left].
    destruct (decide (n ∈ navLinks w)) as [Hnl|Hnl].
    + apply path_closed; [done|]. unfold listenersAt.
      rewrite (bool_decide_eq_false_2 (n = mobileMenuToggle w)) by done.
      rewrite (bool_decide_eq_true_2 (n ∈ navLinks w)) by done.
      by apply onLinkClick_spec.
    + rewrite listenersAt_idle by done. apply IH; try done.
      apply elem_of_cons in Hin as [->|?]; done.
Qed.

Lemma menu_toggle_wired (d : Document) :
  Dom.well_formed d0 = true →
  sameTree d →
  (∀ target,
     Dom.contains d0 (mobileMenuToggle w) target = true →
     (∀ l, l ∈ navLinks w → Dom.contains d0 l target = false) →
     let d' := click w target d in
     isOpen w d' = negb (isOpen w d) ∧
     classList <$> d' !! icon
     = Some [if isOpen w d' then "ri-close-line" else "ri-menu-line"]) ∧
  (∀ target l,
     l ∈ navLinks w → Dom.contains d0 l target = true →
     Dom.contains d0 (mobileMenuToggle w) target = false →
     let d' := click w target d in
     isOpen w d' = false ∧ classList <$> d' !! icon = Some ["ri-menu-line"]) ∧
  (∀ target,
     Dom.contains d0 (navbar w) target = false →
     Dom.contains d0 (mobileMenuToggle w) target = false →
     let d' := click w target d in
     isOpen w d' = false ∧ classList <$> d' !! icon = Some ["ri-menu-line"]).
Proof.
  intros Hwf Hs.
  assert (Hpath : ∀ target, target :: Dom.ancestors d target
                            = target :: Dom.ancestors d0 target).
  { intros target. by rewrite (skeleton_ancestors d d0). }
  split; [|split].
  - intros target Ht Hl. simpl. unfold click. rewrite Hpath.
    rewrite path_toggle.
    + destruct (onToggleClick_spec d Hs) as (Hs'&Ho&Hg).
      rewrite onDocumentClick_inside by auto. auto.
    + by apply path_NoDup.
    + by apply bool_decide_eq_true in Ht.
    + intros n Hn Hin. specialize (Hl n Hin).
      by apply bool_decide_eq_false in Hl.
  - intros target l Hl Hin Ht. simpl. unfold click. rewrite Hpath.
    apply bool_decide_eq_true in Hin. apply bool_decide_eq_false in Ht.
    pose proof (path_link _ d l Ht Hs Hin Hl) as Hc.
    set (d1 := foldl _ d _) in *.
    destruct (Dom.contains d0 (navbar w) target) eqn:Hb.
    + rewrite onDocumentClick_inside by (apply Hc || auto). by destruct Hc as (_&?&?).
    + destruct (onDocumentClick_outside d1 target) as (_&?&?); try done; try apply Hc.
      by apply bool_decide_eq_false.
  - intros target Hb Ht. simpl. unfold click. rewrite Hpath.
    destruct (onDocumentClick_outside
                (foldl (λ d node, listenersAt w node d) d
                       (target :: Dom.ancestors d0 target)) target) as (_&?&?);
      try done.
    by apply path_sameTree.
Qed.
End Menu.

(** C8. The wiring [w] and the icon are those of the loaded document [d0];
    [d] is the current document, with the same elements and possibly other
    classes.  A click on the trigger (inside it, and not inside a navigation
    link) flips the panel's [active] class and sets the icon to the close
    glyph if the panel is now open, else to the menu glyph.  A click inside
    a navigation link (and not inside the trigger) leaves the panel closed
    and the icon on the menu glyph, and so does a click outside both the
    panel and the trigger.  Whether the panel is open is read from the
    panel's class list in [d]. *)
Theorem menu_toggle (d0 d : Document) (w : MobileMenu.Wiring) (icon : nat) :
  MobileMenu.wire d0 = Some w →
  Css.querySelectorIn d0 (MobileMenu.mobileMenuToggle w) "i" = Some (Some icon) →
  icon ≠ MobileMenu.navbar w →
  Dom.well_formed d0 = true →
  skeleton d = skeleton d0 →
  (∀ target,
     Dom.contains d0 (MobileMenu.mobileMenuToggle w) target = true →
     (∀ l, l ∈ MobileMenu.navLinks w → Dom.contains d0 l target = false) →
     let d' := MobileMenu.click w target d in
     MobileMenu.isOpen w d' = negb (MobileMenu.isOpen w d) ∧
     classList <$> d' !! icon
     = Some [if MobileMenu.isOpen w d' then "ri-close-line" else "ri-menu-line"]) ∧
  (∀ target l,
     l ∈ MobileMenu.navLinks w → Dom.contains d0 l target = true →
     Dom.contains d0 (MobileMenu.mobileMenuToggle w) target = false →
     let d' := MobileMenu.click w target d in
     MobileMenu.isOpen w d' = false ∧ classList <$> d' !! icon = Some ["ri-menu-line"]) ∧
  (∀ target,
     Dom.contains d0 (MobileMenu.navbar w) target = false →
     Dom.contains d0 (MobileMenu.mobileMenuToggle w) target = false →
     let d' := MobileMenu.click w target d in
     MobileMenu.isOpen w d' = false ∧ classList <$> d' !! icon = Some ["ri-menu-line"]).
Proof.
  intros Hwire Hicon Hne Hwf Hs. by apply (menu_toggle_wired d0 w icon).
Qed.

(** On the sample navigation page: opening through the icon, then a click
    on the link, and a click on the main area of the opened page. *)
Lemma menu_toggle_witness :
  let w := MobileMenu.mkWiring 4 1 [3] in
  let opened := MobileMenu.click w 5 Sample.menu in
  MobileMenu.wire Sample.menu = Some w ∧
  MobileMenu.isOpen w Sample.menu = false ∧
  MobileMenu.isOpen w opened = true ∧
  classList <$> opened !! 5 = Some ["ri-close-line"] ∧
  MobileMenu.isOpen w (MobileMenu.click w 3 opened) = false ∧
  classList <$> MobileMenu.click w 3 opened !! 5 = Some ["ri-menu-line"] ∧
  MobileMenu.isOpen w (MobileMenu.click w 6 opened) = false ∧
  classList <$> MobileMenu.click w 6 opened !! 5 = Some ["ri-menu-line"].
Proof.
  intros w opened.
  assert (Hw : MobileMenu.wire Sample.menu = Some w) by (vm_compute; reflexivity).
  assert (Hi : Css.querySelectorIn Sample.menu (MobileMenu.mobileMenuToggle w) "i"
               = Some (Some 5)) by (vm_compute; reflexivity).
  assert (Hn : 5 ≠ MobileMenu.navbar w) by (simpl; lia).
  assert (Hwf : Dom.well_formed Sample.menu = true) by (vm_compute; reflexivity).
  destruct (menu_toggle Sample.menu Sample.menu w 5 Hw Hi Hn Hwf eq_refl) as (Ht&_&_).
  destruct (Ht 5) as (Ho&Hg).
  { vm_compute. reflexivity. }
  { intros l [->|[]%elem_of_nil]%elem_of_cons. vm_compute. reflexivity. }
  assert (Hs : skeleton opened = skeleton Sample.menu) by (vm_compute; reflexivity).
  destruct (menu_toggle Sample.menu opened w 5 Hw Hi Hn Hwf Hs) as (_&Hl&Hd).
  destruct (Hl 3 3) as (Hlo&Hlg); [left | vm_compute; reflexivity | vm_compute; reflexivity |].
  destruct (Hd 6) as (Hdo&Hdg); [vm_compute; reflexivity | vm_compute; reflexivity |].
  split; [exact Hw|]. split; [vm_compute; reflexivity|].
  split; [exact Ho|]. split; [exact Hg|].
  split; [exact Hlo|]. split; [exact Hlg|]. split; [exact Hdo | exact Hdg].
Defined.


(** * Further properties of the activator *)

Section ActivatorMore.
Import ScrollAnimation.
Implicit Types (d : Document) (e : nat) (s : State).

Lemma wanted_spec d e :
  e ∈ wanted d ↔
  e ∈ matched d ∧ marked d e = false ∧ isElementExcluded d e = Some false.
Proof.
  rewrite elem_of_wanted, isElementExcluded_excluded. unfold watchable.
  rewrite andb_true_iff, !negb_true_iff. split.
  - intros (?&?&->). done.
  - intros (?&?&[= ->]). done.
Qed.

Lemma scanned_hasAnimationClass d e :
  e ∈ wanted d → hasAnimationClass (scanned d) e = true.
Proof.
  intros He.
  destruct (lookup_lt_is_Some_2 d e) as [el Hel].
  { apply elem_of_wanted in He as [He _]. by eapply matchedBy_bound. }
  rewrite (hasAnimationClass_lookup (scanned d) e (ensureAnimation el)).
  - apply ensureAnimation_has.
  - by rewrite scanned_lookup, bool_decide_eq_true_2, Hel.
Qed.

(** X1. After [init] in a browser with the observer, the watched elements
    are exactly those selected by some inclusion selector that carry no
    marker and match no exclusion selector.  Each of them has one of the
    animation classes; [fade-in-up] is added exactly to the watched elements
    that had none, no other class is added or removed anywhere, and no
    attribute changes. *)
Theorem init_watches_exactly (d : Document) (e : nat) :
  let s := started d in
  snd (init true (page d)) = Normal ∧
  (observed s e = true ↔
     e ∈ matched d ∧ marked d e = false ∧ isElementExcluded d e = Some false) ∧
  (observed s e = true → hasAnimationClass (document s) e = true) ∧
  attributes <$> document s = attributes <$> d ∧
  (∀ el, d !! e = Some el →
     ∃ el', document s !! e = Some el' ∧
            ∀ c, c ∈ classList el' ↔
                 c ∈ classList el ∨
                 (c = "fade-in-up" ∧ observed s e = true ∧ hasAnimationClass d e = false)).
Proof.
  unfold started. rewrite init_eq. cbn [fst snd document].
  assert (Hobs : observed (mkState (scanned d) (Some (foldl addTarget [] (wanted d)))
                                   [] [] [MutationHook; ResizeHook] []) e = true
                 ↔ e ∈ wanted d).
  { unfold observed. cbn [observer]. rewrite bool_decide_eq_true, elem_of_addTargets.
    rewrite elem_of_nil. tauto. }
  split; [done|]. split; [etrans; [exact Hobs | apply wanted_spec]|].
  split; [intros Ho; by apply scanned_hasAnimationClass, Hobs|].
  split; [symmetry; apply akin_scanned|].
  intros el Hel. rewrite scanned_lookup, Hel.
  rewrite (hasAnimationClass_lookup d e el Hel).
  case_bool_decide as Hw; cbn [fmap option_fmap option_map].
  - eexists. split; [done|]. intros c. unfold ensureAnimation.
    destruct (existsb (Dom.contains_class el) animationClasses) eqn:Hh.
    + split; [by left | by intros [?|(_&_&?)]].
    + rewrite add_class_elem. split; [intros [->|?]; [right | by left] |].
      * split; [done|]. split; [by apply Hobs | done].
      * intros [?|(->&_)]; [by right | by left].
  - exists el. split; [done|]. intros c. split; [by left|].
    intros [?|(_&Ho&_)]; [done|]. by apply Hobs in Ho.
Qed.

(** On the sample page the card is watched and receives the default class;
    the section is watched too. *)
Lemma init_watches_exactly_witness :
  observed (started Sample.document) 1 = true ∧
  hasAnimationClass (document (started Sample.document)) 1 = true ∧
  classList <$> document (started Sample.document) !! 1 = Some ["card"; "fade-in-up"].
Proof.
  destruct (init_watches_exactly Sample.document 1) as (_&Hw&Hc&_&_).
  assert (observed (started Sample.document) 1 = true) as Ho.
  { apply Hw. split; [|split; vm_compute; reflexivity].
    replace (matched Sample.document) with [3; 4; 1; 2; 1; 5] by (vm_compute; reflexivity).
    do 2 right. left. }
  split; [exact Ho|]. split; [exact (Hc Ho)|]. vm_compute. reflexivity.
Defined.

(** X2. Without an observer ([this.observer] undefined, as in the fallback
    mode) [observeElements] watches nothing.  It still gives the default
    animation class to every included, unmarked, non-excluded element, and
    then throws a [TypeError] exactly when there is such an element;
    otherwise it completes normally. *)
Theorem observeElements_without_observer (s : State) :
  observer s = None →
  let r := observeElements s in
  observer (fst r) = None ∧
  document (fst r) = scanned (document s) ∧
  (∀ e, e ∈ wanted (document s) → hasAnimationClass (document (fst r)) e = true) ∧
  (snd r = Throw TypeError ↔ ∃ e, e ∈ matched (document s) ∧
                                marked (document s) e = false ∧
                                isElementExcluded (document s) e = Some false) ∧
  (snd r = Normal ↔ wanted (document s) = []).
Proof.
  intros Ho. cbv zeta. rewrite observeElements_eq, Ho. cbn [fst snd].
  split; [done|]. split; [done|]. split; [apply scanned_hasAnimationClass|].
  destruct (wanted (document s)) as [|x l] eqn:Hw.
  - split; [|done]. split; [done|]. intros (e&He). apply wanted_spec in He.
    rewrite Hw in He. by apply elem_of_nil in He.
  - split; [|done]. split; [|done]. intros _. exists x. apply wanted_spec.
    rewrite Hw. left.
Qed.

(** After the fallback reveal of the sample page a re-scan throws. *)
Lemma observeElements_without_observer_witness :
  let s := fst (runTimer FallbackReveal Sample.degraded) in
  observer s = None ∧ snd (observeElements s) = Throw TypeError ∧
  observer (fst (observeElements s)) = None.
Proof.
  intros s.
  assert (Ho : observer s = None) by (vm_compute; reflexivity).
  destruct (observeElements_without_observer s Ho) as (Hn&_&_&Ht&_).
  split; [exact Ho|]. split; [|exact Hn].
  apply Ht. exists 1. split; [|split; vm_compute; reflexivity].
  replace (matched (document s)) with [3; 4; 1; 2; 1; 5] by (vm_compute; reflexivity).
  do 2 right. left.
Defined.

Lemma unobserveAll_filter (targets l : list nat) :
  unobserveAll targets l = filter (λ x, x ∉ l) targets.
Proof.
  unfold unobserveAll. revert targets.
  induction l as [|e l IH]; intros targets; cbn [foldl fold_left].
  - symmetry. induction targets as [|t targets IHt]; [done|].
    rewrite filter_cons_True by apply not_elem_of_nil. by rewrite IHt.
  - rewrite IH, list_filter_filter. apply list_filter_iff.
    intros x. rewrite not_elem_of_cons. tauto.
Qed.

Lemma foldl_alter_same_elements (f : Element → Element) d (l l' : list nat) :
  (∀ el, f (f el) = f el) → (∀ x, x ∈ l ↔ x ∈ l') →
  foldl (λ d e, alter f e d) d l = foldl (λ d e, alter f e d) d l'.
Proof.
  intros Hf Hl. apply list_eq. intros e. rewrite !foldl_alter_lookup by done.
  by rewrite (bool_decide_ext _ _ (Hl e)).
Qed.

(** X3. A paint depends only on which elements have a pending callback, not
    on how often or in which order they were requested.  In particular a
    second notification for the same entries before the paint changes
    nothing. *)
Theorem paint_ignores_repetition (s : State) (q q' : list nat) (entries : list Entry) :
  (∀ x, x ∈ q ↔ x ∈ q') →
  runAnimationFrame (set_frameRequests q s) = runAnimationFrame (set_frameRequests q' s) ∧
  run s [Notify entries; Notify entries; Paint] = run s [Notify entries; Paint].
Proof.
  assert (Hgen : ∀ s q q', (∀ x, x ∈ q ↔ x ∈ q') →
            runAnimationFrame (set_frameRequests q s)
            = runAnimationFrame (set_frameRequests q' s)).
  { clear. intros s q q' Hq. rewrite !runAnimationFrame_eq. cbn [observer set_frameRequests
      document frameRequests timers hooks console].
    destruct (observer s) as [targets|].
    - rewrite (foldl_alter_same_elements activate _ q q') by (done || apply activate_idem).
      rewrite !unobserveAll_filter. do 2 f_equal.
      apply list_filter_iff. intros x. by rewrite Hq.
    - by rewrite (foldl_alter_same_elements (Dom.add_class "active") _ q q')
        by (done || apply add_class_idem). }
  intros Hq. split; [by apply Hgen|].
  cbn [run step]. rewrite !handleIntersection_eq. cbn [fst frameRequests set_frameRequests].
  set (i := intersecting entries).
  change (runAnimationFrame (set_frameRequests ((frameRequests s ++ i) ++ i) s)
          = runAnimationFrame (set_frameRequests (frameRequests s ++ i) s)).
  apply Hgen. intros x. rewrite !elem_of_app. tauto.
Qed.

(** The card of the sample page requested three times, in a different
    order. *)
Lemma paint_ignores_repetition_witness :
  runAnimationFrame (set_frameRequests [1; 5; 1; 1] Sample.watching)
  = runAnimationFrame (set_frameRequests [5; 1] Sample.watching).
Proof.
  apply (paint_ignores_repetition Sample.watching [1; 5; 1; 1] [5; 1] []).
  intros x. rewrite !elem_of_cons, elem_of_nil. tauto.
Defined.

(** X4. The scan-and-watch path only adds: along any run every element
    keeps its tag, its parent and all its classes, the only classes that can
    appear are [fade-in-up] and [active], and the only attribute that can
    change is the marker, which can only become ["true"]. *)
Theorem path_only_adds (s : State) (evs : list Event) (e : nat) (el : Element) :
  document s !! e = Some el →
  ∃ el', document (run s evs) !! e = Some el' ∧
         tagName el' = tagName el ∧ parentNode el' = parentNode el ∧
         (∀ c, c ∈ classList el → c ∈ classList el') ∧
         (∀ c, c ∈ classList el' → c ∈ classList el ∨ c = "fade-in-up" ∨ c = "active") ∧
         (∀ k, k ≠ "data-animated" → attributes el' !! k = attributes el !! k) ∧
         (attributes el' !! "data-animated" = attributes el !! "data-animated" ∨
          attributes el' !! "data-animated" = Some "true").
Proof.
  revert s el. induction evs as [|ev evs IH]; intros s el Hel.
  - exists el. cbn [run]. repeat split; auto.
  - cbn [run].
    assert (∃ el1, document (step s ev) !! e = Some el1 ∧
              tagName el1 = tagName el ∧ parentNode el1 = parentNode el ∧
              (∀ c, c ∈ classList el → c ∈ classList el1) ∧
              (∀ c, c ∈ classList el1 →
                    c ∈ classList el ∨ c = "fade-in-up" ∨ c = "active") ∧
              (∀ k, k ≠ "data-animated" → attributes el1 !! k = attributes el !! k) ∧
              (attributes el1 !! "data-animated" = attributes el !! "data-animated" ∨
               attributes el1 !! "data-animated" = Some "true"))
      as (el1&Hel1&Ht1&Hp1&Hc1&Hd1&Ha1&Hm1).
    { destruct ev as [entries| |]; cbn [step].
      - rewrite handleIntersection_eq. cbn [fst document set_frameRequests].
        exists el. repeat split; auto.
      - rewrite runAnimationFrame_lookup, Hel. case_bool_decide.
        + exists (painted s el). split; [done|].
          unfold painted, activate. destruct (observer s); cbn.
          * rewrite add_class_tagName, add_class_parentNode, add_class_attributes.
            split; [done|]. split; [done|].
            split; [intros c ?; apply add_class_elem; by right|].
            split; [intros c [->|?]%add_class_elem; auto|].
            split; [intros k Hk; by rewrite lookup_insert_ne|].
            right. apply lookup_insert_eq.
          * rewrite add_class_tagName, add_class_parentNode, add_class_attributes.
            split; [done|]. split; [done|].
            split; [intros c ?; apply add_class_elem; by right|].
            split; [intros c [->|?]%add_class_elem; auto|]. auto.
        + exists el. repeat split; auto.
      - rewrite observeElements_document.
        destruct (scanned_classes _ _ _ Hel) as (el1&Hel1&Hattr&Hcl).
        exists el1. split; [done|].
        destruct (akin_scanned (document s)) as [Hsim _].
        destruct (similar_lookup _ _ _ _ Hsim Hel) as (el2&Hel2&Ht&Hp&_).
        assert (el2 = el1) as -> by congruence.
        split; [done|]. split; [done|].
        split; [intros c ?; apply Hcl; by left|].
        split; [intros c [?|[-> _]]%Hcl; auto|].
        rewrite Hattr. auto. }
    destruct (IH (step s ev) el1 Hel1) as (el'&Hel'&Ht&Hp&Hc&Hd&Ha&Hm).
    exists el'. split; [done|]. split; [congruence|]. split; [congruence|].
    split; [auto|]. split.
    { intros c [Hin|[->| ->]]%Hd; auto. }
    split; [intros k Hk; by rewrite Ha, Ha1|].
    destruct Hm as [Hm|Hm]; [rewrite Hm; exact Hm1 | by right].
Qed.

(** The card of the sample page along a run. *)
Lemma path_only_adds_witness :
  ∃ el', document (run Sample.watching [Notify [mkEntry 1 true]; Paint; Rescan]) !! 1
         = Some el' ∧ "card" ∈ classList el'.
Proof.
  destruct (path_only_adds Sample.watching [Notify [mkEntry 1 true]; Paint; Rescan] 1
              (Sample.element "DIV" ["card"; "fade-in-up"] (Some 0)))
    as (el'&Hel'&_&_&Hc&_).
  - vm_compute. reflexivity.
  - exists el'. split; [exact Hel'|]. apply Hc. left.
Defined.

(** X5. [resetAnimations] leaves alone every element that no inclusion
    selector selects: its classes and attributes (an activation obtained
    through [triggerAnimation] included) and its observation status are
    unchanged, and pending paint callbacks are not cancelled. *)
Theorem reset_leaves_unselected (s : State) (e : nat) :
  e ∉ matched (document s) →
  let s' := fst (resetAnimations s) in
  document s' !! e = document s !! e ∧
  observed s' e = observed s e ∧
  frameRequests s' = frameRequests s.
Proof.
  intros He. cbv zeta. rewrite resetAnimations_eq.
  rewrite observeElements_document, observeElements_observed, observeElements_frameRequests.
  cbn [document observer frameRequests set_document].
  assert (e ∉ wanted (wiped (document s))) as Hw.
  { rewrite wanted_wiped. tauto. }
  split; [|split; [|done]].
  - by rewrite scanned_lookup, bool_decide_eq_false_2, wiped_lookup, bool_decide_eq_false_2.
  - rewrite (bool_decide_eq_false_2 _ Hw). unfold observed. cbn [observer set_document].
    destruct (observer s); [apply orb_false_r | done].
Qed.

(** The footer links of the sample page, force-activated, survive a
    reset. *)
Lemma reset_leaves_unselected_witness :
  let s := fst (triggerAnimation (inl ".footer__bottom-links") Sample.watching) in
  let s' := fst (resetAnimations s) in
  active (document s) 6 = true ∧ marked (document s) 6 = true ∧
  document s' !! 6 = document s !! 6.
Proof.
  intros s s'. split; [vm_compute; reflexivity|]. split; [vm_compute; reflexivity|].
  destruct (reset_leaves_unselected s 6) as (H&_&_); [|exact H].
  replace (matched (document s)) with [3; 4; 1; 2; 1; 5] by (vm_compute; reflexivity).
  rewrite !elem_of_cons, elem_of_nil. lia.
Defined.

(** X6. A paint callback requested before [resetAnimations] survives the
    reset: at the next paint its element is activated and released again,
    without any new notification. *)
Theorem reset_keeps_pending_paint (s : State) (e : nat) :
  pendingAt e s →
  let s' := fst (resetAnimations s) in
  pendingAt e s' ∧ settledAt e (step s' Paint).
Proof.
  intros (Hq&Ho&Hl). cbv zeta.
  assert (pendingAt e (fst (resetAnimations s))) as Hp.
  { rewrite resetAnimations_eq. split; [|split].
    - by rewrite observeElements_frameRequests.
    - rewrite observeElements_observer. cbn [observer set_document].
      destruct Ho as [t ->]. by eexists.
    - rewrite observeElements_document, scanned_length. cbn [document set_document].
      by rewrite <- (similar_length _ _ (similar_wiped (document s))). }
  split; [done|]. by apply paint_pending.
Qed.

(** The card of the sample page, reported and then reset before the
    paint. *)
Lemma reset_keeps_pending_paint_witness :
  let s := step Sample.watching (Notify [mkEntry 1 true]) in
  let s' := fst (resetAnimations s) in
  active (document s') 1 = false ∧ settledAt 1 (step s' Paint).
Proof.
  intros s s'. split; [vm_compute; reflexivity|].
  apply (reset_keeps_pending_paint s 1).
  split; [vm_compute; left|]. split; [vm_compute; by eexists | vm_compute; lia].
Defined.


End ActivatorMore.


(** * Dynamic content: the mutation callback *)

Module DynamicContent.
Import ScrollAnimation.

(** [mutation.type] *)
Inductive MutationType := ChildList | Attributes | CharacterData.

(** An added node, as far as the callback looks at it: an element of the
    document ([nodeType === Node.ELEMENT_NODE]) or something else (text,
    comment). *)
Inductive Node :=
| ElementNode (element : nat)
| OtherNode.

Record MutationRecord := mkRecord {
  recordType : MutationType;
  addedNodes : list Node;
}.

(** The body of the inner [forEach]; the state is the local variable
    [shouldReobserve].  [&&] evaluates [isElementExcluded] only when
    [shouldAnimateElement] holds. *)
Definition inspectNode (d : Document) (node : Node) (shouldReobserve : bool)
  : bool * Completion :=
  match node with
  | ElementNode element =>
      if shouldAnimateElement d element then
        match isElementExcluded d element with
        | None => (shouldReobserve, Throw SyntaxError)
        | Some isExcluded =>
            (if negb isExcluded then true else shouldReobserve, Normal)
        end
      else (shouldReobserve, Normal)
  | OtherNode => (shouldReobserve, Normal)
  end.

Definition inspectRecord (d : Document) (mutation : MutationRecord)
           (shouldReobserve : bool) : bool * Completion :=
  match recordType mutation with
  | ChildList => forEach (addedNodes mutation) (inspectNode d) shouldReobserve
  | _ => (shouldReobserve, Normal)
  end.

(** The callback given to [MutationObserver] by [handleDynamicContent]; the
    document already contains the added nodes. *)
Definition onMutations (mutations : list MutationRecord) (s : State)
  : State * Completion :=
  match forEach mutations (inspectRecord (document s)) false with
  | (true, Normal) => observeElements s
  | (false, Normal) => (s, Normal)
  | (_, Throw err) => (s, Throw err)
  end.

End DynamicContent.

Section DynamicContentFacts.
Import ScrollAnimation DynamicContent.
Implicit Types (d : Document) (e : nat) (s : State).

(** The added node passes the gate of the callback. *)
Definition qualifies d (node : Node) : bool :=
  match node with
  | ElementNode e => shouldAnimateElement d e && negb (excluded d e)
  | OtherNode => false
  end.

Definition recordQualifies d (mutation : MutationRecord) : bool :=
  match recordType mutation with
  | ChildList => existsb (qualifies d) (addedNodes mutation)
  | _ => false
  end.

Lemma inspectNode_eq d node flag :
  inspectNode d node flag = (flag || qualifies d node, Normal).
Proof.
  destruct node as [e|]; cbn [inspectNode qualifies]; [|by rewrite orb_false_r].
  rewrite isElementExcluded_excluded.
  destruct (shouldAnimateElement d e); cbn; [|by rewrite orb_false_r].
  destruct (excluded d e); cbn; [by rewrite orb_false_r | by rewrite orb_true_r].
Qed.

Lemma inspectNodes_eq d nodes flag :
  forEach nodes (inspectNode d) flag = (flag || existsb (qualifies d) nodes, Normal).
Proof.
  revert flag. induction nodes as [|n nodes IH]; intros flag; cbn [forEach existsb].
  - by rewrite orb_false_r.
  - rewrite inspectNode_eq, IH. by rewrite orb_assoc.
Qed.

Lemma inspectRecords_eq d mutations flag :
  forEach mutations (inspectRecord d) flag
  = (flag || existsb (recordQualifies d) mutations, Normal).
Proof.
  revert flag. induction mutations as [|m mutations IH]; intros flag;
    cbn [forEach existsb].
  - by rewrite orb_false_r.
  - assert (inspectRecord d m flag = (flag || recordQualifies d m, Normal)) as ->.
    { unfold inspectRecord, recordQualifies.
      destruct (recordType m); [apply inspectNodes_eq | |]; by rewrite orb_false_r. }
    rewrite IH. by rewrite orb_assoc.
Qed.

(** X8. The mutation callback re-scans (once) exactly when some record of
    type [childList] has an added element node that passes
    [shouldAnimateElement] and is not excluded; in every other case (text
    nodes, other record types, excluded or unlisted elements) it leaves the
    state untouched.  It never throws when the observer exists. *)
Theorem onMutations_gate (mutations : list MutationRecord) (s : State) :
  onMutations mutations s
  = (if existsb (recordQualifies (document s)) mutations
     then observeElements s else (s, Normal)) ∧
  (is_Some (observer s) → snd (onMutations mutations s) = Normal) ∧
  ((∀ m node, m ∈ mutations → node ∈ addedNodes m →
              recordType m = ChildList → qualifies (document s) node = false) →
   onMutations mutations s = (s, Normal)).
Proof.
  assert (Heq : onMutations mutations s
                = (if existsb (recordQualifies (document s)) mutations
                   then observeElements s else (s, Normal))).
  { unfold onMutations. rewrite inspectRecords_eq. cbn [orb].
    by destruct (existsb _ mutations). }
  split; [exact Heq|]. split.
  - intros [targets Ho]. rewrite Heq. destruct (existsb _ mutations); [|done].
    rewrite observeElements_eq, Ho. done.
  - intros Hno. rewrite Heq.
    assert (existsb (recordQualifies (document s)) mutations = false) as ->; [|done].
    apply not_true_iff_false. intros (m&Hm&Hq)%existsb_exists.
    unfold recordQualifies in Hq. destruct (recordType m) eqn:Ht; try done.
    apply existsb_exists in Hq as (node&Hn&Hq).
    rewrite (Hno m node) in Hq; try done; by apply list_elem_of_In.
Qed.

(** On the sample page, inserting the excluded paragraph with a text node
    does not re-scan; inserting the card does. *)
Lemma onMutations_gate_witness :
  let s := set_observer (Some []) (page Sample.document) in
  onMutations [mkRecord ChildList [OtherNode; ElementNode 3];
               mkRecord Attributes [ElementNode 1]] s = (s, Normal) ∧
  onMutations [mkRecord ChildList [ElementNode 1]] s = observeElements s.
Proof.
  intros s.
  destruct (onMutations_gate [mkRecord ChildList [OtherNode; ElementNode 3];
                              mkRecord Attributes [ElementNode 1]] s) as (_&_&Hno).
  split.
  - apply Hno. intros m node Hm Hn Ht.
    apply elem_of_cons in Hm as [->|Hm].
    + cbn [addedNodes] in Hn.
      apply elem_of_cons in Hn as [->|[->|[]%elem_of_nil]%elem_of_cons];
        vm_compute; reflexivity.
    + apply elem_of_cons in Hm as [->|[]%elem_of_nil]. discriminate.
  - destruct (onMutations_gate [mkRecord ChildList [ElementNode 1]] s) as (->&_&_).
    vm_compute. reflexivity.
Defined.

(** *** The gate against the scan *)

(** The inclusion selectors the hand-written test reads as the engine does:
    a bare tag name or a single class. *)
Definition plainForm (selector : string) : bool :=
  match Css.parse selector with
  | Some [Css.mkComplex [Css.Pos (Css.AType name)] []] =>
      negb (JsString.startsWith selector ".") && bool_decide (name = selector)
  | Some [Css.mkComplex [Css.Pos (Css.AClass c)] []] =>
      JsString.startsWith selector "." && bool_decide (c = JsString.slice1 selector)
  | _ => false
  end.

Definition compoundTarget : string := ".footer__section:not(.footer__bottom)".

Lemma targetElements_forms :
  forallb (λ sel, plainForm sel || bool_decide (sel = compoundTarget)) targetElements
  = true.
Proof. vm_compute. reflexivity. Qed.

Lemma elem_of_querySelectorAll d selector sl els e :
  Css.parse selector = Some sl →
  Css.querySelectorAll d selector = Some els →
  e ∈ els ↔ e < length d ∧ Css.matches d sl e = true.
Proof.
  intros Hp. unfold Css.querySelectorAll. rewrite Hp. cbn. intros [= <-].
  rewrite list_elem_of_In, filter_In, in_seq. split; [intros [? ?] | intros [? ?]];
    (split; [lia | done]).
Qed.

Lemma matches_class d (c : string) e :
  Css.matches d [Css.mkComplex [Css.Pos (Css.AClass c)] []] e
  = Dom.classList_contains d e c.
Proof.
  unfold Css.matches, Css.matches_complex, Css.compound_at, Dom.classList_contains.
  cbn. destruct (d !! e); cbn; [|done]. by rewrite !andb_true_r, orb_false_r.
Qed.

Lemma namedBy_plain d selector e :
  plainForm selector = true → e < length d →
  namedBy d e selector = true ↔
  ∃ els, Css.querySelectorAll d selector = Some els ∧ e ∈ els.
Proof.
  intros Hf Hl. unfold plainForm in Hf.
  destruct (Css.parse selector) as [sl|] eqn:Hp; [|done].
  assert (Hq : Css.querySelectorAll d selector
               = Some (List.filter (Css.matches d sl) (seq 0 (length d)))).
  { unfold Css.querySelectorAll. by rewrite Hp. }
  assert (Hiff : (∃ els, Css.querySelectorAll d selector = Some els ∧ e ∈ els)
                 ↔ Css.matches d sl e = true).
  { split.
    - intros (els&Hels&He). by apply (elem_of_querySelectorAll d selector sl els e Hp Hels).
    - intros Hm. eexists. split; [exact Hq|].
      by apply (elem_of_querySelectorAll d selector sl _ e Hp Hq). }
  rewrite Hiff. clear Hiff Hq.
  destruct sl as [|[[|[[name| |c]|] [|]] [|]] [|]]; try done.
  - apply andb_true_iff in Hf as [Hs ->%bool_decide_eq_true].
    apply negb_true_iff in Hs. unfold namedBy. rewrite Hs, matches_type.
    unfold tagNameOf. destruct (lookup_lt_is_Some_2 d e Hl) as [el ->].
    rewrite !bool_decide_eq_true. split; congruence.
  - apply andb_true_iff in Hf as [Hs ->%bool_decide_eq_true].
    unfold namedBy. by rewrite Hs, matches_class.
Qed.

(** X9. The gate of the mutation callback and the scan read the inclusion
    list differently in one place.  An element that passes
    [shouldAnimateElement] is selected by an inclusion selector, unless it
    passes only through a class literally named
    [footer__section:not(.footer__bottom)].  Conversely, an element that the
    scan selects and the gate rejects is one selected only as a
    [.footer__section] that is not a [.footer__bottom]: inserting just such
    an element does not make the callback re-scan. *)
Theorem gate_against_scan (d : Document) (e : nat) :
  e < length d →
  (shouldAnimateElement d e = true →
   Dom.classList_contains d e "footer__section:not(.footer__bottom)" = false →
   e ∈ matched d) ∧
  (e ∈ matched d → shouldAnimateElement d e = false →
   Dom.classList_contains d e "footer__section" = true ∧
   Dom.classList_contains d e "footer__bottom" = false).
Proof.
  intros Hl. pose proof targetElements_forms as Hforms. rewrite forallb_forall in Hforms.
  split.
  - intros (sel&Hin&Hn)%existsb_exists Hlit.
    specialize (Hforms sel Hin). apply orb_true_iff in Hforms as [Hplain|Hc].
    + apply elem_of_matchedBy.
      apply (namedBy_plain d sel e Hplain Hl) in Hn as (els&Hels&He).
      exists sel, els. by rewrite list_elem_of_In.
    + apply bool_decide_eq_true in Hc as ->.
      change (namedBy d e compoundTarget)
        with (Dom.classList_contains d e "footer__section:not(.footer__bottom)") in Hn.
      congruence.
  - intros (sel&els&Hin&Hels&He)%elem_of_matchedBy Hgate.
    apply list_elem_of_In in Hin. specialize (Hforms sel Hin).
    apply orb_true_iff in Hforms as [Hplain|Hc].
    + exfalso. apply not_true_iff_false in Hgate. apply Hgate.
      apply existsb_exists. exists sel. split; [done|].
      apply (namedBy_plain d sel e Hplain Hl). by exists els.
    + apply bool_decide_eq_true in Hc as ->.
      apply (elem_of_querySelectorAll d compoundTarget
               [Css.mkComplex [Css.Pos (Css.AClass "footer__section");
                               Css.Neg (Css.AClass "footer__bottom")] []] els e)
        in He as [_ Hm]; [|vm_compute; reflexivity | done].
      unfold Css.matches, Css.matches_complex, Css.compound_at in Hm.
      unfold Dom.classList_contains. destruct (d !! e) as [el|]; [|done].
      cbn in Hm. rewrite !andb_true_r, orb_false_r in Hm.
      apply andb_true_iff in Hm as [H1 H2]. by apply negb_true_iff in H2.
Qed.

(** The section of the sample page: the scan watches it, the gate does not
    see it, so inserting it alone leaves it unwatched. *)
Lemma gate_against_scan_witness :
  let s := set_observer (Some []) (page Sample.document) in
  5 ∈ matched Sample.document ∧
  shouldAnimateElement Sample.document 5 = false ∧
  Dom.classList_contains Sample.document 5 "footer__section" = true ∧
  observed (fst (onMutations [mkRecord ChildList [ElementNode 5]] s)) 5 = false ∧
  observed (fst (observeElements s)) 5 = true.
Proof.
  intros s.
  assert (H5 : 5 ∈ matched Sample.document).
  { replace (matched Sample.document) with [3; 4; 1; 2; 1; 5] by (vm_compute; reflexivity).
    do 5 right. left. }
  assert (Hg : shouldAnimateElement Sample.document 5 = false) by (vm_compute; reflexivity).
  destruct (gate_against_scan Sample.document 5) as (_&Hb); [vm_compute; lia|].
  destruct (Hb H5 Hg) as (Hc&_).
  split; [exact H5|]. split; [exact Hg|]. split; [exact Hc|].
  split; vm_compute; reflexivity.
Defined.
End DynamicContentFacts.


(** * Further properties of the mobile menu *)

Section MenuWiring.
Import MobileMenu.
Implicit Types (d : Document) (e : nat).

(** The click as the page sees it: the listeners exist only if the
    [DOMContentLoaded] handler found both elements in the loaded document
    [d0]. *)
Definition pageClick (d0 : Document) (target : nat) d : Document :=
  match wire d0 with
  | Some w => click w target d
  | None => d
  end.

Lemma head_filter_None {A : Type} (test : A → bool) (l : list A) :
  head (List.filter test l) = None ↔ ∀ x, x ∈ l → test x = false.
Proof.
  induction l as [|a l IH]; cbn [List.filter].
  - split; [by intros _ x ?%elem_of_nil | done].
  - destruct (test a) eqn:Ha; cbn [head].
    + split; [done|]. intros H. rewrite H in Ha; [done | left].
    + rewrite IH. split.
      * intros H x [->|?]%elem_of_cons; auto.
      * intros H x ?. apply H. by right.
Qed.

Lemma querySelector_class d (c selector : string) :
  Css.parse selector = Some [Css.mkComplex [Css.Pos (Css.AClass c)] []] →
  Css.querySelector d selector
  = Some (head (List.filter (λ e, Dom.classList_contains d e c) (seq 0 (length d)))).
Proof.
  intros Hp. unfold Css.querySelector, Css.querySelectorAll. rewrite Hp. cbn.
  do 2 f_equal. apply List.filter_ext. intros e. apply matches_class.
Qed.

Lemma no_class_anywhere d (c : string) :
  (∀ e, e ∈ seq 0 (length d) → Dom.classList_contains d e c = false) ↔
  (∀ e, Dom.classList_contains d e c = false).
Proof.
  split; [|auto]. intros H e. destruct (decide (e < length d)) as [Hl|Hl].
  - apply H, list_elem_of_In, in_seq. lia.
  - unfold Dom.classList_contains. rewrite (proj2 (lookup_ge_None d e)); [done | lia].
Qed.

Lemma head_filter_seq (test : nat → bool) (start n x : nat) :
  head (List.filter test (seq start n)) = Some x →
  test x = true ∧ ∀ e, (start ≤ e)%nat → e < x → test e = false.
Proof.
  revert start. induction n as [|n IH]; intros start; cbn [seq List.filter]; [done|].
  destruct (test start) eqn:Hs; cbn [head].
  - intros [= <-]. split; [done|]. intros e ? ?. lia.
  - intros [Hx Hbefore]%IH. split; [done|]. intros e Hge Hlt.
    destruct (decide (e = start)) as [->|]; [done|]. apply Hbefore; lia.
Qed.

(** X10. The menu is wired exactly when the loaded document has an element
    with class [mobile-menu-toggle] and one with class [navbar]: the wiring
    then holds the first of each in tree order.  Otherwise no listener is
    added and clicks leave the document as it is. *)
Theorem menu_wiring (d0 : Document) :
  (wire d0 = None ↔
     (∀ e, Dom.classList_contains d0 e "mobile-menu-toggle" = false) ∨
     (∀ e, Dom.classList_contains d0 e "navbar" = false)) ∧
  (wire d0 = None → ∀ target d, pageClick d0 target d = d) ∧
  (∀ w, wire d0 = Some w →
     Dom.classList_contains d0 (mobileMenuToggle w) "mobile-menu-toggle" = true ∧
     Dom.classList_contains d0 (navbar w) "navbar" = true ∧
     (∀ e, e < mobileMenuToggle w →
           Dom.classList_contains d0 e "mobile-menu-toggle" = false) ∧
     (∀ e, e < navbar w → Dom.classList_contains d0 e "navbar" = false) ∧
     Css.querySelectorAll d0 ".navbar .nav-list a" = Some (navLinks w)).
Proof.
  assert (Ht := querySelector_class d0 "mobile-menu-toggle" ".mobile-menu-toggle"
                  ltac:(vm_compute; reflexivity)).
  assert (Hb := querySelector_class d0 "navbar" ".navbar" ltac:(vm_compute; reflexivity)).
  assert (Hl : is_Some (Css.querySelectorAll d0 ".navbar .nav-list a")).
  { unfold Css.querySelectorAll.
    replace (Css.parse ".navbar .nav-list a")
      with (Some [Css.mkComplex [Css.Pos (Css.AType "a")]
                    [(Css.Descendant, [Css.Pos (Css.AClass "nav-list")]);
                     (Css.Descendant, [Css.Pos (Css.AClass "navbar")])]])
      by (vm_compute; reflexivity).
    by eexists. }
  destruct Hl as [links Hl].
  split; [|split].
  - unfold wire. rewrite Ht, Hb, Hl. rewrite <- !no_class_anywhere, <- !head_filter_None.
    destruct (head (List.filter (λ e, Dom.classList_contains d0 e "mobile-menu-toggle") _));
      destruct (head (List.filter (λ e, Dom.classList_contains d0 e "navbar") _));
      split; try done; try (intros [?|?]; done); auto.
  - intros Hw target d. unfold pageClick. by rewrite Hw.
  - intros w. unfold wire. rewrite Ht, Hb, Hl.
    destruct (head (List.filter (λ e, Dom.classList_contains d0 e "mobile-menu-toggle") _))
      as [t|] eqn:Hht; [|done].
    destruct (head (List.filter (λ e, Dom.classList_contains d0 e "navbar") _))
      as [b|] eqn:Hhb; [|done].
    intros [= <-]. cbn [mobileMenuToggle navbar navLinks].
    apply head_filter_seq in Hht as [Ht1 Ht2]. apply head_filter_seq in Hhb as [Hb1 Hb2].
    split; [done|]. split; [done|].
    split; [intros e ?; apply Ht2; lia|]. split; [intros e ?; apply Hb2; lia | done].
Qed.

(** The sample page without navigation is not wired; the sample menu page
    is. *)
Lemma menu_wiring_witness :
  wire Sample.document = None ∧
  pageClick Sample.document 1 Sample.document = Sample.document ∧
  Dom.classList_contains Sample.menu 4 "mobile-menu-toggle" = true.
Proof.
  destruct (menu_wiring Sample.document) as (Hnone&Hclick&_).
  assert (Hw : wire Sample.document = None).
  { apply Hnone. left. intros e. unfold Dom.classList_contains.
    do 7 (destruct e as [|e]; [vm_compute; reflexivity|]). reflexivity. }
  split; [exact Hw|]. split; [by apply Hclick|].
  destruct (menu_wiring Sample.menu) as (_&_&Hsome).
  destruct (Hsome (mkWiring 4 1 [3])) as (H&_); [vm_compute; reflexivity | exact H].
Defined.
End MenuWiring.

Section MenuFrame.
Import MobileMenu.
Implicit Types (d : Document) (e : nat).

Variables (d0 : Document) (w : Wiring) (icon : nat).
Hypothesis Hwire : wire d0 = Some w.
Hypothesis Hicon : Css.querySelectorIn d0 (mobileMenuToggle w) "i" = Some (Some icon).
Hypothesis Hne : icon ≠ navbar w.

(** What a click may change: the [active] class of the panel and the class
    list of the icon. *)
Definition menuFrame d d' : Prop :=
  skeleton d' = skeleton d ∧
  attributes <$> d' = attributes <$> d ∧
  (∀ e, e ≠ navbar w → e ≠ icon → d' !! e = d !! e) ∧
  (∀ c : string, c ≠ "active" →
     Dom.classList_contains d' (navbar w) c = Dom.classList_contains d (navbar w) c).

Lemma menuFrame_refl d : menuFrame d d.
Proof. by repeat split. Qed.

Lemma menuFrame_trans d1 d2 d3 : menuFrame d1 d2 → menuFrame d2 d3 → menuFrame d1 d3.
Proof.
  intros (Hs1&Ha1&Ho1&Hc1) (Hs2&Ha2&Ho2&Hc2). split; [congruence|]. split; [congruence|].
  split.
  - intros e ? ?. by rewrite Ho2, Ho1.
  - intros c ?. by rewrite Hc2, Hc1.
Qed.

Lemma attributes_alter (f : Element → Element) d e :
  (∀ el, attributes (f el) = attributes el) →
  attributes <$> alter f e d = attributes <$> d.
Proof.
  intros Hf. apply list_eq. intros i. rewrite !list_lookup_fmap, list_lookup_alter.
  destruct (decide (e = i)) as [->|]; [|done].
  destruct (d !! i); cbn; [|done]. by rewrite Hf.
Qed.

Lemma menuFrame_navbar (f : Element → Element) d :
  (∀ el, tagName (f el) = tagName el ∧ parentNode (f el) = parentNode el) →
  (∀ el, attributes (f el) = attributes el) →
  (∀ el (c : string), c ≠ "active" → c ∈ classList (f el) ↔ c ∈ classList el) →
  menuFrame d (alter f (navbar w) d).
Proof.
  intros Hs Ha Hc. split; [by apply skeleton_alter|]. split; [by apply attributes_alter|].
  split.
  - intros e He _. by rewrite list_lookup_alter_ne.
  - intros c Hn. unfold Dom.classList_contains. rewrite list_lookup_alter.
    destruct (decide (navbar w = navbar w)); [|done].
    destruct (d !! navbar w) as [el|]; cbn; [|done].
    unfold Dom.contains_class. apply bool_decide_ext. by apply Hc.
Qed.

Lemma menuFrame_toggle d : menuFrame d (Dom.classList_toggle d (navbar w) "active").
Proof.
  apply menuFrame_navbar.
  - intros el. unfold Dom.toggle_class. destruct (Dom.contains_class el "active"); [done|].
    by rewrite add_class_tagName, add_class_parentNode.
  - intros el. unfold Dom.toggle_class. destruct (Dom.contains_class el "active"); [done|].
    apply add_class_attributes.
  - intros el c Hc. unfold Dom.toggle_class. destruct (Dom.contains_class el "active").
    + rewrite remove_class_elem. tauto.
    + rewrite add_class_elem. tauto.
Qed.

Lemma menuFrame_remove d : menuFrame d (Dom.classList_remove d (navbar w) "active").
Proof.
  apply menuFrame_navbar; try done.
  intros el c Hc. rewrite remove_class_elem. tauto.
Qed.

Lemma menuFrame_setClassName d (glyph : string) :
  menuFrame d (Dom.setClassName d icon glyph).
Proof.
  split; [by apply skeleton_alter|]. split; [by apply attributes_alter|]. split.
  - intros e _ He. unfold Dom.setClassName. by rewrite list_lookup_alter_ne.
  - intros c _. unfold Dom.classList_contains, Dom.setClassName.
    by rewrite list_lookup_alter_ne.
Qed.

(** The invariant of a dispatch started in [d]. *)
Definition dispatched d d' : Prop := sameTree d0 d' ∧ menuFrame d d'.

Lemma dispatched_setIcon d d' (glyph : string) :
  dispatched d d' → dispatched d (fst (setIcon w glyph d')).
Proof.
  intros [Hs Hf]. rewrite (setIcon_eq d0 w icon Hicon) by done. cbn [fst]. split.
  - by apply sameTree_setClassName.
  - eapply menuFrame_trans; [exact Hf | apply menuFrame_setClassName].
Qed.

Lemma dispatched_toggle d d' : dispatched d d' → dispatched d (fst (onToggleClick w d')).
Proof.
  intros [Hs Hf]. unfold onToggleClick.
  assert (dispatched d (Dom.classList_toggle d' (navbar w) "active")) as Hd.
  { split; [by apply sameTree_toggle|].
    eapply menuFrame_trans; [exact Hf | apply menuFrame_toggle]. }
  destruct (Dom.classList_contains _ _ _); by apply dispatched_setIcon.
Qed.

Lemma dispatched_closing d d' :
  dispatched d d' →
  dispatched d (fst (setIcon w "ri-menu-line" (Dom.classList_remove d' (navbar w) "active"))).
Proof.
  intros [Hs Hf]. apply dispatched_setIcon. split; [by apply sameTree_remove|].
  eapply menuFrame_trans; [exact Hf | apply menuFrame_remove].
Qed.

Lemma dispatched_listenersAt d d' node :
  dispatched d d' → dispatched d (listenersAt w node d').
Proof.
  intros Hd. unfold listenersAt.
  set (d1 := if bool_decide (node = mobileMenuToggle w)
             then fst (onToggleClick w d') else d').
  assert (dispatched d d1) as Hd1.
  { unfold d1. case_bool_decide; [by apply dispatched_toggle | done]. }
  clearbody d1. case_bool_decide; [|done]. by apply dispatched_closing.
Qed.

Lemma dispatched_click d target : sameTree d0 d → dispatched d (click w target d).
Proof.
  intros Hs. unfold click.
  set (path := target :: Dom.ancestors d target).
  assert (dispatched d (foldl (λ d node, listenersAt w node d) d path)) as Hd.
  { apply (foldl_invariant (dispatched d)); [|split; [done | apply menuFrame_refl]].
    intros d' node _. apply dispatched_listenersAt. }
  unfold onDocumentClick. destruct (_ && _); [by apply dispatched_closing | done].
Qed.
End MenuFrame.

(** X11. Whatever is clicked, the menu script changes nothing but the
    [active] class of the panel and the class list of the icon: the tree,
    every attribute, every other element and every other class of the panel
    stay as they are. *)
Theorem menu_click_frame (d0 d : Document) (w : MobileMenu.Wiring) (icon target : nat) :
  Css.querySelectorIn d0 (MobileMenu.mobileMenuToggle w) "i" = Some (Some icon) →
  icon ≠ MobileMenu.navbar w →
  skeleton d = skeleton d0 →
  let d' := MobileMenu.click w target d in
  skeleton d' = skeleton d ∧
  attributes <$> d' = attributes <$> d ∧
  (∀ e, e ≠ MobileMenu.navbar w → e ≠ icon → d' !! e = d !! e) ∧
  (∀ c : string, c ≠ "active" →
     Dom.classList_contains d' (MobileMenu.navbar w) c
     = Dom.classList_contains d (MobileMenu.navbar w) c).
Proof.
  intros Hicon Hne Hs.
  by destruct (dispatched_click d0 w icon Hicon Hne d target Hs) as [_ H].
Qed.

(** On the sample menu page a click on the icon leaves the link and the
    class [navbar] of the panel alone. *)
Lemma menu_click_frame_witness :
  let w := MobileMenu.mkWiring 4 1 [3] in
  let d' := MobileMenu.click w 5 Sample.menu in
  d' !! 3 = Sample.menu !! 3 ∧
  Dom.classList_contains d' 1 "navbar" = true.
Proof.
  intros w d'.
  destruct (menu_click_frame Sample.menu Sample.menu w 5 5) as (_&_&Ho&Hc);
    try (vm_compute; reflexivity).
  - cbn. lia.
  - split; [apply Ho; cbn; lia|]. unfold d'. rewrite Hc; [vm_compute; reflexivity | done].
Defined.

(** X12. A click inside the panel that is neither inside the trigger nor
    inside a navigation link changes nothing: the menu stays as it is. *)
Theorem menu_click_in_panel (d0 d : Document) (w : MobileMenu.Wiring) (target : nat) :
  skeleton d = skeleton d0 →
  Dom.contains d0 (MobileMenu.navbar w) target = true →
  Dom.contains d0 (MobileMenu.mobileMenuToggle w) target = false →
  (∀ l, l ∈ MobileMenu.navLinks w → Dom.contains d0 l target = false) →
  MobileMenu.click w target d = d.
Proof.
  intros Hs Hb Ht Hl. unfold MobileMenu.click.
  rewrite (skeleton_ancestors d d0) by done.
  rewrite path_idle.
  - apply (onDocumentClick_inside d0); [done | by left].
  - by apply bool_decide_eq_false in Ht.
  - intros n Hn Hin. specialize (Hl n Hin). by apply bool_decide_eq_false in Hl.
Qed.

(** On the opened sample menu a click on the list itself keeps it open. *)
Lemma menu_click_in_panel_witness :
  let w := MobileMenu.mkWiring 4 1 [3] in
  let opened := MobileMenu.click w 5 Sample.menu in
  MobileMenu.isOpen w opened = true ∧ MobileMenu.click w 2 opened = opened.
Proof.
  intros w opened. split; [vm_compute; reflexivity|].
  apply (menu_click_in_panel Sample.menu opened w 2); try (vm_compute; reflexivity).
  intros l [->|[]%elem_of_nil]%elem_of_cons. vm_compute. reflexivity.
Defined.

(** X13. When the trigger contains no [<i>], its click listener still flips
    the panel and then throws a [TypeError] on the assignment to
    [icon.className]; a click on the trigger leaves the document with the
    panel toggled and nothing else changed. *)
Theorem menu_without_icon (d0 d : Document) (w : MobileMenu.Wiring) (target : nat) :
  Css.querySelectorIn d0 (MobileMenu.mobileMenuToggle w) "i" = Some None →
  Dom.well_formed d0 = true →
  skeleton d = skeleton d0 →
  Dom.contains d0 (MobileMenu.mobileMenuToggle w) target = true →
  (∀ l, l ∈ MobileMenu.navLinks w → Dom.contains d0 l target = false) →
  MobileMenu.onToggleClick w d
  = (Dom.classList_toggle d (MobileMenu.navbar w) "active", Throw TypeError) ∧
  MobileMenu.click w target d = Dom.classList_toggle d (MobileMenu.navbar w) "active".
Proof.
  intros Hicon Hwf Hs Ht Hl.
  assert (Hset : ∀ d1 (glyph : string), skeleton d1 = skeleton d0 →
                   MobileMenu.setIcon w glyph d1 = (d1, Throw TypeError)).
  { intros d1 glyph Hs1. unfold MobileMenu.setIcon.
    rewrite (skeleton_querySelectorIn_type d1 d0 _ "i" "i")
      by (done || (vm_compute; reflexivity)).
    by rewrite Hicon. }
  assert (Hs1 : skeleton (Dom.classList_toggle d (MobileMenu.navbar w) "active")
                = skeleton d0) by by apply sameTree_toggle.
  assert (Htoggle : MobileMenu.onToggleClick w d
                    = (Dom.classList_toggle d (MobileMenu.navbar w) "active",
                       Throw TypeError)).
  { unfold MobileMenu.onToggleClick. rewrite !Hset by done. by destruct (Dom.classList_contains _ _ _). }
  split; [exact Htoggle|].
  unfold MobileMenu.click. rewrite (skeleton_ancestors d d0) by done.
  rewrite path_toggle.
  - rewrite Htoggle. cbn [fst]. apply (onDocumentClick_inside d0); [done | by right].
  - by apply path_NoDup.
  - by apply bool_decide_eq_true in Ht.
  - intros n Hn Hin. specialize (Hl n Hin). by apply bool_decide_eq_false in Hl.
Qed.

(** The sample menu page with an empty trigger. *)
Lemma menu_without_icon_witness :
  let w := MobileMenu.mkWiring 4 1 [3] in
  let bare := take 5 Sample.menu in
  MobileMenu.wire bare = Some w ∧
  MobileMenu.isOpen w (MobileMenu.click w 4 bare) = true ∧
  snd (MobileMenu.onToggleClick w bare) = Throw TypeError.
Proof.
  intros w bare.
  destruct (menu_without_icon bare bare w 4) as (Ht&Hc); try (vm_compute; reflexivity).
  - intros l [->|[]%elem_of_nil]%elem_of_cons. vm_compute. reflexivity.
  - split; [vm_compute; reflexivity|]. split; [rewrite Hc; vm_compute; reflexivity|].
    by rewrite Ht.
Defined.

(** X14. Two clicks on the trigger bring the panel back to the state it was
    in, and the icon to the glyph of that state. *)
Theorem menu_toggle_twice (d0 d : Document) (w : MobileMenu.Wiring) (icon target : nat) :
  MobileMenu.wire d0 = Some w →
  Css.querySelectorIn d0 (MobileMenu.mobileMenuToggle w) "i" = Some (Some icon) →
  icon ≠ MobileMenu.navbar w →
  Dom.well_formed d0 = true →
  skeleton d = skeleton d0 →
  Dom.contains d0 (MobileMenu.mobileMenuToggle w) target = true →
  (∀ l, l ∈ MobileMenu.navLinks w → Dom.contains d0 l target = false) →
  let d'' := MobileMenu.click w target (MobileMenu.click w target d) in
  MobileMenu.isOpen w d'' = MobileMenu.isOpen w d ∧
  classList <$> d'' !! icon
  = Some [if MobileMenu.isOpen w d then "ri-close-line" else "ri-menu-line"].
Proof.
  intros Hwire Hicon Hne Hwf Hs Ht Hl.
  destruct (menu_toggle_wired d0 w icon Hwire Hicon Hne d Hwf Hs) as (H1&_&_).
  destruct (H1 target Ht Hl) as (Ho1&_).
  destruct (dispatched_click d0 w icon Hicon Hne d target Hs) as [Hs1 _].
  destruct (menu_toggle_wired d0 w icon Hwire Hicon Hne _ Hwf Hs1) as (H2&_&_).
  destruct (H2 target Ht Hl) as (Ho2&Hg2).
  cbv zeta in *. rewrite Hg2, Ho2, Ho1, negb_involutive. done.
Qed.

(** Opening and closing the sample menu through the icon. *)
Lemma menu_toggle_twice_witness :
  let w := MobileMenu.mkWiring 4 1 [3] in
  let d'' := MobileMenu.click w 5 (MobileMenu.click w 5 Sample.menu) in
  MobileMenu.isOpen w d'' = false ∧ classList <$> d'' !! 5 = Some ["ri-menu-line"].
Proof.
  intros w d''.
  destruct (menu_toggle_twice Sample.menu Sample.menu w 5 5) as (Ho&Hg);
    try (vm_compute; reflexivity).
  - cbn. lia.
  - intros l [->|[]%elem_of_nil]%elem_of_cons. vm_compute. reflexivity.
  - split; [exact Ho | exact Hg].
Defined.


(** * The page: timers and window listeners *)

Module Page.
Import ScrollAnimation.

(** The closures the scripts hand to [setTimeout]. *)
Inductive Task :=
| Construct          (** of the [DOMContentLoaded] listener: [new ScrollAnimation()] *)
| Reveal             (** of [fallbackAnimation] *)
| ResizeRescan       (** of the [resize] listener *)
| VisibilityRescan.  (** of the [visibilitychange] listener *)

Record Timer := mkTimer {
  timerId : nat;
  due : nat;
  task : Task;
}.

Record Window := mkWindow {
  (** the document with the fields of the [ScrollAnimation] instance *)
  instance : State;
  (** [window.scrollAnimation] has been assigned *)
  scrollAnimation : bool;
  (** ['IntersectionObserver' in window] *)
  hasIntersectionObserver : bool;
  (** [document.visibilityState === 'visible'] *)
  visible : bool;
  (** [window.location.search] *)
  search : string;
  (** the time in milliseconds *)
  now : nat;
  nextTimerId : nat;
  pending : list Timer;
  (** the variable [resizeTimeout] of [handleResize] *)
  resizeTimeout : option nat;
  (** the timer callbacks the browser has run, with the time of each *)
  ran : list (nat * Task);
  (** lines written by [console.log] *)
  logged : list string;
}.

Definition set_instance (s : State) (w : Window) : Window :=
  mkWindow s (scrollAnimation w) (hasIntersectionObserver w) (visible w) (search w)
           (now w) (nextTimerId w) (pending w) (resizeTimeout w) (ran w) (logged w).

Definition set_pending (p : list Timer) (w : Window) : Window :=
  mkWindow (instance w) (scrollAnimation w) (hasIntersectionObserver w) (visible w)
           (search w) (now w) (nextTimerId w) p (resizeTimeout w) (ran w) (logged w).

Definition set_resizeTimeout (r : option nat) (w : Window) : Window :=
  mkWindow (instance w) (scrollAnimation w) (hasIntersectionObserver w) (visible w)
           (search w) (now w) (nextTimerId w) (pending w) r (ran w) (logged w).

Definition set_visible (v : bool) (w : Window) : Window :=
  mkWindow (instance w) (scrollAnimation w) (hasIntersectionObserver w) v
           (search w) (now w) (nextTimerId w) (pending w) (resizeTimeout w) (ran w)
           (logged w).

Definition set_now (t : nat) (w : Window) : Window :=
  mkWindow (instance w) (scrollAnimation w) (hasIntersectionObserver w) (visible w)
           (search w) t (nextTimerId w) (pending w) (resizeTimeout w) (ran w) (logged w).

Definition record_run (t : Task) (w : Window) : Window :=
  mkWindow (instance w) (scrollAnimation w) (hasIntersectionObserver w) (visible w)
           (search w) (now w) (nextTimerId w) (pending w) (resizeTimeout w)
           (ran w ++ [(now w, t)])%list (logged w).

(** [setTimeout(task, delay)]: the new timer and its id. *)
Definition setTimeout (t : Task) (delay : nat) (w : Window) : Window * nat :=
  (mkWindow (instance w) (scrollAnimation w) (hasIntersectionObserver w) (visible w)
            (search w) (now w) (S (nextTimerId w))
            (pending w ++ [mkTimer (nextTimerId w) (now w + delay) t])%list
            (resizeTimeout w) (ran w) (logged w),
   nextTimerId w).

(** [clearTimeout(id)]; an undefined or unknown id cancels nothing. *)
Definition clearTimeout (id : option nat) (w : Window) : Window :=
  set_pending (filter (λ t, Some (timerId t) ≠ id) (pending w)) w.

(** The timers the instance asked for while it ran from [before] to
    [after] become timers of the window. *)
Definition adoptTimers (before after : State) (w : Window) : Window :=
  foldl (λ w request, match request with
                      | (delay, FallbackReveal) => fst (setTimeout Reveal delay w)
                      end)
        w (drop (length (timers before)) (timers after)).

Definition debugLine : string := "Scroll Animation System initialized:".

(** The callback of the [DOMContentLoaded] timer. *)
Definition construct (w : Window) : Window :=
  let '(s', completion) := init (hasIntersectionObserver w) (instance w) in
  let w1 := adoptTimers (instance w) s' (set_instance s' w) in
  match completion with
  | Normal =>
      mkWindow (instance w1) true (hasIntersectionObserver w1) (visible w1) (search w1)
               (now w1) (nextTimerId w1) (pending w1) (resizeTimeout w1) (ran w1)
               (if JsString.includes (search w1) "debug=animations"
                then (logged w1 ++ [debugLine])%list else logged w1)
  | Throw _ => w1
  end.

(** The browser runs a timer callback; an exception ends the callback. *)
Definition runTask (w : Window) (t : Task) : Window :=
  record_run t
    match t with
    | Construct => construct w
    | Reveal => set_instance (fst (fallbackReveal (instance w))) w
    | ResizeRescan => set_instance (fst (observeElements (instance w))) w
    | VisibilityRescan => set_instance (fst (observeElements (instance w))) w
    end.

(** One millisecond passes: the timers that are due are taken off the list
    and run in the order they were set. *)
Definition tick (w : Window) : Window :=
  let t := S (now w) in
  let dueNow := filter (λ x, (due x ≤ t)%nat) (pending w) in
  let later := filter (λ x, ¬ (due x ≤ t)%nat) (pending w) in
  foldl runTask (set_pending later (set_now t w)) (task <$> dueNow).

Fixpoint elapse (ms : nat) (w : Window) : Window :=
  match ms with
  | O => w
  | S n => elapse n (tick w)
  end.

(** The listener of [DOMContentLoaded]. *)
Definition domContentLoaded (w : Window) : Window :=
  fst (setTimeout Construct 50 w).

(** The listener of [visibilitychange], after the browser has changed the
    visibility state. *)
Definition visibilityChange (nowVisible : bool) (w : Window) : Window :=
  let w1 := set_visible nowVisible w in
  if visible w1 && scrollAnimation w1
  then fst (setTimeout VisibilityRescan 100 w1)
  else w1.

(** [handleResize] has installed its listener. *)
Definition resizeListening (w : Window) : bool :=
  existsb (λ h, match h with ResizeHook => true | _ => false end) (hooks (instance w)).

(** The listener of [resize], present once [handleResize] has run. *)
Definition resize (w : Window) : Window :=
  if resizeListening w then
    let w1 := clearTimeout (resizeTimeout w) w in
    let '(w2, id) := setTimeout ResizeRescan 250 w1 in
    set_resizeTimeout (Some id) w2
  else w.

(** A freshly loaded page, before [DOMContentLoaded]. *)
Definition loaded (d : Document) (supportsObserver isVisible : bool) (query : string)
  : Window :=
  mkWindow (page d) false supportsObserver isVisible query 0 0 [] None [] [].

(** A burst of resize events: one now, and one more after each gap. *)
Definition resizeBurst (gaps : list nat) (w : Window) : Window :=
  foldl (λ w gap, resize (elapse gap w)) (resize w) gaps.

End Page.

Section PageFacts.
Import ScrollAnimation Page.
Implicit Types (w : Window) (t : Task) (s : State).

#[local] Instance task_eq_dec : EqDecision Task.
Proof. solve_decision. Defined.

(** The pending timers of the resize listener. *)
Definition resizeTimers w : list Timer :=
  filter (λ x, task x = ResizeRescan) (pending w).

(** How many re-scans the resize timer has run. *)
Definition rescans w : nat :=
  length (filter (λ r, snd r = ResizeRescan) (ran w)).

(** Every pending resize timer is the one [resizeTimeout] names. *)
Definition resizeTracked w : Prop :=
  ∀ x, x ∈ pending w → task x = ResizeRescan → resizeTimeout w = Some (timerId x).

(** The resize timer is set: exactly one is pending, due at [D]. *)
Definition armed (D : nat) w : Prop :=
  ∃ id, resizeTimers w = [mkTimer id D ResizeRescan] ∧
        resizeTimeout w = Some id ∧ (now w < D)%nat.

(** What a timer callback other than the bookkeeping leaves alone. *)
Definition calm w w' : Prop :=
  now w' = now w ∧ resizeTimeout w' = resizeTimeout w ∧
  resizeTimers w' = resizeTimers w ∧ ran w' = ran w ∧
  (resizeListening w = true → resizeListening w' = true).

Lemma calm_refl w : calm w w.
Proof. by repeat split. Qed.

Lemma calm_trans w1 w2 w3 : calm w1 w2 → calm w2 w3 → calm w1 w3.
Proof.
  intros (?&?&?&?&?) (?&?&?&?&?). repeat split; try congruence. auto.
Qed.

Lemma calm_set_instance s w :
  (resizeListening w = true → resizeListening (set_instance s w) = true) →
  calm w (set_instance s w).
Proof. by repeat split. Qed.

Lemma calm_setTimeout t delay w :
  t ≠ ResizeRescan → calm w (fst (setTimeout t delay w)).
Proof.
  intros Ht. repeat split; try done.
  unfold resizeTimers. cbn [fst setTimeout pending].
  rewrite filter_app, filter_cons_False, filter_nil by done. apply app_nil_r.
Qed.

Lemma hooks_observeElements s : hooks (fst (observeElements s)) = hooks s.
Proof. rewrite observeElements_eq. by destruct (observer s). Qed.

Lemma hooks_fallbackReveal s : hooks (fst (fallbackReveal s)) = hooks s.
Proof. by rewrite fallbackReveal_eq. Qed.

Lemma listening_init (b : bool) s :
  existsb (λ h, match h with ResizeHook => true | _ => false end) (hooks s) = true →
  existsb (λ h, match h with ResizeHook => true | _ => false end)
          (hooks (fst (init b s))) = true.
Proof.
  intros H. unfold init. destruct b; cbn [negb]; [|done].
  rewrite observeElements_eq. cbn [observer set_observer fst hooks set_hooks
    set_document document].
  rewrite existsb_app. by rewrite H.
Qed.

Lemma calm_adoptTimers before after w : calm w (adoptTimers before after w).
Proof.
  unfold adoptTimers. apply (foldl_invariant (calm w)); [|apply calm_refl].
  intros w' [delay []] _ H. eapply calm_trans; [exact H|]. by apply calm_setTimeout.
Qed.

Lemma calm_construct w : calm w (construct w).
Proof.
  unfold construct.
  destruct (init (hasIntersectionObserver w) (instance w)) as [s' c] eqn:Hinit.
  assert (calm w (adoptTimers (instance w) s' (set_instance s' w))) as Hc.
  { eapply calm_trans; [|apply calm_adoptTimers]. apply calm_set_instance.
    intros H. unfold resizeListening in *. cbn [instance set_instance].
    replace s' with (fst (init (hasIntersectionObserver w) (instance w)))
      by by rewrite Hinit.
    by apply listening_init. }
  destruct c; [|done]. destruct Hc as (?&?&?&?&?). by repeat split.
Qed.

Lemma runTask_spec w t :
  now (runTask w t) = now w ∧ resizeTimeout (runTask w t) = resizeTimeout w ∧
  resizeTimers (runTask w t) = resizeTimers w ∧
  ran (runTask w t) = (ran w ++ [(now w, t)])%list ∧
  (resizeListening w = true → resizeListening (runTask w t) = true).
Proof.
  assert (∀ w', calm w w' →
            now (record_run t w') = now w ∧
            resizeTimeout (record_run t w') = resizeTimeout w ∧
            resizeTimers (record_run t w') = resizeTimers w ∧
            ran (record_run t w') = (ran w ++ [(now w, t)])%list ∧
            (resizeListening w = true → resizeListening (record_run t w') = true)) as H.
  { intros w' (Hn&Hr&Ht&Hran&Hl). unfold record_run. cbn. rewrite Hn, Hran.
    repeat split; try done. }
  unfold runTask. apply H. destruct t.
  - apply calm_construct.
  - apply calm_set_instance. unfold resizeListening. cbn [instance set_instance].
    by rewrite hooks_fallbackReveal.
  - apply calm_set_instance. unfold resizeListening. cbn [instance set_instance].
    by rewrite hooks_observeElements.
  - apply calm_set_instance. unfold resizeListening. cbn [instance set_instance].
    by rewrite hooks_observeElements.
Qed.

Lemma runTasks_spec tasks w :
  let w' := foldl runTask w tasks in
  now w' = now w ∧ resizeTimeout w' = resizeTimeout w ∧
  resizeTimers w' = resizeTimers w ∧
  ran w' = (ran w ++ ((λ t, (now w, t)) <$> tasks))%list ∧
  (resizeListening w = true → resizeListening w' = true).
Proof.
  revert w. induction tasks as [|t tasks IH]; intros w; cbn [foldl fold_left fmap list_fmap].
  - rewrite app_nil_r. by repeat split.
  - destruct (runTask_spec w t) as (Hn&Hr&Ht&Hran&Hl).
    destruct (IH (runTask w t)) as (Hn'&Hr'&Ht'&Hran'&Hl').
    cbv zeta in *. rewrite Hn', Hr', Ht', Hran', Hran, Hn, <- app_assoc.
    repeat split; auto.
Qed.

Lemma count_rescans (t : nat) (l : list Task) :
  length (filter (λ r : nat * Task, snd r = ResizeRescan) ((λ x, (t, x)) <$> l))
  = length (filter (λ x, x = ResizeRescan) l).
Proof.
  induction l as [|a l IHl]; [done|]. cbn [fmap list_fmap].
  rewrite !filter_cons. cbn [snd].
  destruct (decide (a = ResizeRescan)); cbn [length]; by rewrite IHl.
Qed.

Lemma due_rescans (t : nat) (l : list Timer) :
  filter (λ x, x = ResizeRescan) (task <$> filter (λ x, (due x ≤ t)%nat) l)
  = task <$> filter (λ x, (due x ≤ t)%nat) (filter (λ x, task x = ResizeRescan) l).
Proof.
  induction l as [|a l IHl]; [done|].
  rewrite (filter_cons (λ x, (due x ≤ t)%nat) a l).
  rewrite (filter_cons (λ x, task x = ResizeRescan) a l).
  destruct (decide (due a ≤ t)%nat) as [Hd|Hd];
    destruct (decide (task a = ResizeRescan)) as [Ha|Ha]; cbn [fmap list_fmap].
  - rewrite filter_cons_True by done. rewrite (filter_cons_True _ a) by done.
    cbn [fmap list_fmap]. by rewrite IHl.
  - rewrite filter_cons_False by done. exact IHl.
  - rewrite (filter_cons_False _ a) by done. exact IHl.
  - exact IHl.
Qed.

(** One millisecond, in terms of the pending resize timers. *)
Lemma tick_spec w :
  now (tick w) = S (now w) ∧ resizeTimeout (tick w) = resizeTimeout w ∧
  resizeTimers (tick w) = filter (λ x, ¬ (due x ≤ S (now w))%nat) (resizeTimers w) ∧
  rescans (tick w)
  = rescans w + length (filter (λ x, (due x ≤ S (now w))%nat) (resizeTimers w)) ∧
  (∀ x, x ∈ resizeTimers w → (due x ≤ S (now w))%nat →
        (S (now w), ResizeRescan) ∈ ran (tick w)) ∧
  (∀ r, r ∈ ran w → r ∈ ran (tick w)) ∧
  (resizeListening w = true → resizeListening (tick w) = true).
Proof.
  unfold tick.
  set (t := S (now w)).
  set (dueNow := filter (λ x, (due x ≤ t)%nat) (pending w)).
  set (later := filter (λ x, ¬ (due x ≤ t)%nat) (pending w)).
  destruct (runTasks_spec (task <$> dueNow) (set_pending later (set_now t w)))
    as (Hn&Hr&Ht&Hran&Hl).
  cbv zeta in Hn, Hr, Ht, Hran, Hl. rewrite Hn, Hr, Ht.
  split; [done|]. split; [done|]. split.
  { unfold resizeTimers. cbn [pending set_pending]. unfold later.
    rewrite !list_filter_filter. apply list_filter_iff. tauto. }
  pose proof (count_rescans t) as Hcount.
  assert (Hdue : filter (λ x, x = ResizeRescan) (task <$> dueNow)
                 = task <$> filter (λ x, (due x ≤ t)%nat) (resizeTimers w))
    by apply due_rescans.
  split.
  { unfold rescans. rewrite Hran. cbn [ran set_pending set_now now].
    rewrite filter_app, length_app, Hcount, Hdue, length_fmap. done. }
  split.
  { intros x Hx Hd. rewrite Hran. apply elem_of_app. right.
    cbn [now set_pending set_now]. apply list_elem_of_fmap. exists ResizeRescan.
    split; [done|].
    assert (ResizeRescan ∈ filter (λ x, x = ResizeRescan) (task <$> dueNow)) as Hin.
    { rewrite Hdue. apply list_elem_of_fmap. exists x.
      apply list_elem_of_filter in Hx as [Hx1 Hx2]. split; [done|].
      apply list_elem_of_filter. split; [done|].
      unfold resizeTimers. by apply list_elem_of_filter. }
    by apply list_elem_of_filter in Hin as [_ ?]. }
  split.
  { intros r Hr'. rewrite Hran. apply elem_of_app. by left. }
  exact Hl.
Qed.

Lemma elapse_plus (a b : nat) w : elapse (a + b) w = elapse b (elapse a w).
Proof. revert w. induction a as [|a IH]; intros w; cbn [elapse Nat.add]; [done|]. apply IH. Qed.

Lemma ran_elapse (n : nat) w r : r ∈ ran w → r ∈ ran (elapse n w).
Proof.
  revert w. induction n as [|n IH]; intros w Hr; cbn [elapse]; [done|].
  apply IH. by apply (tick_spec w).
Qed.

Lemma now_elapse (n : nat) w : now (elapse n w) = now w + n.
Proof.
  revert w. induction n as [|n IH]; intros w; cbn [elapse]; [lia|].
  rewrite IH. destruct (tick_spec w) as (->&_). lia.
Qed.

(** With no resize timer pending, time alone runs no re-scan. *)
Lemma elapse_idle (n : nat) w :
  resizeTimers w = [] →
  resizeTimers (elapse n w) = [] ∧ rescans (elapse n w) = rescans w ∧
  resizeTimeout (elapse n w) = resizeTimeout w ∧
  (resizeListening w = true → resizeListening (elapse n w) = true).
Proof.
  revert w. induction n as [|n IH]; intros w Hi; cbn [elapse]; [done|].
  destruct (tick_spec w) as (_&Hr&Ht&Hc&_&_&Hl). rewrite Hi in Ht, Hc.
  destruct (IH (tick w)) as (?&->&->&?); [by rewrite Ht|].
  rewrite Hc, Hr. cbn. split; [done|]. split; [lia|]. split; [done|]. auto.
Qed.

(** Before its due time the resize timer stays set and nothing is re-scanned
    for it. *)
Lemma elapse_armed_early (D n : nat) w :
  armed D w → (now w + n < D)%nat →
  armed D (elapse n w) ∧ rescans (elapse n w) = rescans w ∧
  (resizeListening w = true → resizeListening (elapse n w) = true).
Proof.
  revert w. induction n as [|n IH]; intros w Ha Hlt; cbn [elapse]; [done|].
  destruct Ha as (id&Ht&Hr&Hn).
  destruct (tick_spec w) as (Hn'&Hr'&Ht'&Hc'&_&_&Hl'). rewrite Ht in Ht', Hc'.
  rewrite filter_cons_True in Ht' by (cbn; lia).
  rewrite filter_cons_False in Hc' by (cbn; lia).
  rewrite filter_nil in Ht', Hc'.
  destruct (IH (tick w)) as (Ha&->&Hl).
  - exists id. rewrite Ht', Hr', Hn'. repeat split; [done | lia].
  - rewrite Hn'. lia.
  - split; [done|]. split; [rewrite Hc'; cbn; lia | auto].
Qed.

(** Once its due time is reached, the resize timer has run exactly once, at
    that time, and none is pending. *)
Lemma elapse_armed_late (D n : nat) w :
  armed D w → (D ≤ now w + n)%nat →
  resizeTimers (elapse n w) = [] ∧ rescans (elapse n w) = rescans w + 1 ∧
  (D, ResizeRescan) ∈ ran (elapse n w) ∧
  (resizeListening w = true → resizeListening (elapse n w) = true).
Proof.
  revert w. induction n as [|n IH]; intros w Ha Hge.
  - destruct Ha as (id&_&_&Hn). lia.
  - cbn [elapse]. destruct (decide (S (now w) < D)%nat) as [Hlt|Hnow].
    + destruct Ha as (id&Ht&Hr&Hn).
      destruct (tick_spec w) as (Hn'&Hr'&Ht'&Hc'&_&_&Hl'). rewrite Ht in Ht', Hc'.
      rewrite filter_cons_True in Ht' by (cbn; lia).
      rewrite filter_cons_False in Hc' by (cbn; lia).
      rewrite filter_nil in Ht', Hc'.
      destruct (IH (tick w)) as (?&->&?&?).
      * exists id. rewrite Ht', Hr', Hn'. repeat split; [done | lia].
      * rewrite Hn'. lia.
      * split; [done|]. split; [rewrite Hc'; cbn; lia|]. split; [done | auto].
    + destruct Ha as (id&Ht&Hr&Hn). assert (D = S (now w)) as -> by lia.
      destruct (tick_spec w) as (Hn'&Hr'&Ht'&Hc'&Hran'&_&Hl'). rewrite Ht in Ht', Hc'.
      rewrite filter_cons_False in Ht' by (cbn; lia).
      rewrite filter_cons_True in Hc' by (cbn; lia).
      rewrite filter_nil in Ht', Hc'.
      destruct (elapse_idle n (tick w) Ht') as (?&->&_&?).
      split; [done|]. split; [rewrite Hc'; cbn; lia|]. split; [|auto].
      apply ran_elapse, (Hran' (mkTimer id (S (now w)) ResizeRescan)).
      * rewrite Ht. left.
      * cbn. lia.
Qed.

(** A resize event cancels the pending resize timer and sets a new one. *)
Lemma resize_arms w :
  resizeListening w = true → resizeTracked w →
  armed (now w + 250) (resize w) ∧ rescans (resize w) = rescans w ∧
  now (resize w) = now w ∧ resizeListening (resize w) = true.
Proof.
  intros Hl Htr. unfold resize. rewrite Hl. cbn [setTimeout clearTimeout].
  split; [|done]. exists (nextTimerId w).
  split; [|split; [done | cbn; lia]].
  unfold resizeTimers. cbn [pending set_resizeTimeout set_pending now].
  rewrite filter_app, filter_cons_True, filter_nil by done.
  unfold clearTimeout. cbn [pending set_pending nextTimerId now].
  assert (filter (λ x, task x = ResizeRescan)
                 (filter (λ x, Some (timerId x) ≠ resizeTimeout w) (pending w)) = [])
    as ->; [|done].
  rewrite list_filter_filter.
  assert (∀ l, (∀ x, x ∈ l → x ∈ pending w) →
               filter (λ a, task a = ResizeRescan ∧ Some (timerId a) ≠ resizeTimeout w) l
               = []) as H; [|by apply H].
  intros l. induction l as [|a l IHl]; intros Hsub; [done|].
  rewrite filter_cons_False.
  - apply IHl. intros x ?. apply Hsub. by right.
  - intros [Ha Hne]. apply Hne. symmetry. apply Htr; [apply Hsub; left | done].
Qed.

Lemma armed_tracked (D : nat) w : armed D w → resizeTracked w.
Proof.
  intros (id&Ht&Hr&_) x Hx Hx'.
  assert (x ∈ resizeTimers w) as Hin by by apply list_elem_of_filter.
  rewrite Ht in Hin. apply list_elem_of_singleton in Hin as ->. done.
Qed.

Lemma resizeBurst_arms (gaps : list nat) w :
  resizeListening w = true → resizeTracked w → Forall (λ g : nat, (g < 250)%nat) gaps →
  armed (now (resizeBurst gaps w) + 250) (resizeBurst gaps w) ∧
  rescans (resizeBurst gaps w) = rescans w ∧
  resizeListening (resizeBurst gaps w) = true.
Proof.
  intros Hl Htr Hgaps. unfold resizeBurst.
  destruct (resize_arms w Hl Htr) as (Ha&Hc&Hn&Hl').
  rewrite <- Hn in Ha. clear Hn.
  revert Ha Hc Hl'. generalize (resize w). intros w1.
  revert w1. induction Hgaps as [|g gaps Hg Hgaps IH]; intros w1 Ha Hc Hl';
    cbn [foldl fold_left]; [done|].
  destruct (elapse_armed_early (now w1 + 250) g w1 Ha ltac:(lia)) as (Ha2&Hc2&Hl2).
  destruct (resize_arms (elapse g w1)) as (Ha3&Hc3&Hn3&Hl3);
    [auto | by eapply armed_tracked |].
  apply IH; [by rewrite Hn3 | congruence | done].
Qed.
End PageFacts.

(** ** The open page as a transition system *)

(** What can happen to the page once [DOMContentLoaded] has fired: time
    passes, the window is resized, the visibility changes, the activator's
    path makes a step, or the mutation observer reports. *)
Inductive PageEvent :=
| Elapse (ms : nat)
| Resize
| VisibilityChange (nowVisible : bool)
| Activator (ev : Event)
| Mutation (mutations : list DynamicContent.MutationRecord).

(** [handleDynamicContent] has installed its observer. *)
Definition mutationListening (w : Page.Window) : bool :=
  existsb (λ h, match h with MutationHook => true | _ => false end)
          (hooks (Page.instance w)).

Definition pageStep (w : Page.Window) (ev : PageEvent) : Page.Window :=
  match ev with
  | Elapse ms => Page.elapse ms w
  | Resize => Page.resize w
  | VisibilityChange nowVisible => Page.visibilityChange nowVisible w
  | Activator ev =>
      if Page.scrollAnimation w
      then Page.set_instance (step (Page.instance w) ev) w else w
  | Mutation mutations =>
      if mutationListening w
      then Page.set_instance (fst (DynamicContent.onMutations mutations (Page.instance w))) w
      else w
  end.

Definition browse (evs : list PageEvent) (w : Page.Window) : Page.Window :=
  foldl pageStep w evs.

(** The page at the moment [DOMContentLoaded] has fired. *)
Definition opened (d : Document) (supportsObserver isVisible : bool) (query : string)
  : Page.Window :=
  Page.domContentLoaded (Page.loaded d supportsObserver isVisible query).

Section PageRuns.
Import ScrollAnimation Page DynamicContent.
Implicit Types (w : Window) (s : State).

(** At most one resize timer is pending, and it lies in the future. *)
Definition standing w : Prop := resizeTimers w = [] ∨ ∃ D, armed D w.

Lemma hooks_step s ev : hooks (step s ev) = hooks s.
Proof.
  destruct ev as [entries| |]; cbn [step].
  - by rewrite handleIntersection_eq.
  - rewrite runAnimationFrame_eq. by destruct (observer s).
  - apply hooks_observeElements.
Qed.

Lemma hooks_onMutations mutations s : hooks (fst (onMutations mutations s)) = hooks s.
Proof.
  unfold onMutations. rewrite inspectRecords_eq. cbn [orb].
  destruct (existsb _ mutations); [apply hooks_observeElements | done].
Qed.

Lemma calm_set_visible v w : calm w (set_visible v w).
Proof. by repeat split. Qed.

(** Every event but time and resize leaves the resize timer alone. *)
Lemma calm_pageStep w ev :
  match ev with Elapse _ | Resize => False | _ => True end → calm w (pageStep w ev).
Proof.
  destruct ev as [ms| |v|ev|mutations]; try done; intros _; cbn [pageStep].
  - unfold visibilityChange. cbv zeta.
    destruct (visible (set_visible v w) && scrollAnimation (set_visible v w)).
    + eapply calm_trans; [apply (calm_set_visible v)|]. by apply calm_setTimeout.
    + apply calm_set_visible.
  - destruct (scrollAnimation w); [|apply calm_refl].
    apply calm_set_instance. unfold resizeListening. cbn [instance set_instance].
    by rewrite hooks_step.
  - destruct (mutationListening w); [|apply calm_refl].
    apply calm_set_instance. unfold resizeListening. cbn [instance set_instance].
    by rewrite hooks_onMutations.
Qed.

Lemma standing_calm w w' : calm w w' → standing w → standing w'.
Proof.
  intros (Hn&Hr&Ht&_&_) [Hi|(D&id&Ha&Hid&Hlt)].
  - left. by rewrite Ht.
  - right. exists D, id. rewrite Ht, Hr, Hn. done.
Qed.

Lemma standing_tracked w : standing w → resizeTracked w.
Proof.
  intros [Hi|(D&Ha)]; [|by eapply armed_tracked].
  intros x Hx Hx'. assert (x ∈ resizeTimers w) as Hin by by apply list_elem_of_filter.
  rewrite Hi in Hin. by apply elem_of_nil in Hin.
Qed.

Lemma standing_elapse (n : nat) w : standing w → standing (elapse n w).
Proof.
  intros [Hi|(D&Ha)].
  - left. by apply elapse_idle.
  - destruct (decide (now w + n < D)%nat) as [Hlt|Hge].
    + right. exists D. by apply elapse_armed_early.
    + left. apply (elapse_armed_late D); [done | lia].
Qed.

Lemma standing_resize w : standing w → standing (resize w).
Proof.
  intros Hs. destruct (resizeListening w) eqn:Hl.
  - right. exists (now w + 250). by apply resize_arms, standing_tracked.
  - unfold resize. by rewrite Hl.
Qed.

Lemma standing_pageStep w ev : standing w → standing (pageStep w ev).
Proof.
  destruct ev as [ms| |v|ev|mutations].
  - apply standing_elapse.
  - apply standing_resize.
  - by apply standing_calm, calm_pageStep.
  - by apply standing_calm, calm_pageStep.
  - by apply standing_calm, calm_pageStep.
Qed.

Lemma standing_browse evs w : standing w → standing (browse evs w).
Proof.
  revert w. induction evs as [|ev evs IH]; intros w Hs; [done|].
  apply IH, standing_pageStep, Hs.
Qed.

Lemma standing_opened d (supports vis : bool) q : standing (opened d supports vis q).
Proof. by left. Qed.

(** *** Time without a due timer *)

Lemma elapse_quiet (n : nat) w :
  (∀ x, x ∈ pending w → (now w + n < due x)%nat) →
  elapse n w = set_now (now w + n) w.
Proof.
  revert w. induction n as [|n IH]; intros w Hq; cbn [elapse].
  - rewrite Nat.add_0_r. by destruct w.
  - assert (tick w = set_now (S (now w)) w) as ->.
    { unfold tick. cbv zeta.
      assert (filter (λ x, (due x ≤ S (now w))%nat) (pending w) = []) as ->.
      { induction (pending w) as [|a l IHl]; [done|].
        rewrite filter_cons_False by (specialize (Hq a ltac:(left)); lia).
        apply IHl. intros x Hx. apply Hq. by right. }
      assert (filter (λ x, ¬ (due x ≤ S (now w))%nat) (pending w) = pending w) as ->.
      { induction (pending w) as [|a l IHl]; [done|].
        rewrite filter_cons_True by (specialize (Hq a ltac:(left)); lia).
        f_equal. apply IHl. intros x Hx. apply Hq. by right. }
      done. }
    rewrite IH.
    + cbn [now set_now]. unfold set_now. cbn. f_equal. lia.
    + intros x Hx. cbn [pending set_now] in Hx. specialize (Hq x Hx).
      cbn [now set_now]. lia.
Qed.

Lemma tick_fire w (id : nat) (t : Task) :
  pending w = [mkTimer id (S (now w)) t] →
  tick w = runTask (set_pending [] (set_now (S (now w)) w)) t.
Proof.
  intros Hp. unfold tick. cbv zeta. rewrite Hp.
  rewrite (filter_cons_True (λ x, (due x ≤ S (now w))%nat)) by (cbn; lia).
  rewrite (filter_cons_False (λ x, ¬ (due x ≤ S (now w))%nat)) by (cbn; lia).
  by rewrite !filter_nil.
Qed.
End PageRuns.

Section PageTheorems.
Import ScrollAnimation Page DynamicContent.
Implicit Types (w : Window) (s : State).

Lemma elapse_waiting (n : nat) (w : Window) (id D : nat) (t : Task) :
  pending w = [mkTimer id D t] → (now w + n < D)%nat →
  elapse n w = set_now (now w + n) w.
Proof.
  intros Hp Hlt. apply elapse_quiet. rewrite Hp.
  intros x [->|[]%elem_of_nil]%elem_of_cons. exact Hlt.
Qed.

Lemma elapse_no_timer (n : nat) (w : Window) :
  pending w = [] → elapse n w = set_now (now w + n) w.
Proof.
  intros Hp. apply elapse_quiet. rewrite Hp. by intros x []%elem_of_nil.
Qed.

Lemma opened_eq d (supports vis : bool) q :
  opened d supports vis q
  = mkWindow (page d) false supports vis q 0 1 [mkTimer 0 50 Construct] None [] [].
Proof. reflexivity. Qed.

Ltac window_fields :=
  cbn [instance scrollAnimation hasIntersectionObserver visible search now nextTimerId
       pending resizeTimeout ran logged set_instance set_pending set_now record_run
       fst snd app Nat.add].

Lemma constructed_observing d (vis : bool) q :
  elapse 50 (opened d true vis q)
  = mkWindow (started d) true true vis q 50 1 [] None [(50, Construct)]
             (if JsString.includes q "debug=animations" then [debugLine] else []).
Proof.
  rewrite opened_eq.
  change 50 with (49 + 1)%nat at 1. rewrite elapse_plus.
  rewrite (elapse_waiting 49 _ 0 50 Construct) by (first [reflexivity | cbn [now]; lia]).
  cbn [elapse]. rewrite (tick_fire _ 0 Construct) by reflexivity.
  unfold runTask, construct, started. window_fields.
  rewrite init_eq. unfold adoptTimers. cbn [timers page length drop foldl].
  window_fields. reflexivity.
Qed.

Lemma constructed_fallback d (vis : bool) q :
  elapse 50 (opened d false vis q)
  = mkWindow (fallbackAnimation (page d)) true false vis q 50 2
             [mkTimer 1 150 Reveal] None [(50, Construct)]
             (if JsString.includes q "debug=animations" then [debugLine] else []).
Proof.
  rewrite opened_eq.
  change 50 with (49 + 1)%nat at 1. rewrite elapse_plus.
  rewrite (elapse_waiting 49 _ 0 50 Construct) by (first [reflexivity | cbn [now]; lia]).
  cbn [elapse]. rewrite (tick_fire _ 0 Construct) by reflexivity.
  unfold runTask, construct. window_fields.
  unfold init. cbn [negb]. unfold adoptTimers.
  cbn [timers page length drop foldl fallbackAnimation set_timers set_console app].
  unfold setTimeout.
  window_fields. reflexivity.
Qed.

Lemma revealed_fallback d (vis : bool) q :
  elapse 150 (opened d false vis q)
  = mkWindow (fst (fallbackReveal (fallbackAnimation (page d)))) true false vis q 150 2
             [] None [(50, Construct); (150, Reveal)]
             (if JsString.includes q "debug=animations" then [debugLine] else []).
Proof.
  change 150 with (50 + (99 + 1))%nat at 1. rewrite !elapse_plus, constructed_fallback.
  rewrite (elapse_waiting 99 _ 1 150 Reveal) by (first [reflexivity | cbn [now]; lia]).
  cbn [elapse]. rewrite (tick_fire _ 1 Reveal) by reflexivity.
  unfold runTask. window_fields. reflexivity.
Qed.

(** *** The page without the observer *)

Definition dormant (w : Window) : Prop :=
  hasIntersectionObserver w = false ∧ hooks (instance w) = [] ∧
  observer (instance w) = None.

Lemma adoptTimers_instance before after w :
  instance (adoptTimers before after w) = instance w ∧
  hasIntersectionObserver (adoptTimers before after w) = hasIntersectionObserver w.
Proof.
  unfold adoptTimers.
  apply (foldl_invariant
           (λ w', instance w' = instance w ∧
                  hasIntersectionObserver w' = hasIntersectionObserver w)); [|done].
  by intros w' [delay []] _ H.
Qed.

Lemma observer_step s ev : observer s = None → observer (step s ev) = None.
Proof.
  intros Ho. destruct ev as [entries| |]; cbn [step].
  - by rewrite handleIntersection_eq.
  - by rewrite runAnimationFrame_eq, Ho.
  - by rewrite observeElements_eq, Ho.
Qed.

Lemma dormant_runTask w t : dormant w → dormant (runTask w t).
Proof.
  intros (Hio&Hh&Ho). unfold runTask.
  assert (∀ w', dormant w' → dormant (record_run t w')) as Hrec by done.
  apply Hrec. destruct t.
  - unfold construct, init. rewrite Hio. cbn [negb].
    destruct (adoptTimers_instance (instance w) (fallbackAnimation (instance w))
                (set_instance (fallbackAnimation (instance w)) w)) as (Hi&Hio').
    unfold dormant. cbn [instance hasIntersectionObserver]. rewrite Hi, Hio'.
    done.
  - unfold dormant. cbn [instance set_instance hasIntersectionObserver].
    rewrite fallbackReveal_eq. done.
  - unfold dormant. cbn [instance set_instance hasIntersectionObserver].
    rewrite observeElements_eq, Ho. done.
  - unfold dormant. cbn [instance set_instance hasIntersectionObserver].
    rewrite observeElements_eq, Ho. done.
Qed.

Lemma dormant_elapse (n : nat) w : dormant w → dormant (elapse n w).
Proof.
  revert w. induction n as [|n IH]; intros w Hd; cbn [elapse]; [done|].
  apply IH. unfold tick. cbv zeta.
  apply (foldl_invariant dormant); [|done].
  intros w' t _. apply dormant_runTask.
Qed.

Lemma dormant_resize w : dormant w → resize w = w.
Proof. intros (_&Hh&_). unfold resize, resizeListening. by rewrite Hh. Qed.

Lemma dormant_mutation w mutations : dormant w → pageStep w (Mutation mutations) = w.
Proof. intros (_&Hh&_). cbn [pageStep]. unfold mutationListening. by rewrite Hh. Qed.

Lemma dormant_pageStep w ev : dormant w → dormant (pageStep w ev).
Proof.
  intros Hd. destruct ev as [ms| |v|ev|mutations].
  - by apply dormant_elapse.
  - cbn [pageStep]. by rewrite dormant_resize.
  - cbn [pageStep]. unfold visibilityChange. cbv zeta.
    by destruct (visible (set_visible v w) && scrollAnimation (set_visible v w)).
  - cbn [pageStep]. destruct (scrollAnimation w); [|done].
    destruct Hd as (Hio&Hh&Ho). unfold dormant.
    cbn [instance set_instance hasIntersectionObserver].
    by rewrite hooks_step, observer_step.
  - by rewrite dormant_mutation.
Qed.

Lemma untimed_pageStep w ev :
  dormant w → resizeTimers w = [] ∧ rescans w = 0 →
  resizeTimers (pageStep w ev) = [] ∧ rescans (pageStep w ev) = 0.
Proof.
  intros Hd [Ht Hc].
  destruct ev as [ms| |v|ev|mutations].
  - cbn [pageStep]. destruct (elapse_idle ms w Ht) as (->&->&_). done.
  - cbn [pageStep]. by rewrite dormant_resize.
  - destruct (calm_pageStep w (VisibilityChange v) I) as (_&_&->&Hr&_).
    unfold rescans in *. by rewrite Hr.
  - destruct (calm_pageStep w (Activator ev) I) as (_&_&->&Hr&_).
    unfold rescans in *. by rewrite Hr.
  - by rewrite dormant_mutation.
Qed.

(** X18. In a browser without the observer, whatever happens on the page
    after [DOMContentLoaded]: the instance never gets an observer, a resize
    event and a mutation report change nothing, and no resize timer is ever
    set or run. *)
Theorem fallback_page_inert (d : Document) (vis : bool) (q : string)
    (evs : list PageEvent) :
  let w := browse evs (opened d false vis q) in
  observer (instance w) = None ∧
  resize w = w ∧
  (∀ mutations, pageStep w (Mutation mutations) = w) ∧
  resizeTimers w = [] ∧ rescans w = 0.
Proof.
  intros w.
  assert (dormant w ∧ resizeTimers w = [] ∧ rescans w = 0) as (Hd&Ht&Hc).
  { subst w. unfold browse.
    apply (foldl_invariant (λ w, dormant w ∧ resizeTimers w = [] ∧ rescans w = 0)).
    - intros w ev _ (Hd&Hu). split; [by apply dormant_pageStep|].
      by apply untimed_pageStep.
    - done. }
  split; [apply Hd|]. split; [by apply dormant_resize|].
  split; [intros; by apply dormant_mutation | done].
Qed.

(** X16. Whatever happens on the page after [DOMContentLoaded], at most one
    timer of the resize listener is pending; it is the one [resizeTimeout]
    names and it is due in the future. *)
Theorem one_resize_timer (d : Document) (supports vis : bool) (q : string)
    (evs : list PageEvent) :
  let w := browse evs (opened d supports vis q) in
  (length (resizeTimers w) ≤ 1)%nat ∧
  (∀ x, x ∈ pending w → task x = ResizeRescan →
        resizeTimeout w = Some (timerId x) ∧ (now w < due x)%nat).
Proof.
  intros w.
  assert (standing w) as Hs by apply standing_browse, standing_opened.
  split.
  - destruct Hs as [->|(D&id&->&_)]; cbn; lia.
  - intros x Hx Hx'. split; [by apply standing_tracked|].
    assert (x ∈ resizeTimers w) as Hin by by apply list_elem_of_filter.
    destruct Hs as [Hi|(D&id&Ht&_&Hlt)].
    + rewrite Hi in Hin. by apply elem_of_nil in Hin.
    + rewrite Ht in Hin. apply list_elem_of_singleton in Hin as ->. exact Hlt.
Qed.

(** X15. Once the resize listener is installed, a burst of resize events
    less than 250 ms apart runs no re-scan while it lasts, and exactly one
    re-scan afterwards, 250 ms after the last event of the burst. *)
Theorem resize_debounce (d : Document) (supports vis : bool) (q : string)
    (evs : list PageEvent) (gaps : list nat) (quiet : nat) :
  let w := browse evs (opened d supports vis q) in
  let w1 := resizeBurst gaps w in
  let w2 := elapse quiet w1 in
  resizeListening w = true →
  Forall (λ g : nat, (g < 250)%nat) gaps →
  (250 ≤ quiet)%nat →
  rescans w1 = rescans w ∧
  rescans w2 = rescans w + 1 ∧
  (now w1 + 250, ResizeRescan) ∈ ran w2 ∧
  resizeTimers w2 = [].
Proof.
  intros w w1 w2 Hl Hgaps Hq.
  assert (standing w) as Hs by apply standing_browse, standing_opened.
  destruct (resizeBurst_arms gaps w Hl (standing_tracked w Hs) Hgaps) as (Ha&Hc&_).
  fold w1 in Ha, Hc.
  destruct (elapse_armed_late (now w1 + 250) quiet w1 Ha ltac:(lia)) as (Ht&Hc2&Hran&_).
  fold w2 in Ht, Hc2, Hran. rewrite Hc in Hc2. done.
Qed.

(** On the sample page: resize events at 50, 150, 350 and 599 ms give one
    re-scan, at 849 ms. *)
Lemma resize_debounce_witness :
  let w := browse [Elapse 50] (opened Sample.document true true "") in
  let w1 := resizeBurst [100; 200; 249] w in
  let w2 := elapse 300 w1 in
  rescans w1 = 0 ∧ rescans w2 = 1 ∧ (849, ResizeRescan) ∈ ran w2.
Proof.
  intros w w1 w2.
  destruct (resize_debounce Sample.document true true "" [Elapse 50] [100; 200; 249] 300)
    as (H1&H2&H3&_).
  - vm_compute. reflexivity.
  - repeat constructor; lia.
  - lia.
  - fold w w1 w2 in H1, H2, H3.
    assert (rescans w = 0) as Hw by (vm_compute; reflexivity).
    assert (now w1 = 599) as Hn by (vm_compute; reflexivity).
    rewrite Hw in H1, H2. rewrite Hn in H3.
    split; [exact H1 | split; [exact H2 | exact H3]].
Defined.

(** X17. The first milliseconds after [DOMContentLoaded]: nothing happens to
    the page for 50 ms; then the activator is constructed and assigned to
    [window.scrollAnimation], with the debug line logged exactly when the
    query string asks for it.  With the observer that is all the timers do;
    without it the reveal of [fallbackAnimation] waits another 100 ms and
    runs at 150 ms. *)
Theorem startup_timeline (d : Document) (supports vis : bool) (q : string) (n : nat) :
  let w := elapse n (opened d supports vis q) in
  now w = n ∧
  ((n < 50)%nat →
     instance w = page d ∧ scrollAnimation w = false ∧ ran w = [] ∧ logged w = []) ∧
  ((50 ≤ n)%nat →
     scrollAnimation w = true ∧
     logged w = (if JsString.includes q "debug=animations" then [debugLine] else []) ∧
     (supports = true →
        instance w = started d ∧ ran w = [(50, Construct)] ∧ pending w = []) ∧
     (supports = false → (n < 150)%nat →
        instance w = fallbackAnimation (page d) ∧ ran w = [(50, Construct)]) ∧
     (supports = false → (150 ≤ n)%nat →
        instance w = fst (fallbackReveal (fallbackAnimation (page d))) ∧
        ran w = [(50, Construct); (150, Reveal)] ∧ pending w = [])).
Proof.
  intros w. split; [subst w; by rewrite now_elapse|]. split.
  - intros Hn. subst w. rewrite opened_eq.
    rewrite (elapse_waiting n _ 0 50 Construct) by (first [reflexivity | cbn [now]; lia]).
    done.
  - intros Hn. subst w. replace n with (50 + (n - 50))%nat by lia.
    rewrite elapse_plus. destruct supports.
    + rewrite constructed_observing, elapse_no_timer by reflexivity.
      window_fields. repeat split; done.
    + destruct (decide (n < 150)%nat) as [Hlt|Hge].
      * rewrite constructed_fallback.
        rewrite (elapse_waiting _ _ 1 150 Reveal) by (first [reflexivity | cbn [now]; lia]).
        window_fields. repeat split; try done; intros; lia.
      * replace (n - 50)%nat with (100 + (n - 150))%nat by lia.
        rewrite <- elapse_plus.
        replace (50 + (100 + (n - 150)))%nat with (150 + (n - 150))%nat by lia.
        rewrite elapse_plus, revealed_fallback, elapse_no_timer by reflexivity.
        window_fields. repeat split; try done; intros; lia.
Qed.

(** The sample page at 49, 50, 120 and 200 ms. *)
Lemma startup_timeline_witness :
  instance (elapse 49 (opened Sample.document true true "")) = page Sample.document ∧
  instance (elapse 50 (opened Sample.document true true "")) = started Sample.document ∧
  ran (elapse 120 (opened Sample.document false true "")) = [(50, Construct)] ∧
  ran (elapse 200 (opened Sample.document false true ""))
  = [(50, Construct); (150, Reveal)].
Proof.
  split; [|split; [|split]].
  - destruct (startup_timeline Sample.document true true "" 49) as (_&Hearly&_).
    apply Hearly. lia.
  - destruct (startup_timeline Sample.document true true "" 50) as (_&_&Hlate).
    destruct Hlate as (_&_&Hobs&_); [lia|]. by apply Hobs.
  - destruct (startup_timeline Sample.document false true "" 120) as (_&_&Hlate).
    destruct Hlate as (_&_&_&Hwait&_); [lia|]. apply Hwait; [reflexivity | lia].
  - destruct (startup_timeline Sample.document false true "" 200) as (_&_&Hlate).
    destruct Hlate as (_&_&_&_&Hrev); [lia|]. apply Hrev; [reflexivity | lia].
Defined.

(** X19. On a page with no pending timer: becoming hidden schedules nothing;
    becoming visible schedules nothing before the activator is constructed,
    and afterwards it runs [observeElements] once, 100 ms later. *)
Theorem visibility_rescan (w : Window) (n : nat) :
  pending w = [] → (100 ≤ n)%nat →
  let hidden := elapse n (visibilityChange false w) in
  let shown := elapse n (visibilityChange true w) in
  instance hidden = instance w ∧ ran hidden = ran w ∧
  (scrollAnimation w = false → instance shown = instance w ∧ ran shown = ran w) ∧
  (scrollAnimation w = true →
     instance shown = fst (observeElements (instance w)) ∧
     ran shown = (ran w ++ [(now w + 100, VisibilityRescan)])%list ∧
     pending shown = []).
Proof.
  intros Hp Hn hidden shown. subst hidden shown. unfold visibilityChange. cbv zeta.
  cbn [visible set_visible scrollAnimation andb].
  rewrite (elapse_no_timer n (set_visible false w)) by exact Hp.
  split; [done|]. split; [done|]. split.
  - intros ->. rewrite (elapse_no_timer n (set_visible true w)) by exact Hp. done.
  - intros ->. replace n with (99 + (1 + (n - 100)))%nat by lia.
    rewrite elapse_plus.
    rewrite (elapse_waiting 99 _ (nextTimerId w) (now w + 100) VisibilityRescan).
    2:{ cbn [setTimeout fst pending set_visible]. by rewrite Hp. }
    2:{ cbn [setTimeout fst now set_visible]. lia. }
    cbn [Nat.add elapse].
    rewrite (tick_fire _ (nextTimerId w) VisibilityRescan).
    2:{ cbn [setTimeout fst pending set_visible set_now now]. rewrite Hp.
        cbn [app]. do 2 f_equal. lia. }
    rewrite elapse_no_timer by reflexivity.
    unfold runTask. window_fields. cbn [setTimeout fst instance set_visible ran now].
    repeat split. do 3 f_equal. lia.
Qed.

(** The sample page becomes visible, or hidden, right after construction. *)
Lemma visibility_rescan_witness :
  let w := elapse 50 (opened Sample.document true true "") in
  ran (elapse 100 (visibilityChange true w)) = [(50, Construct); (150, VisibilityRescan)] ∧
  ran (elapse 100 (visibilityChange false w)) = [(50, Construct)].
Proof.
  intros w.
  destruct (visibility_rescan w 100) as (_&Hhid&_&Hshown).
  - vm_compute. reflexivity.
  - lia.
  - split.
    + destruct Hshown as (_&->&_); vm_compute; reflexivity.
    + rewrite Hhid. vm_compute. reflexivity.
Defined.
End PageTheorems.
